(** * rust-loop-drop, scripts/recording_to_als: the volume automation engine

    A shallow embedding of the two scripts that turn a recorded event log
    into per-track gain keyframes ([index.js]) and bake such keyframes into
    a 16-bit PCM stream ([apply-audio-levels.js]).

    Number model.  The scripts are embedded twice.  In the first
    embedding JavaScript numbers are exact rationals [Q]: the arithmetic
    of the scripts is carried out without rounding, and the non-finite
    values (NaN, the infinities) are not represented; equality of computed
    rationals is [Qeq] (written [==]).  It carries the statements about
    formulas, order and structure, which rounding leaves as they are.  In
    the second embedding ([Binary64]) the numbers are binary64 floats and
    the operations the IEEE ones; it carries the statements in which a
    rounded value decides a discrete result: whether the hold keyframe is
    inserted, and which bytes are stored for a sample.  Integers that the
    scripts use as array indices, byte offsets and sample values are [Z]
    in both. *)

From Stdlib Require Import ZArith QArith Qround List Lia Lqa Bool.
From Stdlib.Strings Require Import Byte.
From Stdlib Require String.
From Stdlib Require PrimFloat FloatOps Uint63.
Import String.StringSyntax.
Import ListNotations.

Local Open Scope Z_scope.

(** ** JavaScript runtime conventions shared by both scripts *)

Module JS.

(** What a script can raise, plus [Diverges] for a loop that has not ended
    within the iterations that the embedding allots to it, which are as
    many as any run that ends can take. *)
Inductive Thrown : Set :=
| UnsupportedFormat   (* new Error('Unsupported format') *)
| RangeError          (* Buffer access outside the buffer, or value out of range *)
| TypeError           (* property read on undefined *)
| Diverges.

Inductive outcome (A : Type) : Type :=
| Ok (a : A)
| Throw (e : Thrown).
Arguments Ok {A} a.
Arguments Throw {A} e.

Definition bind {A B : Type} (m : outcome A) (k : A -> outcome B) : outcome B :=
  match m with
  | Ok a => k a
  | Throw e => Throw e
  end.

(** [arr[i]] for an integer [i]: the element, or undefined ([None])
    outside [0 .. length-1]. *)
Definition index {A : Type} (arr : list A) (i : Z) : option A :=
  if i <? 0 then None else nth_error arr (Z.to_nat i).

(** [arr.length] *)
Definition length {A : Type} (arr : list A) : Z := Z.of_nat (List.length arr).

(** [arr[arr.length - 1]] *)
Definition lastOf {A : Type} (arr : list A) : option A :=
  index arr (length arr - 1).

(** [x < y] and [x > y] on numbers. *)
Definition ltb (x y : Q) : bool := (Qnum x * QDen y <? Qnum y * QDen x)%Z.
Definition gtb (x y : Q) : bool := ltb y x.

(** [~n] on an int32. *)
Definition bitnot (n : Z) : Z := Z.lnot n.

(** [n >>> 1] for a non-negative int32. *)
Definition ushr1 (n : Z) : Z := Z.shiftr n 1.

End JS.

Import JS.

Declare Scope js_scope.
Delimit Scope js_scope with js.
Notation "x <- m ;; k" := (bind m (fun x => k))
  (at level 61, m at next level, right associativity) : js_scope.
Local Open Scope js_scope.

(** ** The [binary-search] package, as [getVolume] calls it *)

Module BinarySearch.
Section Bs.

Context {A : Type}.

(** Modelled from the spec: the [binary-search] package that
    [apply-audio-levels.js] requires as [bs] is not under src/.  Section
    4.2 asks for a "binary search over keyframes by time"; the result
    convention is the one [getVolume] decodes: the index of a matching
    element, otherwise [~low] where [low] is the insertion point.  The
    loop is the classical one: probe the middle of [low .. high], move
    [low] past a probe that compares below the needle, [high] before one
    that compares above it. *)
Fixpoint bs_loop (fuel : nat) (haystack : list A) (needle : Q)
    (comparator : A -> Q -> Q) (low high : Z) : outcome Z :=
  if low <=? high then
    match fuel with
    | O => Throw Diverges
    | S fuel' =>
        let mid := low + ushr1 (high - low) in
        match index haystack mid with
        | None => Throw TypeError
        | Some probe =>
            let cmp := comparator probe needle in
            if ltb cmp 0 then bs_loop fuel' haystack needle comparator (mid + 1) high
            else if gtb cmp 0 then bs_loop fuel' haystack needle comparator low (mid - 1)
            else Ok mid
        end
    end
  else Ok (bitnot low).

Definition bs (haystack : list A) (needle : Q) (comparator : A -> Q -> Q) : outcome Z :=
  bs_loop (List.length haystack) haystack needle comparator 0 (length haystack - 1).

End Bs.
End BinarySearch.

Import BinarySearch.

(** ** apply-audio-levels.js *)

(** One entry of the [.levels] file: [{time, beat, value}]. *)
Module Keyframe.
Record t : Set := make { time : Q; beat : Q; value : Q }.
End Keyframe.

Module ApplyAudioLevels.

(** [function getVolume (time, events)] *)
Definition getVolume (time : Q) (events : list Keyframe.t) : outcome Q :=
  index <- bs events time (fun a b => Keyframe.time a - b)%Q ;;
  if 0 <=? index then
    match JS.index events index with
    | Some e => Ok (Keyframe.value e)
    | None => Throw TypeError
    end
  else
    let before := JS.index events ((index * -1) - 2) in
    let after := JS.index events ((index * -1) - 1) in
    match before, after with
    | Some before, Some after =>
        let range := (Keyframe.value after - Keyframe.value before)%Q in
        let pos := ((time - Keyframe.time before)
                    / (Keyframe.time after - Keyframe.time before))%Q in
        Ok (Keyframe.value before + (range * pos))%Q
    | Some before, None => Ok (Keyframe.value before)
    | None, Some after => Ok (Keyframe.value after)
    | None, None => Ok 1%Q
    end.

(** A keyframe sequence sorted strictly ascending by [time]. *)
Fixpoint ascending (events : list Keyframe.t) : bool :=
  match events with
  | [] => true
  | a :: rest =>
      match rest with
      | [] => true
      | b :: _ => ltb (Keyframe.time a) (Keyframe.time b) && ascending rest
      end
  end.

(** The call returns a number equal to [q]. *)
Definition yields (m : outcome Q) (q : Q) : Prop :=
  exists g, m = Ok g /\ (g == q)%Q.

(** What a search result [r] for [time] stands for: the index of a
    keyframe at that time, or [~p] for the insertion point [p], with all
    keyframes before [p] earlier and all from [p] on later than [time]. *)
Definition found (events : list Keyframe.t) (time : Q) (r : Z) : Prop :=
  0 <= r /\ exists a, index events r = Some a /\ (Keyframe.time a == time)%Q.

Definition insertion (events : list Keyframe.t) (time : Q) (r : Z) : Prop :=
  r < 0 /\ 0 <= - r - 1 <= length events
  /\ (forall i a, index events i = Some a -> i < - r - 1 ->
                  (Keyframe.time a < time)%Q)
  /\ (forall i a, index events i = Some a -> - r - 1 <= i ->
                  (time < Keyframe.time a)%Q).

(** [function clip (value, min, max)] *)
Definition clip (value min max : Q) : Q :=
  if gtb value max then max
  else if ltb value min then min
  else value.


(** *** Buffers and the WAVE format record *)

Definition Buffer : Set := list byte.

Definition byteZ (b : byte) : Z := Z.of_N (Byte.to_N b).

(** The byte whose value is [z mod 256]. *)
Definition toByte (z : Z) : byte :=
  match Byte.of_N (Z.to_N (z mod 256)) with
  | Some b => b
  | None => x00
  end.

(** [buf[i] = b] for [i] inside the buffer. *)
Fixpoint store (buf : Buffer) (i : nat) (b : byte) : Buffer :=
  match buf, i with
  | [], _ => []
  | _ :: rest, O => b :: rest
  | a :: rest, S j => a :: store rest j b
  end.

(** Conversion of a number to an integer as the typed-array stores and
    [>>>] perform it: the fractional part is dropped (towards zero). *)
Definition truncate (value : Q) : Z := Z.quot (Qnum value) (QDen value).

(** Two bytes, low one first, read as a two's complement 16-bit integer. *)
Definition int16 (first last : byte) : Z :=
  let val := byteZ first + byteZ last * 2 ^ 8 in
  if Z.testbit val 15 then val - 2 ^ 16 else val.

(** Node's [buf.readInt16LE(offset)]: the 16-bit integer at [offset]; a
    [RangeError] outside the buffer. *)
Definition readInt16LE (buf : Buffer) (offset : Z) : outcome Z :=
  match index buf offset, index buf (offset + 1) with
  | Some first, Some last => Ok (int16 first last)
  | _, _ => Throw RangeError
  end.

(** Node's [buf.writeInt16LE(value, offset)]: a [RangeError] when [value]
    is above [0x7fff] or below [-0x8000] or the two bytes do not fit;
    otherwise [buf[offset] = value; buf[offset + 1] = value >>> 8]. *)
Definition writeInt16LE (buf : Buffer) (value : Q) (offset : Z) : outcome Buffer :=
  if gtb value (inject_Z 0x7fff) || ltb value (inject_Z (-0x8000)) then Throw RangeError
  else if (offset <? 0) || (length buf <? offset + 2) then Throw RangeError
  else
    let n := truncate value in
    let buf1 := store buf (Z.to_nat offset) (toByte n) in
    Ok (store buf1 (Z.to_nat (offset + 1)) (toByte (Z.shiftr n 8))).

Inductive Endianness : Set := LE | BE.

(** The [format] object that [wav.Reader] emits. *)
Record Format : Set := {
  endianness : Endianness;
  channels : Z;
  sampleRate : Z;
  byteRate : Z;
  blockAlign : Z;
  bitDepth : Z
}.

Definition supported (format : Format) : bool :=
  (bitDepth format =? 16) &&
  match endianness format with LE => true | BE => false end.

(** [function writeFormat (buf, value, offset, format)]; the buffer is
    updated in place, so the embedding returns the updated buffer. *)
Definition writeFormat (buf : Buffer) (value : Q) (offset : Z) (format : Format)
    : outcome Buffer :=
  if supported format then
    writeInt16LE buf (clip value (inject_Z (-0x8000)) (inject_Z 0x7FFF)) offset
  else Throw UnsupportedFormat.

(** [function readFormat (buf, offset, format)] *)
Definition readFormat (buf : Buffer) (offset : Z) (format : Format) : outcome Z :=
  if supported format then readInt16LE buf offset
  else Throw UnsupportedFormat.

(** *** The transform stream of the ['format'] handler *)

Section Transform.

Variable format : Format.
Variable levels : list Keyframe.t.

(** [var channelBytes = format.blockAlign / format.channels]; integer
    division, which is the JavaScript quotient whenever [channels]
    divides [blockAlign], as it does in a PCM header
    ([blockAlign = channels * bitDepth / 8]). *)
Definition channelBytes : Z := blockAlign format / channels format.

(** The body of the inner loop, for frame offset [i] and one channel.
    The product is exact here; [Binary64.sample] has the rounded product
    that the script truncates, and the time as a double when [byteRate]
    is 0. *)
Definition sample (processed i channel : Z) (chunk : Buffer) : outcome Buffer :=
  let time := (inject_Z (processed + i) / inject_Z (byteRate format))%Q in
  let chanOffset := channelBytes * channel in
  value <- readFormat chunk (i + chanOffset) format ;;
  volume <- getVolume time levels ;;
  writeFormat chunk (inject_Z value * volume)%Q (i + chanOffset) format.

(** [for (var channel = 0; channel < format.channels; channel += 1)] *)
Fixpoint channelLoop (fuel : nat) (processed i channel : Z) (chunk : Buffer)
    : outcome Buffer :=
  if channel <? channels format then
    match fuel with
    | O => Throw Diverges
    | S fuel' =>
        chunk' <- sample processed i channel chunk ;;
        channelLoop fuel' processed i (channel + 1) chunk'
    end
  else Ok chunk.

(** [for (var i = 0; i < chunk.length; i += format.blockAlign)] *)
Fixpoint frameLoop (fuel : nat) (processed i : Z) (chunk : Buffer) : outcome Buffer :=
  if i <? length chunk then
    match fuel with
    | O => Throw Diverges
    | S fuel' =>
        chunk' <- channelLoop (Z.to_nat (channels format)) processed i 0 chunk ;;
        frameLoop fuel' processed (i + blockAlign format) chunk'
    end
  else Ok chunk.

(** [transform (chunk, encoding, cb)]: the chunk that is pushed on. *)
Definition transform (processed : Z) (chunk : Buffer) : outcome Buffer :=
  frameLoop (List.length chunk) processed 0 chunk.

(** The transform stream over the successive chunks, [processed] growing
    by [chunk.length] after each. *)
Fixpoint transformStream (processed : Z) (chunks : list Buffer) : outcome (list Buffer) :=
  match chunks with
  | [] => Ok []
  | chunk :: rest =>
      chunk' <- transform processed chunk ;;
      rest' <- transformStream (processed + length chunk) rest ;;
      Ok (chunk' :: rest')
  end.

End Transform.

(** Modelled from the spec: the [stream-chunker] package that the script
    requires as [Chunker] is not under src/.  Section 4.2 asks to "process
    the input in fixed-size chunks": the stream is cut into consecutive
    chunks of exactly [chunkSize] bytes.  What is left at the end of the
    stream when its length is no multiple of [chunkSize] is no such chunk:
    the package emits it only under its [flush] option, which is off
    unless the caller asks for it. *)
Fixpoint chunksOf (fuel : nat) (chunkSize : nat) (flush : bool) (data : Buffer)
    : list Buffer :=
  match fuel with
  | O => []
  | S fuel' =>
      if (chunkSize <=? List.length data)%nat then
        firstn chunkSize data :: chunksOf fuel' chunkSize flush (skipn chunkSize data)
      else
        match data with
        | [] => []
        | _ :: _ => if flush then [data] else []
        end
  end.

Definition Chunker (chunkSize : Z) (flush : bool) (data : Buffer) : list Buffer :=
  if chunkSize <=? 0 then []
  else chunksOf (S (List.length data)) (Z.to_nat chunkSize) flush data.

(** [reader.pipe(Chunker(format.blockAlign * 1024)).pipe(transform).pipe(writer)]
    on the audio body that the reader delivers: the format that
    [wav.FileWriter(outputFile, format)] writes to the header, and the
    bytes that reach the writer.  [Chunker] is called without options. *)
Definition pipeline (format : Format) (levels : list Keyframe.t) (body : Buffer)
    : outcome (Format * Buffer) :=
  chunks <- transformStream format levels 0
              (Chunker (blockAlign format * 1024) false body) ;;
  Ok (format, concat chunks).

(** Number of whole frames in a body. *)
Definition frames (format : Format) (body : Buffer) : Z :=
  length body / blockAlign format.

(** A 16-bit little-endian mono format at 44.1 kHz, and an 8-bit one, for
    the examples. *)
Definition mono16 : Format :=
  {| endianness := LE; channels := 1; sampleRate := 44100; byteRate := 88200;
     blockAlign := 2; bitDepth := 16 |}.

Definition mono8 : Format :=
  {| endianness := LE; channels := 1; sampleRate := 44100; byteRate := 44100;
     blockAlign := 1; bitDepth := 8 |}.

End ApplyAudioLevels.

Import ApplyAudioLevels.

(** ** index.js: the event resolver

    The file holds two variants of the script: the first (lines 1-167)
    rescales the recorded clock by [recordingTimeMultiplier]; the second
    (lines 168-323) takes the recorded times as they are. *)

Module Event.

(** A parsed log line [[time, type, ...]]: ['tick'], ['channel_volume']
    with a track index and a value, ['tempo'] with a bpm, or another
    type, for which the loop body has no branch. *)
Inductive Payload : Set :=
| Tick
| ControlChange (trackIndex : Z) (value : Q)
| TempoChange (bpm : Q)
| Unknown.

Record t : Set := make { time : Q; payload : Payload }.

End Event.

Module TempoEvent.
(** An entry of [tempoEvents]; [tempo] is a number or [null] ([None]). *)
Record t : Set := make { time : Q; beat : Q; tempo : option Q }.
End TempoEvent.

Module Track.
(** An entry of [tracks] ([fileName] only names the exported file). *)
Record t : Set := make {
  id : Z;
  isTempoMaster : bool;
  name : String.string;
  channels : list Z;
  volumeEvents : list Keyframe.t
}.

Definition pushVolumeEvent (track : t) (e : Keyframe.t) : t :=
  make (id track) (isTempoMaster track) (name track) (channels track)
       (volumeEvents track ++ [e]).
End Track.

Module Resolver.

Local Open Scope Q_scope.
Local Open Scope string_scope.

Inductive Variant : Set :=
| Synced   (* lines 1-167 *)
| Plain.   (* lines 168-323 *)

(** [var recordingTimeMultiplier = 0.9999541021] *)
Definition recordingTimeMultiplier : Q := 0.9999541021.

(** [var tempoMultiplier = 1 / recordingTimeMultiplier], resp. [= 1] *)
Definition tempoMultiplier (v : Variant) : Q :=
  match v with
  | Synced => 1 / recordingTimeMultiplier
  | Plain => 1
  end.

(** [var time = event[0] * recordingTimeMultiplier], resp. [= event[0]] *)
Definition eventTime (v : Variant) (event0 : Q) : Q :=
  match v with
  | Synced => event0 * recordingTimeMultiplier
  | Plain => event0
  end.

Definition track (id : Z) (master : bool) (name : String.string) (channels : list Z) : Track.t :=
  Track.make id master name channels [].

(** [var tracks = [...]] *)
Definition initialTracks (v : Variant) : list Track.t :=
  match v with
  | Synced =>
      [ track 8%Z true "drums" [1]%Z; track 9%Z false "ext" [5]%Z; track 10%Z false "bass" [2]%Z;
        track 11%Z false "synth" [3; 4]%Z; track 12%Z false "fx" [7; 8]%Z ]
  | Plain =>
      [ track 8%Z true "drums" [4]%Z; track 9%Z false "bass" [2]%Z; track 10%Z false "synth" [3]%Z;
        track 11%Z false "vox" [1]%Z; track 12%Z false "looper" [5; 6]%Z;
        track 13%Z false "fx" [7; 8]%Z ]
  end.

(** The variables that the parsing loop updates. *)
Record State : Set := {
  tempo : option Q;
  ticks : list Q;
  duration : Q;
  length : Q;
  tracks : list Track.t;
  tempoEvents : list TempoEvent.t;
  timeAtLastTempoChange : Q;
  beatAtLastTempoChange : Q;
  tickDurations : list Q
}.

Definition initial (v : Variant) : State :=
  {| tempo := None; ticks := []; duration := 0; length := 0;
     tracks := initialTracks v; tempoEvents := [];
     timeAtLastTempoChange := 0; beatAtLastTempoChange := 0;
     tickDurations := [] |}.

(** A number, or [null] used as a number. *)
Definition toNumber (x : option Q) : Q :=
  match x with
  | Some q => q
  | None => 0
  end.

(** [!tempo]: [null] and [0] are falsy. *)
Definition falsy (x : option Q) : bool :=
  match x with
  | Some q => Qeq_bool q 0
  | None => true
  end.

(** [tracks[i] = track'] after the in-place [push] on [tracks[i]]. *)
Fixpoint replace (tracks : list Track.t) (i : nat) (track' : Track.t) : list Track.t :=
  match tracks, i with
  | [], _ => []
  | _ :: rest, O => track' :: rest
  | a :: rest, S j => a :: replace rest j track'
  end.

Section Loop.

Variable v : Variant.

(** [var beatDuration = 60 / lastTempo] from the last tempo event, 120
    when there is none.  A tempo of 0 makes [beatDuration] infinite in
    JavaScript and every quotient by it 0; with [q / 0 = 0] in [Q] the
    beats below come out the same. *)
Definition beatDuration (s : State) : Q :=
  let lastTempoEvent := lastOf (tempoEvents s) in
  let lastTempo :=
    match lastTempoEvent with
    | Some e => toNumber (TempoEvent.tempo e)
    | None => 120
    end in
  60 / lastTempo.

(** [var beat = beatAtLastTempoChange + (timeSinceTempoChange / beatDuration)] *)
Definition beat (s : State) (time : Q) : Q :=
  let timeSinceTempoChange := time - timeAtLastTempoChange s in
  beatAtLastTempoChange s + (timeSinceTempoChange / beatDuration s).

(** The ['channel_volume'] branch on a known track.  The test
    [time - lastEvent.time > 0.1] is decided here on the exact difference;
    [Binary64.pushControl] decides it on the rounded one, as the script
    does, and the two can differ when the exact gap is 0.1 up to
    rounding. *)
Definition pushControl (s : State) (time value3 : Q) (track : Track.t) : Track.t :=
  let value := value3 / 127 in
  let lastEvent := lastOf (Track.volumeEvents track) in
  let track1 :=
    match lastEvent with
    | Some lastEvent =>
        if gtb (time - Keyframe.time lastEvent) 0.1 then
          Track.pushVolumeEvent track
            (Keyframe.make (time - 0.05) (beat s time - (0.05 / beatDuration s))
                           (Keyframe.value lastEvent))
        else track
    | None => track
    end in
  Track.pushVolumeEvent track1 (Keyframe.make time (beat s time) (value * value * 1.618)).

(** The body of [forEach(line => ...)]; [None] is a line that
    [tryParse] gives up on. *)
Definition step (s : State) (line : option Event.t) : State :=
  match line with
  | None => s
  | Some event =>
      let time := eventTime v (Event.time event) in
      match Event.payload event with
      | Event.Tick =>
          {| tempo := tempo s;
             ticks := ticks s ++ [time];
             duration := time;
             length := beat s time;
             tracks := tracks s;
             tempoEvents := tempoEvents s;
             timeAtLastTempoChange := timeAtLastTempoChange s;
             beatAtLastTempoChange := beatAtLastTempoChange s;
             tickDurations :=
               match lastOf (ticks s) with
               | Some lastTick => tickDurations s ++ [time - lastTick]
               | None => tickDurations s
               end |}
      | Event.ControlChange trackIndex value3 =>
          match index (tracks s) trackIndex with
          | Some track =>
              {| tempo := tempo s;
                 ticks := ticks s;
                 duration := duration s;
                 length := length s;
                 tracks := replace (tracks s) (Z.to_nat trackIndex)
                                   (pushControl s time value3 track);
                 tempoEvents := tempoEvents s;
                 timeAtLastTempoChange := timeAtLastTempoChange s;
                 beatAtLastTempoChange := beatAtLastTempoChange s;
                 tickDurations := tickDurations s |}
          | None => s
          end
      | Event.TempoChange bpm =>
          {| tempo := if falsy (tempo s) then Some bpm else tempo s;
             ticks := ticks s;
             duration := duration s;
             length := length s;
             tracks := tracks s;
             tempoEvents :=
               tempoEvents s
               ++ [TempoEvent.make time (beat s time) (Some (bpm * tempoMultiplier v))];
             timeAtLastTempoChange := time;
             beatAtLastTempoChange := beat s time;
             tickDurations := tickDurations s |}
      | Event.Unknown => s
      end
  end.

(** The parsing loop over the lines of the log. *)
Definition parse (log : list (option Event.t)) : State :=
  fold_left step log (initial v).

(** The entry pushed after the loop: [tempo: lastTempo * tempoMultiplier]
    in the first variant, [tempo: lastTempo] in the second. *)
Definition closing (s : State) : TempoEvent.t :=
  let lastTempo :=
    match lastOf (tempoEvents s) with
    | Some e => TempoEvent.tempo e
    | None => tempo s
    end in
  TempoEvent.make (duration s) (length s)
    match v with
    | Synced => Some (toNumber lastTempo * tempoMultiplier v)
    | Plain => lastTempo
    end.

Definition close (s : State) : State :=
  {| tempo := tempo s; ticks := ticks s; duration := duration s; length := length s;
     tracks := tracks s;
     tempoEvents := tempoEvents s ++ [closing s];
     timeAtLastTempoChange := timeAtLastTempoChange s;
     beatAtLastTempoChange := beatAtLastTempoChange s;
     tickDurations := tickDurations s |}.

(** The state handed to the export and the template. *)
Definition resolve (log : list (option Event.t)) : State :=
  close (parse log).

(** The keyframes of track [i] in a state. *)
Definition keyframes (s : State) (i : Z) : list Keyframe.t :=
  match index (tracks s) i with
  | Some track => Track.volumeEvents track
  | None => []
  end.

End Loop.

(** The keyframes that [pushControl] appends to the track, for the
    statements below. *)
Definition appended (s : State) (time value3 : Q) (track : Track.t)
    : list Keyframe.t :=
  let new := Keyframe.make time (beat s time)
               (value3 / 127 * (value3 / 127) * 1.618) in
  match lastOf (Track.volumeEvents track) with
  | Some lastEvent =>
      if gtb (time - Keyframe.time lastEvent) 0.1 then
        [Keyframe.make (time - 0.05)
           (beat s time - (0.05 / beatDuration s))
           (Keyframe.value lastEvent); new]
      else [new]
  | None => [new]
  end.

(** Non-decreasing times, for logs and for keyframe sequences. *)
Fixpoint nondecreasing (times : list Q) : bool :=
  match times with
  | [] => true
  | a :: rest =>
      match rest with
      | [] => true
      | b :: _ => Qle_bool a b && nondecreasing rest
      end
  end.

(** The timestamps of the lines of a log that parse. *)
Fixpoint timestamps (log : list (option Event.t)) : list Q :=
  match log with
  | [] => []
  | Some event :: rest => Event.time event :: timestamps rest
  | None :: rest => timestamps rest
  end.

(** The times of a keyframe sequence. *)
Definition times (keyframes : list Keyframe.t) : list Q := map Keyframe.time keyframes.

(** The keyframes of every track are in non-decreasing order of time and
    none is later than [bound]. *)
Definition ordered (s : State) (bound : Q) : Prop :=
  forall j,
    nondecreasing (times (keyframes s j)) = true
    /\ (forall y, lastOf (keyframes s j) = Some y -> Keyframe.time y <= bound).

(** A ['tempo'] line. *)
Definition isTempoChange (line : option Event.t) : bool :=
  match line with
  | Some (Event.make _ (Event.TempoChange _)) => true
  | _ => false
  end.

(** A ['channel_volume'] line. *)
Definition control (time : Q) (trackIndex : Z) (value : Q) : option Event.t :=
  Some (Event.make time (Event.ControlChange trackIndex value)).

End Resolver.

(** ** The arithmetic of the sample numbers in IEEE doubles

    The two expressions on which the numeric examples of the specification
    rest, over binary64 floats, to check that rounding leaves the examples
    as the exact arithmetic has them. *)

Module Double.

Import PrimFloat.
#[local] Set Warnings "-inexact-float".

(** [before.value + (range * pos)] of [getVolume]. *)
Definition interpolation (beforeTime beforeValue afterTime afterValue time : PrimFloat.float)
    : PrimFloat.float :=
  let range := PrimFloat.sub afterValue beforeValue in
  let pos := PrimFloat.div (PrimFloat.sub time beforeTime)
                           (PrimFloat.sub afterTime beforeTime) in
  PrimFloat.add beforeValue (PrimFloat.mul range pos).

(** [time - lastEvent.time > 0.1] and [time - 0.05] of the resolver. *)
Definition apart (time lastTime : PrimFloat.float) : bool :=
  PrimFloat.ltb 0.1%float (PrimFloat.sub time lastTime).

Definition holdTime (time : PrimFloat.float) : PrimFloat.float :=
  PrimFloat.sub time 0.05%float.

(** [var recordingTimeMultiplier] and [var tempoMultiplier] of the first
    variant of [index.js]. *)
Definition recordingTimeMultiplier : PrimFloat.float := 0.9999541021%float.
Definition tempoMultiplier : PrimFloat.float :=
  PrimFloat.div 1%float recordingTimeMultiplier.

End Double.

(** ** The two scripts over IEEE doubles

    Where rounding can change a discrete result (whether the hold keyframe
    is inserted, which bytes are stored for a sample) the code is embedded
    a second time with every JavaScript number a binary64 float and every
    operation the IEEE one, NaN and the infinities included.  The lines
    embedded are the same as above; only the numbers differ. *)

Module Binary64.

Import PrimFloat.
#[local] Set Warnings "-inexact-float".

(** An integer as a JavaScript number, exact for [|z| <= 2^53] (byte
    counts, offsets, samples and the fields of a WAVE header are). *)
Definition ofZ (z : Z) : float :=
  if z <? 0 then opp (of_uint63 (Uint63.of_Z (- z))) else of_uint63 (Uint63.of_Z z).

(** The number that [JSON.parse] reads from a decimal literal whose value
    is [n / d], for [n] and [d] that are doubles themselves: the quotient
    rounded once, to the nearest double. *)
Definition decimal (n d : Z) : float := (ofZ n / ofZ d)%float.

(** A number as an integer, the way the typed-array store and [>>>]
    convert it: NaN and the infinities give 0, the fractional part is
    dropped (towards zero). *)
Definition truncate (value : float) : Z :=
  match FloatOps.Prim2SF value with
  | SpecFloat.S754_finite s m e =>
      let n := if 0 <=? e then Z.pos m * 2 ^ e else Z.shiftr (Z.pos m) (- e) in
      if s then - n else n
  | _ => 0
  end.

(** One entry of the [.levels] file: [{time, beat, value}]. *)
Module Keyframe.
Record t : Set := make { time : float; beat : float; value : float }.
End Keyframe.

(** *** apply-audio-levels.js *)

(** The [binary-search] package on a comparator that returns a double:
    the loop of [BinarySearch.bs_loop], with [cmp < 0] and [cmp > 0]
    the comparisons of doubles (both fail on NaN, which then counts as a
    match). *)
Fixpoint bs_loop {A : Type} (fuel : nat) (haystack : list A) (needle : float)
    (comparator : A -> float -> float) (low high : Z) : outcome Z :=
  if low <=? high then
    match fuel with
    | O => Throw Diverges
    | S fuel' =>
        let mid := low + ushr1 (high - low) in
        match index haystack mid with
        | None => Throw TypeError
        | Some probe =>
            let cmp := comparator probe needle in
            if (cmp <? 0)%float then bs_loop fuel' haystack needle comparator (mid + 1) high
            else if (0 <? cmp)%float then bs_loop fuel' haystack needle comparator low (mid - 1)
            else Ok mid
        end
    end
  else Ok (bitnot low).

Definition bs {A : Type} (haystack : list A) (needle : float)
    (comparator : A -> float -> float) : outcome Z :=
  bs_loop (List.length haystack) haystack needle comparator 0 (JS.length haystack - 1).

(** [function getVolume (time, events)] *)
Definition getVolume (time : float) (events : list Keyframe.t) : outcome float :=
  index <- bs events time (fun a b => Keyframe.time a - b)%float ;;
  if 0 <=? index then
    match JS.index events index with
    | Some e => Ok (Keyframe.value e)
    | None => Throw TypeError
    end
  else
    let before := JS.index events ((index * -1) - 2) in
    let after := JS.index events ((index * -1) - 1) in
    match before, after with
    | Some before, Some after =>
        let range := (Keyframe.value after - Keyframe.value before)%float in
        let pos := ((time - Keyframe.time before)
                    / (Keyframe.time after - Keyframe.time before))%float in
        Ok (Keyframe.value before + (range * pos))%float
    | Some before, None => Ok (Keyframe.value before)
    | None, Some after => Ok (Keyframe.value after)
    | None, None => Ok 1%float
    end.

(** [function clip (value, min, max)] *)
Definition clip (value min max : float) : float :=
  if (max <? value)%float then max
  else if (value <? min)%float then min
  else value.

(** Node's [buf.writeInt16LE(value, offset)]: a [RangeError] when
    [value > 0x7fff || value < -0x8000] (NaN passes) or the two bytes do
    not fit; otherwise [buf[offset] = value; buf[offset + 1] = value >>> 8]. *)
Definition writeInt16LE (buf : Buffer) (value : float) (offset : Z) : outcome Buffer :=
  if (32767 <? value)%float || (value <? -32768)%float then Throw RangeError
  else if (offset <? 0) || (JS.length buf <? offset + 2) then Throw RangeError
  else
    let n := truncate value in
    let buf1 := store buf (Z.to_nat offset) (toByte n) in
    Ok (store buf1 (Z.to_nat (offset + 1)) (toByte (Z.shiftr n 8))).

(** [function writeFormat (buf, value, offset, format)] *)
Definition writeFormat (buf : Buffer) (value : float) (offset : Z) (format : Format)
    : outcome Buffer :=
  if supported format then writeInt16LE buf (clip value (-32768) 32767) offset
  else Throw UnsupportedFormat.

(** The 16-bit sample that [writeFormat] leaves in the buffer for
    [value]: the two stored bytes read back. *)
Definition stored (value : float) : Z :=
  let n := truncate (clip value (-32768) 32767) in
  int16 (toByte n) (toByte (Z.shiftr n 8)).

Section Transform.

Variable format : Format.
Variable levels : list Keyframe.t.

(** [var time = (processed + i) / format.byteRate] *)
Definition frameTime (processed i : Z) : float :=
  (ofZ (processed + i) / ofZ (byteRate format))%float.

(** The body of the inner loop, for frame offset [i] and one channel. *)
Definition sample (processed i channel : Z) (chunk : Buffer) : outcome Buffer :=
  let time := frameTime processed i in
  let chanOffset := channelBytes format * channel in
  value <- readFormat chunk (i + chanOffset) format ;;
  volume <- getVolume time levels ;;
  writeFormat chunk (ofZ value * volume)%float (i + chanOffset) format.

(** [for (var channel = 0; channel < format.channels; channel += 1)] *)
Fixpoint channelLoop (fuel : nat) (processed i channel : Z) (chunk : Buffer)
    : outcome Buffer :=
  if channel <? channels format then
    match fuel with
    | O => Throw Diverges
    | S fuel' =>
        chunk' <- sample processed i channel chunk ;;
        channelLoop fuel' processed i (channel + 1) chunk'
    end
  else Ok chunk.

(** [for (var i = 0; i < chunk.length; i += format.blockAlign)] *)
Fixpoint frameLoop (fuel : nat) (processed i : Z) (chunk : Buffer) : outcome Buffer :=
  if i <? JS.length chunk then
    match fuel with
    | O => Throw Diverges
    | S fuel' =>
        chunk' <- channelLoop (Z.to_nat (channels format)) processed i 0 chunk ;;
        frameLoop fuel' processed (i + blockAlign format) chunk'
    end
  else Ok chunk.

(** [transform (chunk, encoding, cb)]: the chunk that is pushed on. *)
Definition transform (processed : Z) (chunk : Buffer) : outcome Buffer :=
  frameLoop (List.length chunk) processed 0 chunk.

End Transform.

(** *** index.js *)

Module Event.
(** A parsed log line, as [Event.t] above, its numbers doubles. *)
Inductive Payload : Set :=
| Tick
| ControlChange (trackIndex : Z) (value : float)
| TempoChange (bpm : float)
| Unknown.

Record t : Set := make { time : float; payload : Payload }.
End Event.

Module TempoEvent.
Record t : Set := make { time : float; beat : float; tempo : float }.
End TempoEvent.

(** The id, the tempo-master mark, the name and the channels of the
    tracks of a variant. *)
Definition headings (v : Resolver.Variant) : list (Z * bool * String.string * list Z) :=
  map (fun t => (Track.id t, Track.isTempoMaster t, Track.name t, Track.channels t))
      (Resolver.initialTracks v).

Module Track.
Record t : Set := make {
  id : Z;
  isTempoMaster : bool;
  name : String.string;
  channels : list Z;
  volumeEvents : list Keyframe.t
}.

Definition pushVolumeEvent (track : t) (e : Keyframe.t) : t :=
  make (id track) (isTempoMaster track) (name track) (channels track)
       (volumeEvents track ++ [e]).
End Track.

(** [var tracks = [...]]: the tracks of the variant, each with
    [volumeEvents: []]. *)
Definition initialTracks (v : Resolver.Variant) : list Track.t :=
  map (fun h => let '(id, master, name, channels) := h in
                Track.make id master name channels [])
      (headings v).

(** [var time = event[0] * recordingTimeMultiplier], resp. [= event[0]] *)
Definition eventTime (v : Resolver.Variant) (event0 : float) : float :=
  match v with
  | Resolver.Synced => (event0 * Double.recordingTimeMultiplier)%float
  | Resolver.Plain => event0
  end.

(** [var tempoMultiplier = 1 / recordingTimeMultiplier], resp. [= 1] *)
Definition tempoMultiplier (v : Resolver.Variant) : float :=
  match v with
  | Resolver.Synced => Double.tempoMultiplier
  | Resolver.Plain => 1%float
  end.

(** The variables that the parsing loop updates. *)
Record State : Set := {
  tempo : option float;
  ticks : list float;
  duration : float;
  length : float;
  tracks : list Track.t;
  tempoEvents : list TempoEvent.t;
  timeAtLastTempoChange : float;
  beatAtLastTempoChange : float;
  tickDurations : list float
}.

Definition initial (v : Resolver.Variant) : State :=
  {| tempo := None; ticks := []; duration := 0%float; length := 0%float;
     tracks := initialTracks v; tempoEvents := [];
     timeAtLastTempoChange := 0%float; beatAtLastTempoChange := 0%float;
     tickDurations := [] |}.

(** [!tempo]: [null], [0], [-0] and NaN are falsy. *)
Definition falsy (x : option float) : bool :=
  match x with
  | Some f => is_zero f || is_nan f
  | None => true
  end.

(** [tracks[i] = track'] after the in-place [push] on [tracks[i]]. *)
Fixpoint replace (tracks : list Track.t) (i : nat) (track' : Track.t) : list Track.t :=
  match tracks, i with
  | [], _ => []
  | _ :: rest, O => track' :: rest
  | a :: rest, S j => a :: replace rest j track'
  end.

Section Loop.

Variable v : Resolver.Variant.

(** [var beatDuration = 60 / lastTempo] *)
Definition beatDuration (s : State) : float :=
  let lastTempoEvent := lastOf (tempoEvents s) in
  let lastTempo :=
    match lastTempoEvent with
    | Some e => TempoEvent.tempo e
    | None => 120%float
    end in
  (60 / lastTempo)%float.

(** [var beat = beatAtLastTempoChange + (timeSinceTempoChange / beatDuration)] *)
Definition beat (s : State) (time : float) : float :=
  let timeSinceTempoChange := (time - timeAtLastTempoChange s)%float in
  (beatAtLastTempoChange s + (timeSinceTempoChange / beatDuration s))%float.

(** The ['channel_volume'] branch on a known track. *)
Definition pushControl (s : State) (time value3 : float) (track : Track.t) : Track.t :=
  let value := (value3 / 127)%float in
  let lastEvent := lastOf (Track.volumeEvents track) in
  let track1 :=
    match lastEvent with
    | Some lastEvent =>
        if Double.apart time (Keyframe.time lastEvent) then
          Track.pushVolumeEvent track
            (Keyframe.make (Double.holdTime time)
                           (beat s time - (0.05 / beatDuration s))%float
                           (Keyframe.value lastEvent))
        else track
    | None => track
    end in
  Track.pushVolumeEvent track1
    (Keyframe.make time (beat s time) (value * value * 1.618)%float).

(** The body of [forEach(line => ...)]; [None] is a line that
    [tryParse] gives up on. *)
Definition step (s : State) (line : option Event.t) : State :=
  match line with
  | None => s
  | Some event =>
      let time := eventTime v (Event.time event) in
      match Event.payload event with
      | Event.Tick =>
          {| tempo := tempo s;
             ticks := ticks s ++ [time];
             duration := time;
             length := beat s time;
             tracks := tracks s;
             tempoEvents := tempoEvents s;
             timeAtLastTempoChange := timeAtLastTempoChange s;
             beatAtLastTempoChange := beatAtLastTempoChange s;
             tickDurations :=
               match lastOf (ticks s) with
               | Some lastTick => tickDurations s ++ [(time - lastTick)%float]
               | None => tickDurations s
               end |}
      | Event.ControlChange trackIndex value3 =>
          match index (tracks s) trackIndex with
          | Some track =>
              {| tempo := tempo s;
                 ticks := ticks s;
                 duration := duration s;
                 length := length s;
                 tracks := replace (tracks s) (Z.to_nat trackIndex)
                                   (pushControl s time value3 track);
                 tempoEvents := tempoEvents s;
                 timeAtLastTempoChange := timeAtLastTempoChange s;
                 beatAtLastTempoChange := beatAtLastTempoChange s;
                 tickDurations := tickDurations s |}
          | None => s
          end
      | Event.TempoChange bpm =>
          {| tempo := if falsy (tempo s) then Some bpm else tempo s;
             ticks := ticks s;
             duration := duration s;
             length := length s;
             tracks := tracks s;
             tempoEvents :=
               tempoEvents s
               ++ [TempoEvent.make time (beat s time) (bpm * tempoMultiplier v)%float];
             timeAtLastTempoChange := time;
             beatAtLastTempoChange := beat s time;
             tickDurations := tickDurations s |}
      | Event.Unknown => s
      end
  end.

(** The parsing loop over the lines of the log. *)
Definition parse (log : list (option Event.t)) : State :=
  fold_left step log (initial v).

(** The keyframes of track [i] in a state. *)
Definition keyframes (s : State) (i : Z) : list Keyframe.t :=
  match index (tracks s) i with
  | Some track => Track.volumeEvents track
  | None => []
  end.

End Loop.

(** A ['channel_volume'] line. *)
Definition control (time : float) (trackIndex : Z) (value : float) : option Event.t :=
  Some (Event.make time (Event.ControlChange trackIndex value)).

End Binary64.

(** ** Vocabulary for the further properties *)

Module Levels.

(** Keyframes in non-decreasing order of time, equal times allowed: the
    order in which the resolver leaves them. *)
Definition nondescending (events : list Keyframe.t) : bool :=
  Resolver.nondecreasing (Resolver.times events).

(** [before.value + (range * pos)] of [getVolume] at [time]. *)
Definition interpolated (before after : Keyframe.t) (time : Q) : Q :=
  (Keyframe.value before
   + (Keyframe.value after - Keyframe.value before)
     * ((time - Keyframe.time before) / (Keyframe.time after - Keyframe.time before)))%Q.

End Levels.

(** What the lines of a log say, for the properties of the resolver. *)

Module Log.

(** A line for which the loop body does nothing: one that does not parse,
    one of a type without a branch, a ['channel_volume'] for an index
    outside the tracks of the variant. *)
Definition ignored (v : Resolver.Variant) (line : option Event.t) : bool :=
  match line with
  | None => true
  | Some (Event.make _ Event.Unknown) => true
  | Some (Event.make _ (Event.ControlChange i _)) =>
      match index (Resolver.initialTracks v) i with
      | Some _ => false
      | None => true
      end
  | Some _ => false
  end.

(** A ['tempo'] line, or a ['channel_volume'] line for track [j]. *)
Definition concerns (j : Z) (line : option Event.t) : bool :=
  match line with
  | Some (Event.make _ (Event.TempoChange _)) => true
  | Some (Event.make _ (Event.ControlChange i _)) => i =? j
  | _ => false
  end.

(** The ['tempo'] lines, as [(time, bpm)], and the times of the ['tick']
    lines, in log order. *)
Fixpoint tempoLines (log : list (option Event.t)) : list (Q * Q) :=
  match log with
  | [] => []
  | Some (Event.make t (Event.TempoChange bpm)) :: rest => (t, bpm) :: tempoLines rest
  | _ :: rest => tempoLines rest
  end.

Fixpoint tickTimes (log : list (option Event.t)) : list Q :=
  match log with
  | [] => []
  | Some (Event.make t Event.Tick) :: rest => t :: tickTimes rest
  | _ :: rest => tickTimes rest
  end.

(** The differences of consecutive numbers. *)
Fixpoint differences (l : list Q) : list Q :=
  match l with
  | [] => []
  | a :: rest =>
      match rest with
      | [] => []
      | b :: _ => (b - a)%Q :: differences rest
      end
  end.

(** The first bpm that is not 0; without one, the last bpm. *)
Definition nominal (bpms : list Q) : option Q :=
  match find (fun bpm => negb (Qeq_bool bpm 0)) bpms with
  | Some bpm => Some bpm
  | None => List.last (map Some bpms) None
  end.

(** No ['tempo'] line with a negative bpm. *)
Definition forwards (log : list (option Event.t)) : bool :=
  forallb (fun line => Qle_bool 0 (snd line)) (tempoLines log).

(** Every ['channel_volume'] value lies in 0 .. 127. *)
Definition midi (log : list (option Event.t)) : bool :=
  forallb (fun line =>
             match line with
             | Some (Event.make _ (Event.ControlChange _ value)) =>
                 Qle_bool 0 value && Qle_bool value 127
             | _ => true
             end) log.

(** Two states that agree on the tempo map, on its anchor and on the
    keyframes of track [j]. *)
Definition alike (j : Z) (s s' : Resolver.State) : Prop :=
  Resolver.tempoEvents s = Resolver.tempoEvents s'
  /\ Resolver.timeAtLastTempoChange s = Resolver.timeAtLastTempoChange s'
  /\ Resolver.beatAtLastTempoChange s = Resolver.beatAtLastTempoChange s'
  /\ Resolver.keyframes s j = Resolver.keyframes s' j
  /\ (index (Resolver.tracks s) j = None <-> index (Resolver.tracks s') j = None).

(** What of a track the loop leaves alone. *)
Definition heading (track : Track.t) : Z * bool * String.string * list Z :=
  (Track.id track, Track.isTempoMaster track, Track.name track, Track.channels track).

End Log.

(** * Properties *)

(** ** Numbers, arrays *)

Lemma ltb_lt (x y : Q) : ltb x y = true <-> (x < y)%Q.
Proof. unfold ltb, Qlt. apply Z.ltb_lt. Qed.

Lemma ltb_ge (x y : Q) : ltb x y = false <-> (y <= x)%Q.
Proof. unfold ltb, Qle. apply Z.ltb_ge. Qed.

Lemma gtb_gt (x y : Q) : gtb x y = true <-> (y < x)%Q.
Proof. unfold gtb. apply ltb_lt. Qed.

Lemma gtb_le (x y : Q) : gtb x y = false <-> (x <= y)%Q.
Proof. unfold gtb. apply ltb_ge. Qed.

Lemma index_nat {A : Type} (arr : list A) (n : nat) :
  index arr (Z.of_nat n) = nth_error arr n.
Proof.
  unfold index. destruct (Z.ltb_spec (Z.of_nat n) 0); [lia|].
  now rewrite Nat2Z.id.
Qed.

Lemma index_Some {A : Type} (arr : list A) (i : Z) (x : A) :
  index arr i = Some x -> 0 <= i < length arr.
Proof.
  unfold index, length. destruct (Z.ltb_spec i 0); [discriminate|].
  intros E. assert (nth_error arr (Z.to_nat i) <> None) as N by congruence.
  apply nth_error_Some in N. lia.
Qed.

Lemma index_inside {A : Type} (arr : list A) (i : Z) :
  0 <= i < length arr -> exists x, index arr i = Some x.
Proof.
  unfold index, length. intros [L U]. destruct (Z.ltb_spec i 0); [lia|].
  destruct (nth_error arr (Z.to_nat i)) eqn:E; [eauto|].
  apply nth_error_None in E. lia.
Qed.

Lemma index_outside {A : Type} (arr : list A) (i : Z) :
  i < 0 \/ length arr <= i -> index arr i = None.
Proof.
  unfold index, length. intros O. destruct (Z.ltb_spec i 0); [reflexivity|].
  apply nth_error_None. lia.
Qed.

Lemma ushr1_bounds (n : Z) : 0 <= n -> 0 <= ushr1 n <= n.
Proof.
  intros P. unfold ushr1. rewrite Z.shiftr_div_pow2 by lia.
  change (2 ^ 1) with 2. split.
  - apply Z.div_pos; lia.
  - apply Z.div_le_upper_bound; lia.
Qed.

(** ** Strictly ascending keyframes *)

Lemma ascending_cons (a : Keyframe.t) (rest : list Keyframe.t) :
  ascending (a :: rest) = true ->
  Forall (fun b => (Keyframe.time a < Keyframe.time b)%Q) rest /\ ascending rest = true.
Proof.
  revert a. induction rest as [|b rest IH]; intros a H.
  - split; [constructor | reflexivity].
  - change (ltb (Keyframe.time a) (Keyframe.time b) && ascending (b :: rest) = true) in H.
    apply andb_true_iff in H as [Hab Hr]. apply ltb_lt in Hab.
    split; [|exact Hr].
    constructor; [exact Hab|].
    destruct (IH b Hr) as [Hall _].
    eapply Forall_impl; [|exact Hall]. cbn. intros c Hc. lra.
Qed.

Lemma ascending_nth (events : list Keyframe.t) :
  ascending events = true ->
  forall (i j : nat) (a b : Keyframe.t),
    nth_error events i = Some a -> nth_error events j = Some b -> (i < j)%nat ->
    (Keyframe.time a < Keyframe.time b)%Q.
Proof.
  induction events as [|e rest IH]; intros H i j a b Hi Hj Hij.
  - destruct i; discriminate.
  - apply ascending_cons in H as [Hall Hr].
    destruct j as [|j]; [lia|]. cbn in Hj.
    destruct i as [|i]; cbn in Hi.
    + injection Hi as <-. rewrite Forall_forall in Hall.
      apply Hall. eapply nth_error_In; eassumption.
    + eapply IH; eauto. lia.
Qed.

Lemma ascending_index (events : list Keyframe.t) :
  ascending events = true ->
  forall (i j : Z) (a b : Keyframe.t),
    index events i = Some a -> index events j = Some b -> i < j ->
    (Keyframe.time a < Keyframe.time b)%Q.
Proof.
  intros H i j a b Hi Hj Hij.
  pose proof (index_Some _ _ _ Hi). pose proof (index_Some _ _ _ Hj).
  rewrite <- (Z2Nat.id i) in Hi by lia. rewrite <- (Z2Nat.id j) in Hj by lia.
  rewrite index_nat in Hi, Hj.
  eapply ascending_nth; eauto. lia.
Qed.

Lemma ascending_index_le (events : list Keyframe.t) :
  ascending events = true ->
  forall (i j : Z) (a b : Keyframe.t),
    index events i = Some a -> index events j = Some b -> i <= j ->
    (Keyframe.time a <= Keyframe.time b)%Q.
Proof.
  intros H i j a b Hi Hj Hij.
  destruct (Z.eq_dec i j) as [->|N].
  - assert (a = b) as -> by congruence. lra.
  - apply Qlt_le_weak. eapply ascending_index; eauto. lia.
Qed.

(** ** The binary search on ascending keyframes *)

Section Search.

Variable events : list Keyframe.t.
Variable t : Q.
Hypothesis sorted : ascending events = true.

Let cmp := fun (a : Keyframe.t) (b : Q) => (Keyframe.time a - b)%Q.

Lemma bs_loop_spec (fuel : nat) :
  forall low high : Z,
    0 <= low -> high < length events -> low <= high + 1 ->
    high - low + 1 <= Z.of_nat fuel ->
    (forall i a, index events i = Some a -> i < low -> (Keyframe.time a < t)%Q) ->
    (forall i a, index events i = Some a -> high < i -> (t < Keyframe.time a)%Q) ->
    exists r, bs_loop fuel events t cmp low high = Ok r
              /\ (found events t r \/ insertion events t r).
Proof.
  induction fuel as [|fuel IH]; intros low high Hlow Hhigh Hle Hfuel Hbelow Habove.
  - cbn [bs_loop]. destruct (Z.leb_spec low high); [lia|].
    exists (bitnot low). split; [reflexivity|]. right.
    unfold insertion, bitnot. unfold Z.lnot.
    replace (- Z.pred (- low) - 1) with low by lia.
    repeat split; try lia; intros i a Hi Hc; [apply (Hbelow i a Hi) | apply (Habove i a Hi)]; lia.
  - cbn [bs_loop]. destruct (Z.leb_spec low high) as [Hlh|Hlh].
    + pose proof (ushr1_bounds (high - low) ltac:(lia)) as Hmid.
      set (mid := low + ushr1 (high - low)) in *.
      destruct (index_inside events mid ltac:(lia)) as [probe Hprobe].
      rewrite Hprobe.
      destruct (ltb (cmp probe t) 0) eqn:Elt.
      * apply ltb_lt in Elt. unfold cmp in Elt.
        apply IH; try lia; [|exact Habove].
        intros i a Hi Hc.
        pose proof (ascending_index_le events sorted i mid a probe Hi Hprobe ltac:(lia)).
        lra.
      * apply ltb_ge in Elt. unfold cmp in Elt.
        destruct (gtb (cmp probe t) 0) eqn:Egt.
        -- apply gtb_gt in Egt. unfold cmp in Egt.
           apply IH; try lia; [exact Hbelow|].
           intros i a Hi Hc.
           pose proof (ascending_index_le events sorted mid i probe a Hprobe Hi ltac:(lia)).
           lra.
        -- apply gtb_le in Egt. unfold cmp in Egt.
           exists mid. split; [reflexivity|]. left.
           split; [lia|]. exists probe. split; [exact Hprobe|]. lra.
    + exists (bitnot low). split; [reflexivity|]. right.
      unfold insertion, bitnot. unfold Z.lnot.
      replace (- Z.pred (- low) - 1) with low by lia.
      repeat split; try lia; intros i a Hi Hc; [apply (Hbelow i a Hi) | apply (Habove i a Hi)]; lia.
Qed.

Lemma bs_spec :
  exists r, bs events t cmp = Ok r /\ (found events t r \/ insertion events t r).
Proof.
  unfold bs. apply bs_loop_spec; unfold length; try lia.
  - intros i a Hi Hc. apply index_Some in Hi. lia.
  - intros i a Hi Hc. apply index_Some in Hi. unfold length in Hi. lia.
Qed.

End Search.

(** ** The gain lookup *)

(** What [getVolume] returns once the search result is known. *)
Lemma getVolume_found (events : list Keyframe.t) (t : Q) (r : Z) (a : Keyframe.t) :
  bs events t (fun a b => Keyframe.time a - b)%Q = Ok r ->
  0 <= r -> index events r = Some a ->
  getVolume t events = Ok (Keyframe.value a).
Proof.
  intros Hbs Hr Ha. unfold getVolume. rewrite Hbs. cbn [bind].
  destruct (Z.leb_spec 0 r); [|lia]. now rewrite Ha.
Qed.

Lemma getVolume_insertion (events : list Keyframe.t) (t : Q) (r : Z) :
  bs events t (fun a b => Keyframe.time a - b)%Q = Ok r ->
  r < 0 ->
  getVolume t events =
    match index events (- r - 2), index events (- r - 1) with
    | Some before, Some after =>
        Ok (Keyframe.value before
            + (Keyframe.value after - Keyframe.value before)
              * ((t - Keyframe.time before) / (Keyframe.time after - Keyframe.time before)))%Q
    | Some before, None => Ok (Keyframe.value before)
    | None, Some after => Ok (Keyframe.value after)
    | None, None => Ok 1%Q
    end.
Proof.
  intros Hbs Hr. unfold getVolume. rewrite Hbs. cbn [bind].
  destruct (Z.leb_spec 0 r); [lia|].
  replace (r * -1 - 2) with (- r - 2) by lia.
  replace (r * -1 - 1) with (- r - 1) by lia.
  reflexivity.
Qed.

(** On ascending keyframes a time is either hit, and then at one index
    only, or it has an insertion point. *)
Lemma found_unique (events : list Keyframe.t) (t : Q) (r i : Z) (e : Keyframe.t) :
  ascending events = true ->
  found events t r -> index events i = Some e -> (Keyframe.time e == t)%Q -> i = r.
Proof.
  intros S [_ [a [Ha Hat]]] Hi Het.
  destruct (Z.lt_trichotomy i r) as [L|[E|G]]; [|exact E|].
  - pose proof (ascending_index events S i r e a Hi Ha L). lra.
  - pose proof (ascending_index events S r i a e Ha Hi G). lra.
Qed.

Lemma insertion_no_hit (events : list Keyframe.t) (t : Q) (r i : Z) (e : Keyframe.t) :
  insertion events t r -> index events i = Some e -> ~ (Keyframe.time e == t)%Q.
Proof.
  intros (_ & _ & Hb & Ha) Hi Het.
  destruct (Z.lt_ge_cases i (- r - 1)) as [L|G].
  - pose proof (Hb i e Hi L). lra.
  - pose proof (Ha i e Hi G). lra.
Qed.

Lemma insertion_between (events : list Keyframe.t) (t : Q) (r i : Z) (e : Keyframe.t) :
  insertion events t r -> index events i = Some e ->
  ((Keyframe.time e < t)%Q -> i < - r - 1) /\ ((t < Keyframe.time e)%Q -> - r - 1 <= i).
Proof.
  intros (_ & _ & Hb & Ha) Hi. split; intros Hc.
  - destruct (Z.lt_ge_cases i (- r - 1)) as [L|G]; [exact L|].
    pose proof (Ha i e Hi G). lra.
  - destruct (Z.lt_ge_cases i (- r - 1)) as [L|G]; [|exact G].
    pose proof (Hb i e Hi L). lra.
Qed.

Lemma found_not_strict (events : list Keyframe.t) (t : Q) (r i : Z) (e : Keyframe.t) :
  ascending events = true ->
  found events t r -> index events i = Some e ->
  ((Keyframe.time e < t)%Q -> i < r) /\ ((t < Keyframe.time e)%Q -> r < i).
Proof.
  intros S [_ [a [Ha Hat]]] Hi. split; intros Hc.
  - destruct (Z.lt_ge_cases i r) as [L|G]; [exact L|].
    pose proof (ascending_index_le events S r i a e Ha Hi G). lra.
  - destruct (Z.lt_ge_cases r i) as [L|G]; [exact L|].
    pose proof (ascending_index_le events S i r e a Hi Ha G). lra.
Qed.

(** C1.  On keyframes sorted strictly ascending by time, [getVolume]
    returns: the gain of the keyframe whose time equals the query; between
    two consecutive keyframes the linear interpolation
    [before.gain + (after.gain - before.gain) * (t - before.time) / (after.time - before.time)];
    the last keyframe's gain after the last keyframe; the first keyframe's
    gain before the first one; and 1 on the empty sequence.  For the
    keyframes [(0, 0.2), (1, 0.8)] the times 0.5, -1 and 2 give 0.5, 0.2
    and 0.8. *)
Theorem getVolume_spec (events : list Keyframe.t) (t : Q)
    (sorted : ascending events = true) :
  (forall i e, index events i = Some e -> (Keyframe.time e == t)%Q ->
     getVolume t events = Ok (Keyframe.value e))
  /\ (forall i before after,
        index events i = Some before -> index events (i + 1) = Some after ->
        (Keyframe.time before < t)%Q -> (t < Keyframe.time after)%Q ->
        yields (getVolume t events)
          (Keyframe.value before
           + (Keyframe.value after - Keyframe.value before) * (t - Keyframe.time before)
             / (Keyframe.time after - Keyframe.time before))%Q)
  /\ (forall last, lastOf events = Some last -> (Keyframe.time last < t)%Q ->
        getVolume t events = Ok (Keyframe.value last))
  /\ (forall first, index events 0 = Some first -> (t < Keyframe.time first)%Q ->
        getVolume t events = Ok (Keyframe.value first))
  /\ (events = [] -> getVolume t events = Ok 1%Q)
  /\ (forall b0 b1,
        let line := [Keyframe.make 0 b0 0.2; Keyframe.make 1 b1 0.8] in
        yields (getVolume 0.5 line) 0.5
        /\ yields (getVolume (-1) line) 0.2
        /\ yields (getVolume 2 line) 0.8).
Proof.
  destruct (bs_spec events t sorted) as [r [Hbs Hr]].
  repeat apply conj.
  - (* exact match *)
    intros i e Hi Het. destruct Hr as [F|I].
    + pose proof (found_unique events t r i e sorted F Hi Het) as ->.
      destruct F as [Hr0 _]. eapply getVolume_found; eauto.
    + exfalso. eapply insertion_no_hit; eauto.
  - (* strictly between two consecutive keyframes *)
    intros i before after Hb Ha Hbt Hta. destruct Hr as [F|I].
    + destruct (found_not_strict events t r i before sorted F Hb) as [L _].
      destruct (found_not_strict events t r (i + 1) after sorted F Ha) as [_ G].
      specialize (L Hbt). specialize (G Hta). lia.
    + destruct (insertion_between events t r i before I Hb) as [L _].
      destruct (insertion_between events t r (i + 1) after I Ha) as [_ G].
      specialize (L Hbt). specialize (G Hta).
      assert (- r - 1 = i + 1) as E by lia.
      rewrite (getVolume_insertion events t r Hbs) by (destruct I; lia).
      replace (- r - 2) with i by lia. rewrite E, Hb, Ha.
      eexists. split; [reflexivity|].
      pose proof (ascending_index events sorted i (i + 1) before after Hb Ha ltac:(lia)).
      field. lra.
  - (* after the last keyframe *)
    intros last Hl Hlt. unfold lastOf in Hl. destruct Hr as [F|I].
    + assert (Hf := F). destruct Hf as [_ [a [Ha _]]].
      destruct (found_not_strict events t r _ last sorted F Hl) as [L _].
      specialize (L Hlt). apply index_Some in Ha. lia.
    + destruct (insertion_between events t r _ last I Hl) as [L _].
      specialize (L Hlt). destruct I as (Hr0 & Hp & _).
      rewrite (getVolume_insertion events t r Hbs Hr0).
      replace (- r - 2) with (length events - 1) by lia. rewrite Hl.
      rewrite (index_outside events (- r - 1)) by lia. reflexivity.
  - (* before the first keyframe *)
    intros first Hf Hft. destruct Hr as [F|I].
    + assert (Hc := F). destruct Hc as [Hr0 _].
      destruct (found_not_strict events t r 0 first sorted F Hf) as [_ G].
      specialize (G Hft). lia.
    + destruct (insertion_between events t r 0 first I Hf) as [_ G].
      specialize (G Hft). destruct I as (Hr0 & Hp & _).
      rewrite (getVolume_insertion events t r Hbs Hr0).
      rewrite (index_outside events (- r - 2)) by lia.
      replace (- r - 1) with 0 by lia. rewrite Hf. reflexivity.
  - (* no keyframe *)
    intros ->. reflexivity.
  - (* the three sample queries *)
    intros b0 b1 line. subst line.
    repeat split; (eexists; split; [reflexivity | reflexivity]).
Qed.

Lemma getVolume_spec_witness :
  yields (getVolume 0.5 [Keyframe.make 0 0 0.2; Keyframe.make 1 2 0.8])
         (0.2 + (0.8 - 0.2) * (0.5 - 0) / (1 - 0))%Q.
Proof.
  exact (proj1 (proj2 (getVolume_spec
                         [Keyframe.make 0 0 0.2; Keyframe.make 1 2 0.8] 0.5 eq_refl))
           0 (Keyframe.make 0 0 0.2) (Keyframe.make 1 2 0.8)
           eq_refl eq_refl eq_refl eq_refl).
Defined.

(** C10.  On keyframes strictly increasing in time the lookup always
    returns a number: the search ends with some [index]; a non-negative
    [index] is inside the array; for a negative one the derived positions
    [(index * -1) - 2] and [(index * -1) - 1] stay within [-1 .. length],
    the array reads there being guarded by the [before]/[after] existence
    tests; and whenever both exist the divisor [after.time - before.time]
    of the interpolation is strictly positive. *)
Theorem getVolume_safe (events : list Keyframe.t) (t : Q)
    (sorted : ascending events = true) :
  exists r,
    bs events t (fun a b => Keyframe.time a - b)%Q = Ok r
    /\ (0 <= r -> exists e, index events r = Some e)
    /\ (r < 0 -> -1 <= (r * -1) - 2 < length events
                 /\ 0 <= (r * -1) - 1 <= length events)
    /\ (r < 0 -> forall before after,
          index events ((r * -1) - 2) = Some before ->
          index events ((r * -1) - 1) = Some after ->
          (0 < Keyframe.time after - Keyframe.time before)%Q)
    /\ exists g, getVolume t events = Ok g.
Proof.
  destruct (bs_spec events t sorted) as [r [Hbs Hr]].
  exists r. split; [exact Hbs|].
  destruct Hr as [[Hr0 [a [Ha Hat]]]|(Hr0 & Hp & Hb & Ha)].
  - split; [eauto|]. split; [lia|]. split; [lia|].
    exists (Keyframe.value a). eapply getVolume_found; eauto.
  - split; [lia|]. split; [lia|]. split.
    + intros _ before after Hbe Haf.
      pose proof (ascending_index events sorted _ _ before after Hbe Haf ltac:(lia)).
      lra.
    + rewrite (getVolume_insertion events t r Hbs Hr0).
      destruct (index events (- r - 2)), (index events (- r - 1)); eauto.
Qed.

Lemma getVolume_safe_witness :
  exists g, getVolume 0.5 [Keyframe.make 0 0 0.2; Keyframe.make 1 2 0.8] = Ok g.
Proof.
  destruct (getVolume_safe [Keyframe.make 0 0 0.2; Keyframe.make 1 2 0.8] 0.5 eq_refl)
    as (r & _ & _ & _ & _ & G).
  exact G.
Defined.

(** ** Buffers and 16-bit samples *)

Lemma store_length (buf : Buffer) (i : nat) (b : byte) :
  List.length (store buf i b) = List.length buf.
Proof.
  revert i. induction buf as [|a rest IH]; intros [|i]; cbn; auto.
Qed.

Lemma store_same (buf : Buffer) (i : nat) (b : byte) :
  nth_error buf i = Some b -> store buf i b = buf.
Proof.
  revert i. induction buf as [|a rest IH]; intros [|i]; cbn; try discriminate.
  - now intros [= ->].
  - intros E. now rewrite IH.
Qed.

Lemma nth_store_eq (buf : Buffer) (i : nat) (b : byte) :
  (i < List.length buf)%nat -> nth_error (store buf i b) i = Some b.
Proof.
  revert i. induction buf as [|a rest IH]; intros [|i]; cbn; try lia; auto.
  intros L. apply IH. lia.
Qed.

Lemma nth_store_neq (buf : Buffer) (i j : nat) (b : byte) :
  i <> j -> nth_error (store buf i b) j = nth_error buf j.
Proof.
  revert i j. induction buf as [|a rest IH]; intros [|i] [|j] N; cbn; try congruence.
  apply IH. congruence.
Qed.

Lemma byteZ_range (b : byte) : 0 <= byteZ b < 256.
Proof. unfold byteZ. pose proof (Byte.to_N_bounded b). lia. Qed.

Lemma toByte_byteZ (b : byte) : toByte (byteZ b) = b.
Proof.
  unfold toByte. rewrite Z.mod_small by apply byteZ_range.
  unfold byteZ. rewrite N2Z.id. now rewrite Byte.of_to_N.
Qed.

Lemma byteZ_toByte (z : Z) : byteZ (toByte z) = z mod 256.
Proof.
  unfold toByte, byteZ.
  pose proof (Z.mod_pos_bound z 256 ltac:(lia)) as B.
  destruct (Byte.of_N (Z.to_N (z mod 256))) as [b|] eqn:E.
  - apply Byte.to_of_N in E. rewrite E. lia.
  - apply Byte.of_N_None_iff in E. lia.
Qed.

Lemma toByte_mod (z : Z) : toByte (z mod 256) = toByte z.
Proof. unfold toByte. now rewrite Z.mod_mod by lia. Qed.

Lemma testbit15 (val : Z) :
  0 <= val < 65536 -> Z.testbit val 15 = (32768 <=? val).
Proof.
  intros R. rewrite Z.testbit_eqb by lia. change (2 ^ 15) with 32768.
  destruct (Z.leb_spec 32768 val).
  - assert (val / 32768 = 1) as -> by (symmetry; apply (Z.div_unique val 32768 1 (val - 32768)); lia).
    reflexivity.
  - rewrite Z.div_small by lia. reflexivity.
Qed.

Lemma int16_range (first last : byte) : -32768 <= int16 first last <= 32767.
Proof.
  unfold int16. pose proof (byteZ_range first). pose proof (byteZ_range last).
  cbv zeta. rewrite testbit15 by lia.
  destruct (Z.leb_spec 32768 (byteZ first + byteZ last * 2 ^ 8)); lia.
Qed.

Lemma int16_low (first last : byte) : toByte (int16 first last) = first.
Proof.
  rewrite <- (toByte_byteZ first) at 2. rewrite <- toByte_mod, <- (toByte_mod (byteZ first)).
  f_equal. unfold int16. pose proof (byteZ_range first). pose proof (byteZ_range last).
  cbv zeta. rewrite testbit15 by lia.
  destruct (Z.leb_spec 32768 (byteZ first + byteZ last * 2 ^ 8)).
  - replace (byteZ first + byteZ last * 2 ^ 8 - 2 ^ 16)
      with (byteZ first + (byteZ last - 256) * 256) by lia.
    now rewrite Z.mod_add by lia.
  - change (2 ^ 8) with 256. now rewrite Z.mod_add by lia.
Qed.

Lemma int16_high (first last : byte) : toByte (Z.shiftr (int16 first last) 8) = last.
Proof.
  rewrite <- (toByte_byteZ last) at 2.
  rewrite <- toByte_mod, <- (toByte_mod (byteZ last)). f_equal.
  rewrite Z.shiftr_div_pow2 by lia. change (2 ^ 8) with 256.
  unfold int16. pose proof (byteZ_range first). pose proof (byteZ_range last).
  cbv zeta. rewrite testbit15 by lia.
  destruct (Z.leb_spec 32768 (byteZ first + byteZ last * 2 ^ 8)).
  - replace (byteZ first + byteZ last * 2 ^ 8 - 2 ^ 16)
      with (byteZ first + (byteZ last - 256) * 256) by lia.
    rewrite Z.div_add by lia. rewrite Z.div_small by lia.
    replace (0 + (byteZ last - 256)) with (byteZ last + (-1) * 256) by lia.
    now rewrite Z.mod_add by lia.
  - change (2 ^ 8) with 256. rewrite Z.div_add by lia. rewrite Z.div_small by lia.
    reflexivity.
Qed.

Lemma int16_toByte (n : Z) :
  -32768 <= n <= 32767 -> int16 (toByte n) (toByte (Z.shiftr n 8)) = n.
Proof.
  intros R. unfold int16. rewrite !byteZ_toByte.
  rewrite Z.shiftr_div_pow2 by lia. change (2 ^ 8) with 256.
  pose proof (Z.div_mod n 256 ltac:(lia)) as D.
  pose proof (Z.mod_pos_bound n 256 ltac:(lia)) as B.
  cbv zeta. destruct (Z.neg_nonneg_cases n) as [N|P].
  - assert (-128 <= n / 256 <= -1) as HQ by lia.
    replace ((n / 256) mod 256) with (n / 256 + 256)
      by (apply (Z.mod_unique (n / 256) 256 (-1)); lia).
    rewrite testbit15 by lia.
    destruct (Z.leb_spec 32768 (n mod 256 + (n / 256 + 256) * 256)); lia.
  - assert (0 <= n / 256 <= 127) as HQ by lia.
    rewrite (Z.mod_small (n / 256)) by lia.
    rewrite testbit15 by lia.
    destruct (Z.leb_spec 32768 (n mod 256 + n / 256 * 256)); lia.
Qed.

Lemma truncate_inject (q : Q) (z : Z) : (q == inject_Z z)%Q -> truncate q = z.
Proof.
  unfold Qeq, truncate, inject_Z. cbn. intros E.
  rewrite Z.mul_1_r in E. rewrite E. apply Z.quot_mul. discriminate.
Qed.

Lemma truncate_bounds (q : Q) (lo hi : Z) :
  (inject_Z lo <= q)%Q -> (q <= inject_Z hi)%Q -> lo <= truncate q <= hi.
Proof.
  unfold Qle, truncate, inject_Z. cbn. rewrite !Z.mul_1_r. intros L U. split.
  - apply Z.quot_le_lower_bound; lia.
  - apply Z.quot_le_upper_bound; lia.
Qed.

(** ** [clip] *)

Lemma clip_cases (value min max : Q) :
  (min <= max)%Q ->
  ((max < value)%Q /\ clip value min max = max)
  \/ ((value < min)%Q /\ clip value min max = min)
  \/ ((min <= value)%Q /\ (value <= max)%Q /\ clip value min max = value).
Proof.
  intros M. unfold clip.
  destruct (gtb value max) eqn:G.
  - apply gtb_gt in G. auto.
  - apply gtb_le in G. destruct (ltb value min) eqn:L.
    + apply ltb_lt in L. auto.
    + apply ltb_ge in L. auto.
Qed.

Lemma clip_range (value min max : Q) :
  (min <= max)%Q -> (min <= clip value min max)%Q /\ (clip value min max <= max)%Q.
Proof.
  intros M. destruct (clip_cases value min max M) as [[_ ->]|[[_ ->]|(L & U & ->)]]; lra.
Qed.

Lemma int16_limits : (inject_Z (-0x8000) <= inject_Z 0x7FFF)%Q.
Proof. discriminate. Qed.

(** ** Reading and writing samples *)

Lemma writeInt16LE_inside (buf : Buffer) (value : Q) (offset : Z) :
  (inject_Z (-0x8000) <= value)%Q -> (value <= inject_Z 0x7fff)%Q ->
  0 <= offset -> offset + 2 <= length buf ->
  writeInt16LE buf value offset =
    Ok (store (store buf (Z.to_nat offset) (toByte (truncate value)))
              (Z.to_nat (offset + 1)) (toByte (Z.shiftr (truncate value) 8))).
Proof.
  intros L U O B. unfold writeInt16LE.
  apply gtb_le in U. apply ltb_ge in L. rewrite U, L. cbn [orb].
  destruct (Z.ltb_spec offset 0); [lia|].
  destruct (Z.ltb_spec (length buf) (offset + 2)); [lia|].
  reflexivity.
Qed.

Lemma writeInt16LE_length (buf buf' : Buffer) (value : Q) (offset : Z) :
  writeInt16LE buf value offset = Ok buf' -> List.length buf' = List.length buf.
Proof.
  unfold writeInt16LE.
  destruct (_ || _); [discriminate|]. destruct (_ || _); [discriminate|].
  intros [= <-]. now rewrite !store_length.
Qed.

Lemma index_store_eq (buf : Buffer) (i : Z) (b : byte) :
  0 <= i < length buf -> index (store buf (Z.to_nat i) b) i = Some b.
Proof.
  unfold index, length. intros R. destruct (Z.ltb_spec i 0); [lia|].
  apply nth_store_eq. lia.
Qed.

Lemma index_store_neq (buf : Buffer) (i j : Z) (b : byte) :
  0 <= i -> i <> j -> index (store buf (Z.to_nat i) b) j = index buf j.
Proof.
  unfold index. intros P N. destruct (Z.ltb_spec j 0); [reflexivity|].
  apply nth_store_neq. lia.
Qed.

Lemma readInt16LE_written (buf : Buffer) (value : Q) (offset : Z) :
  (inject_Z (-0x8000) <= value)%Q -> (value <= inject_Z 0x7fff)%Q ->
  0 <= offset -> offset + 2 <= length buf ->
  exists buf', writeInt16LE buf value offset = Ok buf'
               /\ readInt16LE buf' offset = Ok (truncate value).
Proof.
  intros L U O B. rewrite writeInt16LE_inside by assumption.
  eexists. split; [reflexivity|].
  unfold readInt16LE.
  rewrite index_store_neq by lia. rewrite index_store_eq by lia.
  rewrite index_store_eq by (unfold length in *; rewrite store_length; lia).
  f_equal. apply int16_toByte. apply truncate_bounds; assumption.
Qed.

Lemma write_back (buf : Buffer) (value : Q) (offset : Z) (first last : byte) :
  index buf offset = Some first -> index buf (offset + 1) = Some last ->
  (value == inject_Z (int16 first last))%Q ->
  writeInt16LE buf value offset = Ok buf.
Proof.
  intros F La E.
  pose proof (index_Some _ _ _ F) as BF. pose proof (index_Some _ _ _ La) as BL.
  pose proof (int16_range first last) as R.
  assert ((inject_Z (-0x8000) <= value)%Q /\ (value <= inject_Z 0x7fff)%Q) as [L U].
  { rewrite E. rewrite <- !Zle_Qle. cbn. lia. }
  rewrite writeInt16LE_inside by (try assumption; lia).
  rewrite (truncate_inject value _ E), int16_low, int16_high.
  f_equal.
  unfold index in F, La.
  destruct (Z.ltb_spec offset 0); [lia|]. destruct (Z.ltb_spec (offset + 1) 0); [lia|].
  rewrite (store_same buf _ _ F). apply store_same. exact La.
Qed.

(** ** C8: clipping before the 16-bit write *)

(** C8, as stated, fails for a product that is no integer: the sample 3
    under gain 1/2 is stored as 1, not as the in-range product 3/2. *)
Lemma writeFormat_drops_fraction :
  exists buf',
    writeFormat [x03; x00] (inject_Z 3 * (1 # 2))%Q 0 mono16 = Ok buf'
    /\ readInt16LE buf' 0 = Ok 1
    /\ (clip (inject_Z 3 * (1 # 2)) (inject_Z (-0x8000)) (inject_Z 0x7FFF) == 3 # 2)%Q
    /\ ~ (inject_Z 1 == 3 # 2)%Q
    /\ transform mono16 [Keyframe.make 0 0 (1 # 2)] 0 [x03; x00] = Ok [x01; x00].
Proof.
  exists [x01; x00]. repeat split; try reflexivity. discriminate.
Qed.

(** C8, amended.  For a sample [s] and a gain [g], [writeFormat] hands to
    the 16-bit write the product [s * g] clamped to the signed 16-bit
    range: 32767 for a product above it, -32768 for one below, the product
    itself otherwise.  That argument passes the range test of the write, so
    the write does not fail on its value; the sample then found in the
    buffer is the argument with its fractional part dropped (truncation
    towards zero): exactly 32767 or -32768 for a product out of range, and
    the product itself when it is an in-range integer. *)
Theorem writeFormat_clamps (format : Format) (buf : Buffer) (s : Z) (g : Q) (offset : Z)
    (fmt : supported format = true)
    (inside : 0 <= offset /\ offset + 2 <= length buf) :
  let product := (inject_Z s * g)%Q in
  let arg := clip product (inject_Z (-0x8000)) (inject_Z 0x7FFF) in
  ((inject_Z 0x7FFF < product)%Q -> arg = inject_Z 0x7FFF)
  /\ ((product < inject_Z (-0x8000))%Q -> arg = inject_Z (-0x8000))
  /\ ((inject_Z (-0x8000) <= product)%Q -> (product <= inject_Z 0x7FFF)%Q -> arg = product)
  /\ gtb arg (inject_Z 0x7fff) || ltb arg (inject_Z (-0x8000)) = false
  /\ exists buf',
       writeFormat buf product offset format = Ok buf'
       /\ readInt16LE buf' offset = Ok (truncate arg)
       /\ -32768 <= truncate arg <= 32767
       /\ ((inject_Z 0x7FFF < product)%Q -> truncate arg = 32767)
       /\ ((product < inject_Z (-0x8000))%Q -> truncate arg = -32768)
       /\ (forall n : Z, -32768 <= n <= 32767 -> (product == inject_Z n)%Q ->
             truncate arg = n).
Proof.
  intros product arg.
  pose proof (clip_cases product _ _ int16_limits) as C.
  pose proof (clip_range product _ _ int16_limits) as [L U].
  fold arg in C, L, U.
  assert (((inject_Z 0x7FFF < product)%Q -> arg = inject_Z 0x7FFF)
          /\ ((product < inject_Z (-0x8000))%Q -> arg = inject_Z (-0x8000))
          /\ ((inject_Z (-0x8000) <= product)%Q -> (product <= inject_Z 0x7FFF)%Q ->
              arg = product)) as (A & B & M).
  { destruct C as [[H ->]|[[H ->]|(H1 & H2 & ->)]]; repeat split; intros; try reflexivity; lra. }
  split; [exact A|]. split; [exact B|]. split; [exact M|]. split.
  - apply orb_false_iff. split; [apply gtb_le | apply ltb_ge]; assumption.
  - destruct inside as [O I].
    destruct (readInt16LE_written buf arg offset L U O I) as [buf' [W R]].
    exists buf'. split.
    + unfold writeFormat. rewrite fmt. exact W.
    + split; [exact R|]. split; [apply truncate_bounds; assumption|].
      split; [|split].
      * intros H. rewrite (A H). reflexivity.
      * intros H. rewrite (B H). reflexivity.
      * intros n Rn E. apply truncate_inject.
        assert ((inject_Z (-0x8000) <= product)%Q /\ (product <= inject_Z 0x7FFF)%Q) as [Lp Up]
          by (rewrite E, <- !Zle_Qle; cbn; lia).
        rewrite (M Lp Up). exact E.
Qed.

Lemma writeFormat_clamps_witness :
  exists buf',
    writeFormat [x00; x00] (inject_Z 20000 * 2)%Q 0 mono16 = Ok buf'
    /\ readInt16LE buf' 0 = Ok 32767.
Proof.
  destruct (writeFormat_clamps mono16 [x00; x00] 20000 2 0 eq_refl
              (conj (Z.le_refl 0) (Z.le_refl 2)))
    as (_ & _ & _ & _ & buf' & W & R & _).
  exists buf'. split; [exact W | exact R].
Defined.

(** ** The transform stream keeps the length of what it is given *)

Section TransformLength.

Variable format : Format.
Variable levels : list Keyframe.t.

Lemma sample_length (processed i channel : Z) (chunk chunk' : Buffer) :
  sample format levels processed i channel chunk = Ok chunk' ->
  List.length chunk' = List.length chunk.
Proof.
  unfold sample, readFormat, writeFormat.
  destruct (supported format); [|discriminate].
  destruct (readInt16LE chunk _); cbn [bind]; [|discriminate].
  destruct (getVolume _ levels); cbn [bind]; [|discriminate].
  apply writeInt16LE_length.
Qed.

Lemma channelLoop_length (fuel : nat) :
  forall (processed i channel : Z) (chunk chunk' : Buffer),
    channelLoop format levels fuel processed i channel chunk = Ok chunk' ->
    List.length chunk' = List.length chunk.
Proof.
  induction fuel as [|fuel IH]; intros processed i channel chunk chunk'; cbn [channelLoop];
    destruct (channel <? channels format); try discriminate; try (now intros [= ->]).
  destruct (sample format levels processed i channel chunk) as [c1|] eqn:E;
    cbn [bind]; [|discriminate].
  intros H. apply IH in H. apply sample_length in E. congruence.
Qed.

Lemma frameLoop_length (fuel : nat) :
  forall (processed i : Z) (chunk chunk' : Buffer),
    frameLoop format levels fuel processed i chunk = Ok chunk' ->
    List.length chunk' = List.length chunk.
Proof.
  induction fuel as [|fuel IH]; intros processed i chunk chunk'; cbn [frameLoop];
    destruct (i <? length chunk); try discriminate; try (now intros [= ->]).
  destruct (channelLoop format levels _ processed i 0 chunk) as [c1|] eqn:E;
    cbn [bind]; [|discriminate].
  intros H. apply IH in H. apply channelLoop_length in E. congruence.
Qed.

Lemma transform_length (processed : Z) (chunk chunk' : Buffer) :
  transform format levels processed chunk = Ok chunk' ->
  List.length chunk' = List.length chunk.
Proof. apply frameLoop_length. Qed.

Lemma transformStream_length (chunks : list Buffer) :
  forall (processed : Z) (out : list Buffer),
    transformStream format levels processed chunks = Ok out ->
    List.length (concat out) = List.length (concat chunks).
Proof.
  induction chunks as [|chunk rest IH]; intros processed out; cbn [transformStream].
  - now intros [= <-].
  - destruct (transform format levels processed chunk) as [c1|] eqn:E; cbn [bind]; [|discriminate].
    destruct (transformStream format levels _ rest) as [r1|] eqn:Er; cbn [bind]; [|discriminate].
    intros [= <-]. cbn [concat]. rewrite !length_app.
    apply transform_length in E. apply IH in Er. congruence.
Qed.

End TransformLength.

(** ** The chunker *)

Lemma chunksOf_length (chunkSize : nat) (flush : bool) (fuel : nat) :
  forall data : Buffer,
    (0 < chunkSize)%nat -> (List.length data < fuel)%nat ->
    List.length (concat (chunksOf fuel chunkSize flush data)) =
      if flush then List.length data
      else (chunkSize * (List.length data / chunkSize))%nat.
Proof.
  induction fuel as [|fuel IH]; intros data P F; [lia|].
  cbn [chunksOf]. destruct (Nat.leb_spec chunkSize (List.length data)) as [L|L].
  - cbn [concat]. rewrite length_app, IH by (try rewrite length_skipn; lia).
    rewrite length_firstn, length_skipn, Nat.min_l by lia.
    destruct flush; [lia|].
    replace (List.length data) with ((List.length data - chunkSize) + 1 * chunkSize)%nat at 2 by lia.
    rewrite Nat.div_add by lia. lia.
  - rewrite (Nat.div_small _ _ L), Nat.mul_0_r.
    destruct data as [|b data]; [now destruct flush|].
    destruct flush; cbn [concat]; [now rewrite app_nil_r | reflexivity].
Qed.

Lemma chunksOf_short (chunkSize : nat) (fuel : nat) (data : Buffer) :
  (List.length data < chunkSize)%nat -> chunksOf fuel chunkSize false data = [].
Proof.
  intros L. destruct fuel; [reflexivity|]. cbn [chunksOf].
  destruct (Nat.leb_spec chunkSize (List.length data)); [lia|].
  now destruct data.
Qed.

Lemma chunksOf_first (chunkSize : nat) (flush : bool) (fuel : nat) (data : Buffer) :
  (chunkSize <= List.length data)%nat ->
  exists rest, chunksOf (S fuel) chunkSize flush data = firstn chunkSize data :: rest.
Proof.
  intros L. cbn [chunksOf].
  destruct (Nat.leb_spec chunkSize (List.length data)); [|lia]. eauto.
Qed.

Lemma chunksOf_sizes (chunkSize : nat) (fuel : nat) :
  forall data : Buffer,
    Forall (fun chunk => List.length chunk = chunkSize) (chunksOf fuel chunkSize false data).
Proof.
  induction fuel as [|fuel IH]; intros data; cbn [chunksOf]; [constructor|].
  destruct (Nat.leb_spec chunkSize (List.length data)) as [L|L].
  - constructor; [|apply IH]. rewrite length_firstn. lia.
  - destruct data; constructor.
Qed.

Lemma chunksOf_prefix (chunkSize : nat) (fuel : nat) :
  forall data : Buffer,
    exists tail, data = concat (chunksOf fuel chunkSize false data) ++ tail.
Proof.
  induction fuel as [|fuel IH]; intros data; cbn [chunksOf].
  - now exists data.
  - destruct (Nat.leb_spec chunkSize (List.length data)) as [L|L].
    + destruct (IH (skipn chunkSize data)) as [tail E]. exists tail.
      cbn [concat]. rewrite <- app_assoc, <- E. now rewrite firstn_skipn.
    + exists data. now destruct data.
Qed.

Lemma Chunker_prefix (chunkSize : Z) (data : Buffer) :
  exists tail, data = concat (Chunker chunkSize false data) ++ tail.
Proof.
  unfold Chunker. destruct (chunkSize <=? 0); [now exists data|]. apply chunksOf_prefix.
Qed.

(** ** Unit gain leaves the samples as they are *)

Section UnitGain.

Variable format : Format.
Variable levels : list Keyframe.t.
Hypothesis fmt : supported format = true.
Hypothesis pcm : blockAlign format = channels format * 2 /\ 0 < channels format.

Lemma channelBytes_pcm : channelBytes format = 2.
Proof.
  unfold channelBytes. destruct pcm as [-> P]. rewrite Z.mul_comm. apply Z.div_mul. lia.
Qed.

Lemma sample_unit (processed i channel : Z) (chunk : Buffer) :
  0 <= i + channelBytes format * channel ->
  i + channelBytes format * channel + 2 <= length chunk ->
  yields (getVolume (inject_Z (processed + i) / inject_Z (byteRate format)) levels) 1 ->
  sample format levels processed i channel chunk = Ok chunk.
Proof.
  intros L U [g [G G1]]. unfold sample, readFormat, writeFormat, readInt16LE.
  rewrite fmt, G.
  destruct (index_inside chunk (i + channelBytes format * channel) ltac:(lia)) as [first F].
  destruct (index_inside chunk (i + channelBytes format * channel + 1) ltac:(lia)) as [last La].
  rewrite F, La. cbn [bind].
  pose proof (int16_range first last) as R.
  assert ((inject_Z (int16 first last) * g == inject_Z (int16 first last))%Q) as E
    by (rewrite G1; ring).
  destruct (clip_cases (inject_Z (int16 first last) * g) _ _ int16_limits)
    as [[H _]|[[H _]|(_ & _ & ->)]].
  - exfalso. rewrite E in H. rewrite <- Zlt_Qlt in H. cbn in H. lia.
  - exfalso. rewrite E in H. rewrite <- Zlt_Qlt in H. cbn in H. lia.
  - eapply write_back; eauto.
Qed.

Lemma channelLoop_unit (processed i : Z) (chunk : Buffer) (fuel : nat) :
  0 <= i -> i + blockAlign format <= length chunk ->
  yields (getVolume (inject_Z (processed + i) / inject_Z (byteRate format)) levels) 1 ->
  forall channel : Z,
    0 <= channel -> channels format - channel <= Z.of_nat fuel ->
    channelLoop format levels fuel processed i channel chunk = Ok chunk.
Proof.
  intros Hi Hb G. destruct pcm as [B P].
  induction fuel as [|fuel IH]; intros channel Hc Hf; cbn [channelLoop];
    destruct (Z.ltb_spec channel (channels format)) as [L|L]; try reflexivity; [lia|].
  rewrite sample_unit; try (rewrite channelBytes_pcm; lia); [|exact G].
  cbn [bind]. apply IH; lia.
Qed.

Lemma frameLoop_unit (processed : Z) (chunk : Buffer) (fuel : nat) :
  forall i : Z,
    0 <= i -> (length chunk - i) mod blockAlign format = 0 ->
    length chunk - i <= Z.of_nat fuel ->
    (forall i', i <= i' < length chunk -> (i' - i) mod blockAlign format = 0 ->
       yields (getVolume (inject_Z (processed + i') / inject_Z (byteRate format)) levels) 1) ->
    frameLoop format levels fuel processed i chunk = Ok chunk.
Proof.
  destruct pcm as [B P].
  induction fuel as [|fuel IH]; intros i Hi Hm Hf G; cbn [frameLoop];
    destruct (Z.ltb_spec i (length chunk)) as [L|L]; try reflexivity; [lia|].
  assert (blockAlign format <= length chunk - i) as Hroom.
  { apply Z.mod_divide in Hm; [|lia]. destruct Hm as [k Hk].
    assert (0 < k) by nia. nia. }
  rewrite channelLoop_unit; try lia.
  - cbn [bind]. apply IH; try lia.
    + replace (length chunk - (i + blockAlign format))
        with (length chunk - i + (-1) * blockAlign format) by lia.
      rewrite Z.mod_add by lia. exact Hm.
    + intros i' Hi' Hmi. apply G; [lia|].
      replace (i' - i) with (i' - (i + blockAlign format) + 1 * blockAlign format) by lia.
      rewrite Z.mod_add by lia. exact Hmi.
  - apply G; [lia|]. rewrite Z.sub_diag. apply Z.mod_0_l. lia.
Qed.

(** A chunk of whole frames comes out of the transform as it went in when
    the gain is 1 at the time of each of its frames. *)
Lemma transform_unit (processed : Z) (chunk : Buffer) :
  length chunk mod blockAlign format = 0 ->
  (forall f, 0 <= f -> f * blockAlign format < length chunk ->
     yields (getVolume (inject_Z (processed + f * blockAlign format)
                        / inject_Z (byteRate format)) levels) 1) ->
  transform format levels processed chunk = Ok chunk.
Proof.
  intros W G. destruct pcm as [B P]. unfold transform.
  apply frameLoop_unit; try lia.
  - now rewrite Z.sub_0_r.
  - unfold length. lia.
  - intros i' Hi' Hm. rewrite Z.sub_0_r in Hm.
    apply Z.mod_divide in Hm; [|lia]. destruct Hm as [f ->].
    apply G; nia.
Qed.

Lemma transformStream_unit (chunks : list Buffer) :
  Forall (fun chunk => length chunk mod blockAlign format = 0) chunks ->
  forall p : Z,
    0 <= p ->
    (forall f, p <= f ->
       f * blockAlign format < p * blockAlign format + length (concat chunks) ->
       yields (getVolume (inject_Z (f * blockAlign format)
                          / inject_Z (byteRate format)) levels) 1) ->
    transformStream format levels (p * blockAlign format) chunks = Ok chunks.
Proof.
  destruct pcm as [B P].
  intros W. induction W as [|chunk rest Hc Hr IH]; intros p Hp G; cbn [transformStream].
  - reflexivity.
  - assert (length (concat (chunk :: rest)) = length chunk + length (concat rest)) as Len
      by (cbn [concat]; unfold length; rewrite length_app; lia).
    assert (0 <= length (concat rest)) as Pos by (unfold length; lia).
    rewrite transform_unit; [|exact Hc|].
    + cbn [bind]. apply Z.mod_divide in Hc; [|lia]. destruct Hc as [k Hk].
      assert (0 <= k) by (unfold length in Hk; nia).
      replace (p * blockAlign format + length chunk)
        with ((p + k) * blockAlign format) by lia.
      rewrite IH; [reflexivity|lia|].
      intros f Hf Hl. apply G; [lia|]. rewrite Len. lia.
    + intros f Hf Hl.
      replace (p * blockAlign format + f * blockAlign format)
        with ((p + f) * blockAlign format) by lia.
      apply G; [lia|]. rewrite Len. lia.
Qed.

(** With gain 1 at the time of every frame of the body, the bytes that
    reach the writer are the chunks as the chunker cut them, a prefix of
    the body. *)
Lemma pipeline_unit (body : Buffer) :
  (forall f, 0 <= f -> f * blockAlign format < length body ->
     yields (getVolume (inject_Z (f * blockAlign format)
                        / inject_Z (byteRate format)) levels) 1) ->
  exists out tail,
    pipeline format levels body = Ok (format, out)
    /\ out = concat (Chunker (blockAlign format * 1024) false body)
    /\ body = out ++ tail.
Proof.
  intros G. destruct pcm as [B P].
  destruct (Chunker_prefix (blockAlign format * 1024) body) as [tail E].
  exists (concat (Chunker (blockAlign format * 1024) false body)), tail.
  split; [|split; [reflexivity|exact E]].
  unfold pipeline.
  change 0 with (0 * blockAlign format) at 1.
  rewrite transformStream_unit; [reflexivity| |lia|].
  - unfold Chunker. destruct (Z.leb_spec (blockAlign format * 1024) 0); [constructor|].
    eapply Forall_impl; [|apply chunksOf_sizes].
    cbn. intros chunk Ec. unfold length. rewrite Ec, Z2Nat.id by lia.
    rewrite Z.mul_comm. apply Z.mod_mul. lia.
  - intros f Hf Hl. apply G; [lia|].
    rewrite E at 1. unfold length in *. rewrite length_app. lia.
Qed.

End UnitGain.

(** With the empty keyframe sequence the gain is 1 at every time, and
    every chunk of whole frames is pushed on as it came in. *)
Remark unit_gain_empty (format : Format) (processed : Z) (chunk : Buffer) :
  supported format = true ->
  blockAlign format = channels format * 2 /\ 0 < channels format ->
  length chunk mod blockAlign format = 0 ->
  (forall t, getVolume t [] = Ok 1%Q)
  /\ transform format [] processed chunk = Ok chunk.
Proof.
  intros fmt pcm W. split; [reflexivity|].
  apply transform_unit; try assumption.
  intros f _ _. exists 1%Q. split; reflexivity.
Qed.

(** C6 at a stream of one frame under unit gain: the empty keyframe
    sequence gives gain 1 at every time, and the transform would hand the
    frame on byte for byte, but the frame does not fill a chunk of 1024
    frames, the chunker keeps it back, and no byte of the input reaches the
    writer. *)
Theorem unit_gain_drops_tail :
  (forall t, getVolume t [] = Ok 1%Q)
  /\ transform mono16 [] 0 [x01; x02] = Ok [x01; x02]
  /\ Chunker (blockAlign mono16 * 1024) false [x01; x02] = []
  /\ pipeline mono16 [] [x01; x02] = Ok (mono16, []).
Proof. repeat split. Qed.

(** ** The unsupported-format error *)

Lemma supported_iff (format : Format) :
  supported format = true <-> bitDepth format = 16 /\ endianness format = LE.
Proof.
  unfold supported. rewrite andb_true_iff, Z.eqb_eq.
  destruct (endianness format); intuition congruence.
Qed.

Lemma readFormat_unsupported (buf : Buffer) (offset : Z) (format : Format) :
  readFormat buf offset format = Throw UnsupportedFormat <-> supported format = false.
Proof.
  unfold readFormat, readInt16LE. destruct (supported format).
  - split; [|discriminate].
    destruct (index buf offset), (index buf (offset + 1)); discriminate.
  - split; reflexivity.
Qed.

Lemma writeInt16LE_not_unsupported (buf : Buffer) (value : Q) (offset : Z) :
  writeInt16LE buf value offset <> Throw UnsupportedFormat.
Proof.
  unfold writeInt16LE. destruct (_ || _); [discriminate|].
  destruct (_ || _); discriminate.
Qed.

Lemma writeFormat_unsupported (buf : Buffer) (value : Q) (offset : Z) (format : Format) :
  writeFormat buf value offset format = Throw UnsupportedFormat <-> supported format = false.
Proof.
  unfold writeFormat. destruct (supported format).
  - split; [|discriminate]. intros H. now apply writeInt16LE_not_unsupported in H.
  - split; reflexivity.
Qed.

Lemma bs_loop_not_unsupported {A : Type} (haystack : list A) (needle : Q)
    (comparator : A -> Q -> Q) (fuel : nat) :
  forall low high,
    bs_loop fuel haystack needle comparator low high <> Throw UnsupportedFormat.
Proof.
  induction fuel as [|fuel IH]; intros low high; cbn [bs_loop];
    destruct (low <=? high); try discriminate.
  destruct (index haystack _); [|discriminate].
  destruct (ltb _ 0); [apply IH|]. destruct (gtb _ 0); [apply IH|discriminate].
Qed.

Lemma getVolume_not_unsupported (t : Q) (events : list Keyframe.t) :
  getVolume t events <> Throw UnsupportedFormat.
Proof.
  unfold getVolume, bs.
  pose proof (bs_loop_not_unsupported events t (fun a b => Keyframe.time a - b)%Q
                (List.length events) 0 (length events - 1)) as N.
  destruct (bs_loop _ events t _ 0 _) as [r|e]; cbn [bind]; [|congruence].
  destruct (0 <=? r).
  - destruct (index events r); discriminate.
  - destruct (index events _), (index events _); discriminate.
Qed.

Section Supported.

Variable format : Format.
Variable levels : list Keyframe.t.

Lemma sample_not_unsupported (processed i channel : Z) (chunk : Buffer) :
  supported format = true ->
  sample format levels processed i channel chunk <> Throw UnsupportedFormat.
Proof.
  intros S. unfold sample.
  destruct (readFormat chunk _ format) as [value|e] eqn:R; cbn [bind].
  - pose proof (getVolume_not_unsupported
                  (inject_Z (processed + i) / inject_Z (byteRate format)) levels) as G.
    destruct (getVolume _ levels) as [g|e]; cbn [bind]; [|congruence].
    intros W. apply writeFormat_unsupported in W. congruence.
  - intros [= ->]. apply readFormat_unsupported in R. congruence.
Qed.

Lemma channelLoop_not_unsupported (fuel : nat) :
  supported format = true ->
  forall processed i channel chunk,
    channelLoop format levels fuel processed i channel chunk <> Throw UnsupportedFormat.
Proof.
  intros S. induction fuel as [|fuel IH]; intros processed i channel chunk; cbn [channelLoop];
    destruct (channel <? channels format); try discriminate.
  pose proof (sample_not_unsupported processed i channel chunk S) as N.
  destruct (sample format levels processed i channel chunk); cbn [bind]; [apply IH|congruence].
Qed.

Lemma frameLoop_not_unsupported (fuel : nat) :
  supported format = true ->
  forall processed i chunk,
    frameLoop format levels fuel processed i chunk <> Throw UnsupportedFormat.
Proof.
  intros S. induction fuel as [|fuel IH]; intros processed i chunk; cbn [frameLoop];
    destruct (i <? length chunk); try discriminate.
  pose proof (channelLoop_not_unsupported (Z.to_nat (channels format)) S processed i 0 chunk) as N.
  destruct (channelLoop format levels _ processed i 0 chunk); cbn [bind]; [apply IH|congruence].
Qed.

Lemma transformStream_not_unsupported (chunks : list Buffer) :
  supported format = true ->
  forall processed, transformStream format levels processed chunks <> Throw UnsupportedFormat.
Proof.
  intros S. induction chunks as [|chunk rest IH]; intros processed; cbn [transformStream];
    [discriminate|].
  pose proof (frameLoop_not_unsupported (List.length chunk) S processed 0 chunk) as N.
  unfold transform.
  destruct (frameLoop format levels _ processed 0 chunk); cbn [bind]; [|congruence].
  specialize (IH (processed + length chunk)).
  destruct (transformStream format levels _ rest); cbn [bind]; [discriminate|congruence].
Qed.

(** Without support for the format the loops either fail on the first
    sample or have no sample to visit. *)
Lemma channelLoop_unsupported (fuel : nat) (processed i channel : Z) (chunk chunk' : Buffer) :
  supported format = false ->
  channelLoop format levels fuel processed i channel chunk = Ok chunk' -> chunk' = chunk.
Proof.
  intros S. destruct fuel; cbn [channelLoop]; destruct (channel <? channels format);
    try discriminate; try (now intros [= ->]).
  unfold sample, readFormat. rewrite S. discriminate.
Qed.

Lemma frameLoop_unsupported (fuel : nat) :
  supported format = false ->
  forall processed i chunk chunk',
    frameLoop format levels fuel processed i chunk = Ok chunk' -> chunk' = chunk.
Proof.
  intros S. induction fuel as [|fuel IH]; intros processed i chunk chunk'; cbn [frameLoop];
    destruct (i <? length chunk); try discriminate; try (now intros [= ->]).
  destruct (channelLoop format levels _ processed i 0 chunk) as [c1|] eqn:E;
    cbn [bind]; [|discriminate].
  apply channelLoop_unsupported in E; [|exact S]. subst c1. apply IH.
Qed.

Lemma transform_unsupported (processed : Z) (chunk : Buffer) :
  supported format = false -> 0 < channels format -> chunk <> [] ->
  transform format levels processed chunk = Throw UnsupportedFormat.
Proof.
  intros Hs C N. unfold transform. destruct chunk as [|b chunk]; [congruence|].
  cbn [List.length frameLoop]. unfold length. cbn [List.length].
  destruct (Z.ltb_spec 0 (Z.of_nat (S (List.length chunk)))); [|lia].
  destruct (Z.to_nat (channels format)) as [|n] eqn:E; [lia|].
  cbn [channelLoop]. destruct (Z.ltb_spec 0 (channels format)); [|lia].
  unfold sample, readFormat. rewrite Hs. reflexivity.
Qed.

End Supported.

(** C9, as stated, fails on an audio body without samples: for an 8-bit
    format neither the transform of an empty chunk nor the whole pipeline
    on an empty body raises the error. *)
Lemma unsupported_format_unnoticed :
  supported mono8 = false
  /\ (forall levels, transform mono8 levels 0 [] = Ok [])
  /\ (forall levels, pipeline mono8 levels [] = Ok (mono8, [])).
Proof. repeat split. Qed.

(** C9, amended.  [readFormat] and [writeFormat] raise 'Unsupported
    format' exactly when the format is not 16-bit little-endian.  With any
    other format the transform fails with that error on every non-empty
    chunk (of a stream with at least one channel) and never pushes on a
    changed chunk; it is only when there is no sample to visit, as for an
    empty chunk, that it completes without the error.  With 16-bit
    little-endian input the error is never raised. *)
Theorem unsupported_format (format : Format) :
  (supported format = true <-> bitDepth format = 16 /\ endianness format = LE)
  /\ (forall buf offset,
        readFormat buf offset format = Throw UnsupportedFormat
        <-> ~ (bitDepth format = 16 /\ endianness format = LE))
  /\ (forall buf value offset,
        writeFormat buf value offset format = Throw UnsupportedFormat
        <-> ~ (bitDepth format = 16 /\ endianness format = LE))
  /\ (~ (bitDepth format = 16 /\ endianness format = LE) ->
      forall levels processed chunk,
        (0 < channels format -> chunk <> [] ->
         transform format levels processed chunk = Throw UnsupportedFormat)
        /\ (forall chunk', transform format levels processed chunk = Ok chunk' ->
                           chunk' = chunk))
  /\ (forall levels processed, transform format levels processed [] = Ok [])
  /\ (bitDepth format = 16 /\ endianness format = LE ->
      forall levels,
        (forall processed chunk,
           transform format levels processed chunk <> Throw UnsupportedFormat)
        /\ (forall body, pipeline format levels body <> Throw UnsupportedFormat)).
Proof.
  pose proof (supported_iff format) as S.
  assert (supported format = false <-> ~ (bitDepth format = 16 /\ endianness format = LE)) as U.
  { rewrite <- S. destruct (supported format); intuition congruence. }
  split; [exact S|]. split; [|split; [|split; [|split]]].
  - intros buf offset. rewrite <- U. apply readFormat_unsupported.
  - intros buf value offset. rewrite <- U. apply writeFormat_unsupported.
  - intros N levels processed chunk. apply U in N. split.
    + intros C E. now apply transform_unsupported.
    + intros chunk'. apply frameLoop_unsupported. exact N.
  - reflexivity.
  - intros Y levels. apply S in Y. split.
    + intros processed chunk. now apply frameLoop_not_unsupported.
    + intros body. unfold pipeline.
      pose proof (transformStream_not_unsupported format levels
                    (Chunker (blockAlign format * 1024) false body) Y 0) as N.
      destruct (transformStream format levels 0 _); cbn [bind]; [discriminate|congruence].
Qed.

Lemma unsupported_format_witness :
  transform mono8 [] 0 [x01] = Throw UnsupportedFormat.
Proof.
  refine (proj1 (proj1 (proj2 (proj2 (proj2 (unsupported_format mono8)))) _ [] 0 [x01])
            eq_refl _).
  - intros [H _]. discriminate H.
  - discriminate.
Defined.

(** ** Frames in, frames out *)

Lemma Chunker_length (chunkSize : Z) (flush : bool) (data : Buffer) :
  0 < chunkSize ->
  length (concat (Chunker chunkSize flush data)) =
    if flush then length data else chunkSize * (length data / chunkSize).
Proof.
  intros P. unfold Chunker, length. destruct (Z.leb_spec chunkSize 0); [lia|].
  rewrite chunksOf_length by lia. destruct flush; [reflexivity|].
  rewrite Nat2Z.inj_mul, Nat2Z.inj_div, Z2Nat.id by lia. reflexivity.
Qed.

(** What reaches the writer: the format of the input, and as many bytes as
    the full chunks of [blockAlign * 1024] bytes hold. *)
Lemma pipeline_output (format format' : Format) (levels : list Keyframe.t)
    (body out : Buffer) :
  0 < blockAlign format ->
  pipeline format levels body = Ok (format', out) ->
  format' = format
  /\ length out = blockAlign format * 1024 * (length body / (blockAlign format * 1024))
  /\ frames format out = 1024 * (frames format body / 1024).
Proof.
  intros P. unfold pipeline.
  destruct (transformStream format levels 0 _) as [chunks|] eqn:E; cbn [bind]; [|discriminate].
  intros [= <- <-]. apply transformStream_length in E.
  assert (length (concat chunks) =
          blockAlign format * 1024 * (length body / (blockAlign format * 1024))) as L.
  { unfold length at 1. rewrite E. fold (length (concat (Chunker (blockAlign format * 1024) false body))).
    now rewrite Chunker_length by lia. }
  split; [reflexivity|]. split; [exact L|].
  unfold frames. rewrite L.
  rewrite <- Z.mul_assoc, Z.mul_comm, Z.div_mul by lia.
  now rewrite Z.div_div by lia.
Qed.

Lemma pipeline_whole_chunks (format format' : Format) (levels : list Keyframe.t)
    (body out : Buffer) :
  0 < blockAlign format ->
  length body mod (blockAlign format * 1024) = 0 ->
  pipeline format levels body = Ok (format', out) ->
  format' = format /\ length out = length body.
Proof.
  intros P W H. destruct (pipeline_output _ _ _ _ _ P H) as (F & L & _).
  split; [exact F|]. rewrite L.
  apply Z.mod_divide in W; [|lia]. destruct W as [k ->].
  rewrite Z.div_mul by lia. lia.
Qed.

(** ** The pipeline returns on 16-bit little-endian PCM *)

Lemma bs_loop_returns {A : Type} (haystack : list A) (needle : Q)
    (comparator : A -> Q -> Q) (fuel : nat) :
  forall low high : Z,
    0 <= low -> high < length haystack -> high - low + 1 <= Z.of_nat fuel ->
    exists r, bs_loop fuel haystack needle comparator low high = Ok r
              /\ r < length haystack.
Proof.
  induction fuel as [|fuel IH]; intros low high Hl Hh Hf; cbn [bs_loop];
    destruct (Z.leb_spec low high) as [L|L]; try lia;
    try (exists (bitnot low); split; [reflexivity | unfold bitnot, Z.lnot, length; lia]).
  pose proof (ushr1_bounds (high - low) ltac:(lia)) as M.
  set (mid := low + ushr1 (high - low)) in *.
  destruct (index_inside haystack mid ltac:(lia)) as [probe P]. rewrite P.
  destruct (ltb _ 0); [apply IH; lia|].
  destruct (gtb _ 0); [apply IH; lia|].
  exists mid. split; [reflexivity|lia].
Qed.

Lemma getVolume_returns (t : Q) (events : list Keyframe.t) :
  exists g, getVolume t events = Ok g.
Proof.
  unfold getVolume, bs.
  destruct (bs_loop_returns events t (fun a b => Keyframe.time a - b)%Q
              (List.length events) 0 (length events - 1)) as [r [E R]];
    try (unfold length; lia).
  rewrite E. cbn [bind]. destruct (Z.leb_spec 0 r).
  - destruct (index_inside events r ltac:(lia)) as [e ->]. eauto.
  - destruct (index events _), (index events _); eauto.
Qed.

Section Returns.

Variable format : Format.
Variable levels : list Keyframe.t.
Hypothesis fmt : supported format = true.
Hypothesis pcm : blockAlign format = channels format * 2 /\ 0 < channels format.

Lemma sample_returns (processed i channel : Z) (chunk : Buffer) :
  0 <= i + channelBytes format * channel ->
  i + channelBytes format * channel + 2 <= length chunk ->
  exists chunk', sample format levels processed i channel chunk = Ok chunk'.
Proof.
  intros L U. unfold sample, readFormat, writeFormat, readInt16LE. rewrite fmt.
  destruct (index_inside chunk (i + channelBytes format * channel) ltac:(lia)) as [first ->].
  destruct (index_inside chunk (i + channelBytes format * channel + 1) ltac:(lia)) as [last ->].
  cbn [bind].
  destruct (getVolume_returns (inject_Z (processed + i) / inject_Z (byteRate format)) levels)
    as [g ->].
  cbn [bind].
  destruct (clip_range (inject_Z (int16 first last) * g) _ _ int16_limits) as [Lo Hi].
  rewrite writeInt16LE_inside by (try assumption; lia). eauto.
Qed.

Lemma channelLoop_returns (processed i : Z) (fuel : nat) :
  0 <= i ->
  forall (channel : Z) (chunk : Buffer),
    i + blockAlign format <= length chunk ->
    0 <= channel -> channels format - channel <= Z.of_nat fuel ->
    exists chunk', channelLoop format levels fuel processed i channel chunk = Ok chunk'.
Proof.
  intros Hi. destruct pcm as [B P].
  induction fuel as [|fuel IH]; intros channel chunk Hb Hc Hf; cbn [channelLoop];
    destruct (Z.ltb_spec channel (channels format)) as [L|L]; eauto; [lia|].
  destruct (sample_returns processed i channel chunk) as [c1 E];
    try (rewrite (channelBytes_pcm format pcm); lia).
  rewrite E. cbn [bind]. apply IH; try lia.
  apply sample_length in E. unfold length in *. lia.
Qed.

Lemma frameLoop_returns (processed : Z) (fuel : nat) :
  forall (i : Z) (chunk : Buffer),
    0 <= i -> (length chunk - i) mod blockAlign format = 0 ->
    length chunk - i <= Z.of_nat fuel ->
    exists chunk', frameLoop format levels fuel processed i chunk = Ok chunk'.
Proof.
  destruct pcm as [B P].
  induction fuel as [|fuel IH]; intros i chunk Hi Hm Hf; cbn [frameLoop];
    destruct (Z.ltb_spec i (length chunk)) as [L|L]; eauto; [lia|].
  assert (blockAlign format <= length chunk - i) as Hroom.
  { apply Z.mod_divide in Hm; [|lia]. destruct Hm as [k Hk].
    assert (0 < k) by nia. nia. }
  destruct (channelLoop_returns processed i (Z.to_nat (channels format)) Hi 0 chunk)
    as [c1 E]; try lia.
  rewrite E. cbn [bind]. apply channelLoop_length in E.
  assert (length c1 = length chunk) as El by (unfold length; now rewrite E).
  apply IH; rewrite ?El; try lia.
  replace (length chunk - (i + blockAlign format))
    with (length chunk - i + (-1) * blockAlign format) by lia.
  rewrite Z.mod_add by lia. exact Hm.
Qed.

Lemma transform_returns (processed : Z) (chunk : Buffer) :
  length chunk mod blockAlign format = 0 ->
  exists chunk', transform format levels processed chunk = Ok chunk'.
Proof.
  intros W. unfold transform. apply frameLoop_returns; try lia.
  - now rewrite Z.sub_0_r.
  - unfold length. lia.
Qed.

Lemma transformStream_returns (chunks : list Buffer) :
  Forall (fun chunk => length chunk mod blockAlign format = 0) chunks ->
  forall processed : Z,
    exists out, transformStream format levels processed chunks = Ok out.
Proof.
  intros W. induction W as [|chunk rest Hc Hr IH]; intros processed; cbn [transformStream].
  - eauto.
  - destruct (transform_returns processed chunk Hc) as [c1 ->]. cbn [bind].
    destruct (IH (processed + length chunk)) as [r1 ->]. cbn [bind]. eauto.
Qed.

(** On 16-bit little-endian PCM the pipeline returns, for any keyframes:
    the writer gets the format of the input and as many frames as the full
    chunks of 1024 frames hold. *)
Lemma pipeline_returns (body : Buffer) :
  exists out,
    pipeline format levels body = Ok (format, out)
    /\ frames format out = 1024 * (frames format body / 1024).
Proof.
  destruct pcm as [B P].
  destruct (transformStream_returns (Chunker (blockAlign format * 1024) false body))
    with (processed := 0) as [chunks E].
  { unfold Chunker. destruct (Z.leb_spec (blockAlign format * 1024) 0); [constructor|].
    eapply Forall_impl; [|apply chunksOf_sizes].
    cbn. intros chunk El. unfold length. rewrite El, Z2Nat.id by lia.
    rewrite Z.mul_comm. apply Z.mod_mul. lia. }
  exists (concat chunks).
  assert (pipeline format levels body = Ok (format, concat chunks)) as H
    by (unfold pipeline; now rewrite E).
  split; [exact H|]. eapply pipeline_output; [lia|exact H].
Qed.

End Returns.

(** C3 at a stream of one frame: the frame does not fill a chunk of 1024
    frames, the chunker keeps it back, and the output has no frame at all
    (the format is handed on unchanged). *)
Theorem pipeline_drops_tail :
  frames mono16 [x01; x02] = 1
  /\ forall levels : list Keyframe.t,
       pipeline mono16 levels [x01; x02] = Ok (mono16, [])
       /\ frames mono16 [] = 0.
Proof. repeat split. Qed.

(** ** The resolver: one ['channel_volume'] line *)

Section ControlChange.

Local Open Scope Q_scope.

Variable v : Resolver.Variant.

Lemma index_replace_eq (tracks : list Track.t) (i : Z) (old new : Track.t) :
  index tracks i = Some old ->
  index (Resolver.replace tracks (Z.to_nat i) new) i = Some new.
Proof.
  unfold index. destruct (Z.ltb_spec i 0); [discriminate|].
  generalize (Z.to_nat i). clear. intros n. revert n.
  induction tracks as [|a rest IH]; intros [|n]; cbn; try discriminate; auto.
Qed.

Lemma index_replace_neq (tracks : list Track.t) (i j : Z) (new : Track.t) :
  (0 <= i)%Z -> i <> j ->
  index (Resolver.replace tracks (Z.to_nat i) new) j = index tracks j.
Proof.
  unfold index. intros P N. destruct (Z.ltb_spec j 0); [reflexivity|].
  assert (Z.to_nat i <> Z.to_nat j) as N' by lia.
  revert N'. generalize (Z.to_nat i) (Z.to_nat j). clear. intros n m. revert n m.
  induction tracks as [|a rest IH]; intros [|n] [|m] N; cbn; try congruence.
  apply IH. congruence.
Qed.

Lemma pushControl_appends (s : Resolver.State) (time value3 : Q) (track : Track.t) :
  Track.volumeEvents (Resolver.pushControl s time value3 track) =
    Track.volumeEvents track ++ Resolver.appended s time value3 track.
Proof.
  unfold Resolver.pushControl, Resolver.appended.
  destruct (lastOf (Track.volumeEvents track)) as [lastEvent|]; [|reflexivity].
  destruct (gtb _ 0.1); [|reflexivity].
  cbn [Track.pushVolumeEvent Track.volumeEvents]. now rewrite <- app_assoc.
Qed.

Lemma keyframes_control (s : Resolver.State) (t0 value3 : Q) (i : Z) (track : Track.t) :
  index (Resolver.tracks s) i = Some track ->
  Resolver.keyframes (Resolver.step v s (Resolver.control t0 i value3)) i =
    Track.volumeEvents track ++ Resolver.appended s (Resolver.eventTime v t0) value3 track.
Proof.
  intros K. unfold Resolver.keyframes, Resolver.step, Resolver.control.
  cbn [Event.time Event.payload]. rewrite K. cbn [Resolver.tracks].
  rewrite (index_replace_eq _ _ _ _ K). apply pushControl_appends.
Qed.

Lemma keyframes_control_other (s : Resolver.State) (t0 value3 : Q) (i j : Z) :
  i <> j ->
  Resolver.keyframes (Resolver.step v s (Resolver.control t0 i value3)) j =
    Resolver.keyframes s j.
Proof.
  intros N. unfold Resolver.keyframes, Resolver.step, Resolver.control.
  cbn [Event.time Event.payload].
  destruct (index (Resolver.tracks s) i) as [track|] eqn:K; [|reflexivity].
  cbn [Resolver.tracks]. apply index_Some in K.
  now rewrite index_replace_neq by lia.
Qed.

Lemma keyframes_control_unknown (s : Resolver.State) (t0 value3 : Q) (i : Z) :
  index (Resolver.tracks s) i = None ->
  Resolver.step v s (Resolver.control t0 i value3) = s.
Proof.
  intros K. unfold Resolver.step, Resolver.control.
  cbn [Event.time Event.payload]. now rewrite K.
Qed.

End ControlChange.

Section StepHold.

Local Open Scope Q_scope.

Lemma initialTracks_empty (v : Resolver.Variant) (i : Z) (track : Track.t) :
  index (Resolver.initialTracks v) i = Some track -> Track.volumeEvents track = [].
Proof.
  unfold index. destruct (i <? 0)%Z; [discriminate|]. intros H.
  apply nth_error_In in H.
  destruct v; cbn in H; intuition (subst; reflexivity).
Qed.

Lemma lastOf_single {A : Type} (x : A) : lastOf [x] = Some x.
Proof. reflexivity. Qed.

Lemma lastOf_snoc {A : Type} (l : list A) (x : A) : lastOf (l ++ [x]) = Some x.
Proof.
  unfold lastOf, JS.length. rewrite length_app. cbn [List.length].
  replace (Z.of_nat (List.length l + 1) - 1)%Z with (Z.of_nat (List.length l)) by lia.
  rewrite index_nat, nth_error_app2 by lia. now rewrite Nat.sub_diag.
Qed.

Lemma lastOf_nil {A : Type} (l : list A) : lastOf l = None -> l = [].
Proof.
  destruct l as [|a l] using rev_ind; [reflexivity|]. now rewrite lastOf_snoc.
Qed.

End StepHold.

(** ** C2: the hold keyframe, decided in doubles *)

Section StepHoldDoubles.

Import PrimFloat.
#[local] Set Warnings "-inexact-float".

Lemma double_index_replace_eq (tracks : list Binary64.Track.t) (i : Z)
    (old new : Binary64.Track.t) :
  index tracks i = Some old ->
  index (Binary64.replace tracks (Z.to_nat i) new) i = Some new.
Proof.
  unfold index. destruct (Z.ltb_spec i 0); [discriminate|].
  generalize (Z.to_nat i). clear. intros n. revert n.
  induction tracks as [|a rest IH]; intros [|n]; cbn; try discriminate; auto.
Qed.

Lemma double_keyframes_control (v : Resolver.Variant) (s : Binary64.State)
    (t0 value3 : float) (i : Z) (track : Binary64.Track.t) :
  index (Binary64.tracks s) i = Some track ->
  Binary64.keyframes (Binary64.step v s (Binary64.control t0 i value3)) i =
    Binary64.Track.volumeEvents
      (Binary64.pushControl s (Binary64.eventTime v t0) value3 track).
Proof.
  intros K. unfold Binary64.keyframes, Binary64.step, Binary64.control.
  cbn [Binary64.Event.time Binary64.Event.payload]. rewrite K. cbn [Binary64.tracks].
  now rewrite (double_index_replace_eq _ _ _ _ K).
Qed.

Lemma double_initialTracks_empty (v : Resolver.Variant) (i : Z) (track : Binary64.Track.t) :
  index (Binary64.initialTracks v) i = Some track ->
  Binary64.Track.volumeEvents track = [].
Proof.
  intros K. unfold index in K. destruct (i <? 0); [discriminate|].
  apply nth_error_In in K. unfold Binary64.initialTracks in K.
  apply in_map_iff in K as ([[[id master] name] channels] & <- & _). reflexivity.
Qed.

(** The keyframes of a track after its first two ['channel_volume']
    lines: the hold keyframe lies between the two when the times pass the
    test of the loop. *)
Lemma double_two_controls (v : Resolver.Variant) (j : Z) (track : Binary64.Track.t)
    (t1 t2 a b : float) :
  index (Binary64.initialTracks v) j = Some track ->
  let s1 := Binary64.step v (Binary64.initial v) (Binary64.control t1 j a) in
  let time1 := Binary64.eventTime v t1 in
  let time2 := Binary64.eventTime v t2 in
  let k1 := Binary64.Keyframe.make time1 (Binary64.beat (Binary64.initial v) time1)
              (a / 127 * (a / 127) * 1.618)%float in
  let k2 := Binary64.Keyframe.make time2 (Binary64.beat s1 time2)
              (b / 127 * (b / 127) * 1.618)%float in
  Binary64.keyframes
    (Binary64.parse v [Binary64.control t1 j a; Binary64.control t2 j b]) j
  = if Double.apart time2 time1
    then [k1;
          Binary64.Keyframe.make (time2 - 0.05)%float
            (Binary64.beat s1 time2 - 0.05 / Binary64.beatDuration s1)%float
            (a / 127 * (a / 127) * 1.618)%float;
          k2]
    else [k1; k2].
Proof.
  intros K s1 time1 time2 k1 k2.
  pose proof (double_initialTracks_empty v j track K) as E0.
  unfold Binary64.parse. cbn [fold_left]. fold s1.
  assert (index (Binary64.tracks s1) j
          = Some (Binary64.pushControl (Binary64.initial v) time1 a track)) as K1.
  { subst s1. unfold Binary64.step, Binary64.control.
    cbn [Binary64.Event.time Binary64.Event.payload Binary64.initial Binary64.tracks].
    rewrite K. cbn [Binary64.tracks]. now apply double_index_replace_eq with (old := track). }
  rewrite (double_keyframes_control v s1 t2 b j _ K1). fold time2.
  assert (Binary64.Track.volumeEvents
            (Binary64.pushControl (Binary64.initial v) time1 a track) = [k1]) as E1.
  { unfold Binary64.pushControl. rewrite E0.
    change (lastOf (@nil Binary64.Keyframe.t)) with (@None Binary64.Keyframe.t).
    cbn [Binary64.Track.pushVolumeEvent Binary64.Track.volumeEvents].
    now rewrite E0. }
  unfold Binary64.pushControl at 1. rewrite E1, lastOf_single.
  change (Binary64.Keyframe.time k1) with time1.
  change (Binary64.Keyframe.value k1) with (a / 127 * (a / 127) * 1.618)%float.
  destruct (Double.apart time2 time1);
    cbn [Binary64.Track.pushVolumeEvent Binary64.Track.volumeEvents]; rewrite ?E1;
    reflexivity.
Qed.

(** C2, as stated, fails on log times whose decimal gap is 0.1 s: the
    lines at 0.7 and 0.8 are not more than 0.1 s apart, yet the doubles
    that the loop reads for them differ by 0.10000000000000009, more than
    the double 0.1, and the hold keyframe is inserted, at 0.75. *)
Lemma hold_on_a_gap_of_a_tenth :
  (0.8 - 0.7 <= 0.1)%Q
  /\ Binary64.decimal 7 10 = 0.7%float /\ Binary64.decimal 8 10 = 0.8%float
  /\ (0.8 - 0.7)%float = 0.10000000000000009%float
  /\ exists k1 hold k2,
       Binary64.keyframes
         (Binary64.parse Resolver.Plain
            [Binary64.control 0.7 2 127; Binary64.control 0.8 2 64]) 2
       = [k1; hold; k2]
       /\ Binary64.Keyframe.time k1 = 0.7%float
       /\ Binary64.Keyframe.time hold = 0.75%float
       /\ Binary64.Keyframe.value hold = Binary64.Keyframe.value k1
       /\ Binary64.Keyframe.time k2 = 0.8%float.
Proof.
  split; [discriminate|]. repeat (split; [reflexivity|]).
  do 3 eexists. split; [vm_compute; reflexivity|]. repeat split.
Qed.

(** A decimal gap of 0.1 s can also fall on the other side: the lines at
    0 and 0.1 get no hold keyframe. *)
Remark no_hold_on_a_gap_of_a_tenth :
  exists k1 k2,
    Binary64.keyframes
      (Binary64.parse Resolver.Plain
         [Binary64.control 0 2 127; Binary64.control 0.1 2 64]) 2
    = [k1; k2].
Proof. do 2 eexists. vm_compute. reflexivity. Qed.

(** C2.  A ['channel_volume'] line for a known track appends, when the
    track has a last keyframe and the difference [time - lastEvent.time],
    as the loop computes it in doubles, is above the double 0.1, a keyframe
    at [time - 0.05] with that last keyframe's gain and then the new
    keyframe; when that difference is not above 0.1, or the track has no
    keyframe yet, it appends the new keyframe alone.  Two lines for one
    track whose times are 0 and 0.3 give three keyframes, the middle one
    at 0.25 with the first one's gain; with times 0 and 0.05 they give
    two. *)
Theorem step_hold (v : Resolver.Variant) (s : Binary64.State) (i : Z)
    (track : Binary64.Track.t) (t0 value3 : float)
    (known : index (Binary64.tracks s) i = Some track) :
  let time := Binary64.eventTime v t0 in
  let after := Binary64.keyframes (Binary64.step v s (Binary64.control t0 i value3)) i in
  let new := Binary64.Keyframe.make time (Binary64.beat s time)
               (value3 / 127 * (value3 / 127) * 1.618)%float in
  (forall lastEvent,
     lastOf (Binary64.Track.volumeEvents track) = Some lastEvent ->
     (0.1 <? time - Binary64.Keyframe.time lastEvent)%float = true ->
     after = Binary64.Track.volumeEvents track
             ++ [Binary64.Keyframe.make (time - 0.05)%float
                   (Binary64.beat s time - 0.05 / Binary64.beatDuration s)%float
                   (Binary64.Keyframe.value lastEvent); new])
  /\ (forall lastEvent,
        lastOf (Binary64.Track.volumeEvents track) = Some lastEvent ->
        (0.1 <? time - Binary64.Keyframe.time lastEvent)%float = false ->
        after = Binary64.Track.volumeEvents track ++ [new])
  /\ (Binary64.Track.volumeEvents track = [] -> after = [new])
  /\ (forall (w : Resolver.Variant) (j : Z) (tr : Binary64.Track.t) (t1 t2 a b : float),
        index (Binary64.initialTracks w) j = Some tr ->
        Binary64.eventTime w t1 = 0%float ->
        (Binary64.eventTime w t2 = 0.3%float ->
         exists k1 hold k2,
           Binary64.keyframes
             (Binary64.parse w [Binary64.control t1 j a; Binary64.control t2 j b]) j
           = [k1; hold; k2]
           /\ Binary64.Keyframe.time k1 = 0%float
           /\ Binary64.Keyframe.value k1 = (a / 127 * (a / 127) * 1.618)%float
           /\ Binary64.Keyframe.time hold = 0.25%float
           /\ Binary64.Keyframe.value hold = Binary64.Keyframe.value k1
           /\ Binary64.Keyframe.time k2 = 0.3%float
           /\ Binary64.Keyframe.value k2 = (b / 127 * (b / 127) * 1.618)%float)
        /\ (Binary64.eventTime w t2 = 0.05%float ->
            exists k1 k2,
              Binary64.keyframes
                (Binary64.parse w [Binary64.control t1 j a; Binary64.control t2 j b]) j
              = [k1; k2]
              /\ Binary64.Keyframe.time k1 = 0%float
              /\ Binary64.Keyframe.time k2 = 0.05%float)).
Proof.
  intros time after new. subst after.
  rewrite (double_keyframes_control v s t0 value3 i track known). fold time.
  unfold Binary64.pushControl, Double.apart, Double.holdTime. fold new.
  split; [|split; [|split]].
  - intros lastEvent L G. rewrite L, G.
    cbn [Binary64.Track.pushVolumeEvent Binary64.Track.volumeEvents].
    now rewrite <- app_assoc.
  - intros lastEvent L G. now rewrite L, G.
  - intros E. rewrite E.
    change (lastOf (@nil Binary64.Keyframe.t)) with (@None Binary64.Keyframe.t).
    cbn [Binary64.Track.pushVolumeEvent Binary64.Track.volumeEvents]. now rewrite E.
  - intros w j tr t1 t2 a b K T1.
    split; intros T2; rewrite (double_two_controls w j tr t1 t2 a b K), T1, T2.
    + change (Double.apart 0.3 0) with true.
      do 3 eexists. split; [reflexivity|].
      cbn [Binary64.Keyframe.time Binary64.Keyframe.value]. repeat split.
    + change (Double.apart 0.05 0) with false.
      do 2 eexists. split; [reflexivity|].
      cbn [Binary64.Keyframe.time]. split; reflexivity.
Qed.

Lemma step_hold_witness :
  exists k1 hold k2,
    Binary64.keyframes
      (Binary64.parse Resolver.Plain [Binary64.control 0 2 127; Binary64.control 0.3 2 64]) 2
    = [k1; hold; k2]
    /\ Binary64.Keyframe.time hold = 0.25%float
    /\ Binary64.Keyframe.value hold = Binary64.Keyframe.value k1.
Proof.
  pose proof (step_hold Resolver.Plain (Binary64.initial Resolver.Plain) 0 _ 0 0 eq_refl)
    as (_ & _ & _ & Examples).
  destruct (proj1 (Examples Resolver.Plain 2%Z _ 0%float 0.3%float 127%float 64%float
                     eq_refl eq_refl) eq_refl)
    as (k1 & hold & k2 & E & _ & _ & T & V & _).
  exists k1, hold, k2. repeat split; assumption.
Defined.

(** In the first variant the times are the recorded ones times
    [recordingTimeMultiplier], rounded: lines recorded at 0 and 0.3 have
    their keyframes at 0 and 0.29998623063000002, the hold keyframe 0.05
    before the latter; it is the line recorded at 0.30001377000201418
    whose keyframe is at 0.3 and whose hold keyframe is at 0.25. *)
Remark double_recorded_times :
  (exists k1 hold k2,
     Binary64.keyframes
       (Binary64.parse Resolver.Synced
          [Binary64.control 0 0 127; Binary64.control 0.3 0 64]) 0
     = [k1; hold; k2]
     /\ Binary64.Keyframe.time k2 = (0.3 * 0.9999541021)%float
     /\ Binary64.Keyframe.time hold = (0.3 * 0.9999541021 - 0.05)%float
     /\ Binary64.Keyframe.value hold = Binary64.Keyframe.value k1)
  /\ Binary64.eventTime Resolver.Synced 0.30001377000201418 = 0.3%float
  /\ Binary64.eventTime Resolver.Synced 0.050002295000335699 = 0.05%float.
Proof.
  split; [|split; reflexivity].
  do 3 eexists. split; [vm_compute; reflexivity|]. repeat split.
Qed.

End StepHoldDoubles.

(** ** The resolver: keyframes only grow at the end *)

Section Growth.

Local Open Scope Q_scope.

Variable v : Resolver.Variant.

Lemma keyframes_close (s : Resolver.State) (j : Z) :
  Resolver.keyframes (Resolver.close v s) j = Resolver.keyframes s j.
Proof. reflexivity. Qed.

Lemma keyframes_initial (j : Z) : Resolver.keyframes (Resolver.initial v) j = [].
Proof.
  unfold Resolver.keyframes. cbn [Resolver.initial Resolver.tracks].
  destruct (index (Resolver.initialTracks v) j) as [track|] eqn:K; [|reflexivity].
  eapply initialTracks_empty; eassumption.
Qed.

(** What one line does to the keyframes of track [j]. *)
Lemma keyframes_step (s : Resolver.State) (line : option Event.t) (j : Z) :
  Resolver.keyframes (Resolver.step v s line) j =
    Resolver.keyframes s j ++
    match line with
    | Some (Event.make t0 (Event.ControlChange i value3)) =>
        match index (Resolver.tracks s) i with
        | Some track =>
            if (i =? j)%Z then Resolver.appended s (Resolver.eventTime v t0) value3 track
            else []
        | None => []
        end
    | _ => []
    end.
Proof.
  destruct line as [[t0 [|i value3|bpm|]]|]; try (now rewrite app_nil_r).
  change (Some (Event.make t0 (Event.ControlChange i value3)))
    with (Resolver.control t0 i value3).
  destruct (index (Resolver.tracks s) i) as [track|] eqn:K.
  - destruct (Z.eqb_spec i j) as [<-|N].
    + rewrite (keyframes_control v s t0 value3 i track K).
      unfold Resolver.keyframes. now rewrite K.
    + rewrite keyframes_control_other by assumption. now rewrite app_nil_r.
  - rewrite keyframes_control_unknown by assumption. now rewrite app_nil_r.
Qed.

Lemma keyframes_fold (log : list (option Event.t)) :
  forall (s : Resolver.State) (j : Z),
    exists later,
      Resolver.keyframes (fold_left (Resolver.step v) log s) j
      = Resolver.keyframes s j ++ later.
Proof.
  induction log as [|line rest IH]; intros s j; cbn [fold_left].
  - exists []. now rewrite app_nil_r.
  - destruct (IH (Resolver.step v s line) j) as [later E].
    rewrite E, keyframes_step, <- app_assoc. eauto.
Qed.

Lemma parse_app (log extra : list (option Event.t)) :
  Resolver.parse v (log ++ extra) = fold_left (Resolver.step v) extra (Resolver.parse v log).
Proof. unfold Resolver.parse. apply fold_left_app. Qed.

End Growth.

(** C7.  The keyframes that a log has produced stay as they are, at their
    places, whatever lines follow: the keyframes of [log ++ extra] are
    those of [log] with more at the end.  The keyframe of a
    ['channel_volume'] line has the time of the line, the beat computed
    from the state that the lines before it leave, and the gain of its
    value, and it is found right after the keyframes of the log up to that
    line in every extension. *)
Theorem causal_keyframes (v : Resolver.Variant) (log extra : list (option Event.t)) (j : Z) :
  (exists later,
     Resolver.keyframes (Resolver.resolve v (log ++ extra)) j
     = Resolver.keyframes (Resolver.resolve v log) j ++ later)
  /\ (forall (t0 value3 : Q) (track : Track.t),
        index (Resolver.tracks (Resolver.parse v log)) j = Some track ->
        let time := Resolver.eventTime v t0 in
        let k := Keyframe.make time (Resolver.beat (Resolver.parse v log) time)
                   (value3 / 127 * (value3 / 127) * 1.618)%Q in
        exists earlier later,
          Resolver.keyframes
            (Resolver.resolve v (log ++ [Resolver.control t0 j value3])) j
          = earlier ++ [k]
          /\ Resolver.keyframes
               (Resolver.resolve v (log ++ Resolver.control t0 j value3 :: extra)) j
             = earlier ++ k :: later).
Proof.
  unfold Resolver.resolve. split.
  - rewrite !keyframes_close, parse_app. apply keyframes_fold.
  - intros t0 value3 track K.
    rewrite !keyframes_close, !parse_app. cbn [fold_left].
    destruct (keyframes_fold v extra
                (Resolver.step v (Resolver.parse v log) (Resolver.control t0 j value3)) j)
      as [later E].
    rewrite E. clear E.
    rewrite (keyframes_control v _ t0 value3 j track K).
    unfold Resolver.appended.
    destruct (lastOf (Track.volumeEvents track)) as [lastEvent|].
    + destruct (gtb _ _).
      * eexists (Track.volumeEvents track ++ [_]), later.
        split; rewrite <- !app_assoc; reflexivity.
      * exists (Track.volumeEvents track), later.
        split; rewrite <- ?app_assoc; reflexivity.
    + exists (Track.volumeEvents track), later.
      split; rewrite <- ?app_assoc; reflexivity.
Qed.

Lemma causal_keyframes_witness :
  exists earlier later,
    Resolver.keyframes
      (Resolver.resolve Resolver.Plain ([] ++ [Resolver.control 0 0 127])) 0
    = earlier ++ [Keyframe.make 0 (0 + (0 - 0) / (60 / 120)) (127 / 127 * (127 / 127) * 1.618)%Q]
    /\ Resolver.keyframes
         (Resolver.resolve Resolver.Plain
            ([] ++ Resolver.control 0 0 127
                  :: [Some (Event.make 1 (Event.TempoChange 90))])) 0
       = earlier
         ++ Keyframe.make 0 (0 + (0 - 0) / (60 / 120)) (127 / 127 * (127 / 127) * 1.618)%Q
         :: later.
Proof.
  exact (proj2 (causal_keyframes Resolver.Plain []
                  [Some (Event.make 1 (Event.TempoChange 90))] 0)
           0%Q 127%Q _ eq_refl).
Defined.

(** ** The resolver: order of the keyframes *)

Section Order.

Local Open Scope Q_scope.

Lemma Qle_bool_true (x y : Q) : Qle_bool x y = true <-> x <= y.
Proof. apply Qle_bool_iff. Qed.

Lemma nondecreasing_snoc (l : list Q) (y x : Q) :
  Resolver.nondecreasing (l ++ [y]) = true -> y <= x ->
  Resolver.nondecreasing ((l ++ [y]) ++ [x]) = true.
Proof.
  intros H Hyx. induction l as [|a rest IH].
  - cbn. apply Qle_bool_true in Hyx. now rewrite Hyx.
  - cbn [app] in *. destruct rest as [|b rest].
    + cbn [app Resolver.nondecreasing] in *.
      apply andb_true_iff in H as [Hab _].
      apply Qle_bool_true in Hyx. now rewrite Hab, Hyx.
    + cbn [app Resolver.nondecreasing] in H |- *.
      apply andb_true_iff in H as [Hab Hr].
      rewrite Hab. cbn [andb]. apply IH. exact Hr.
Qed.

Lemma nondecreasing_tail (a : Q) (l : list Q) :
  Resolver.nondecreasing (a :: l) = true -> Resolver.nondecreasing l = true.
Proof.
  destruct l as [|b l]; [reflexivity|]. cbn [Resolver.nondecreasing].
  intros H. now apply andb_true_iff in H as [_ H].
Qed.

Lemma lastOf_Some_snoc {A : Type} (l : list A) (y : A) :
  lastOf l = Some y -> exists l', l = l' ++ [y].
Proof.
  destruct l as [|a l] using rev_ind; [discriminate|].
  rewrite lastOf_snoc. intros [= ->]. eauto.
Qed.

Variable v : Resolver.Variant.

Lemma eventTime_mono (t t' : Q) :
  t <= t' -> Resolver.eventTime v t <= Resolver.eventTime v t'.
Proof.
  destruct v; cbn [Resolver.eventTime]; [|auto].
  unfold Resolver.recordingTimeMultiplier. intros H. lra.
Qed.

Lemma ordered_weaken (s : Resolver.State) (bound bound' : Q) :
  bound <= bound' -> Resolver.ordered s bound -> Resolver.ordered s bound'.
Proof.
  intros B O j. destruct (O j) as [N L]. split; [exact N|].
  intros y Hy. specialize (L y Hy). lra.
Qed.

Lemma appended_ordered (s : Resolver.State) (time value3 bound : Q) (track : Track.t) :
  Resolver.nondecreasing (Resolver.times (Track.volumeEvents track)) = true ->
  (forall y, lastOf (Track.volumeEvents track) = Some y -> Keyframe.time y <= bound) ->
  bound <= time ->
  Resolver.nondecreasing
    (Resolver.times (Track.volumeEvents track ++ Resolver.appended s time value3 track)) = true
  /\ (forall y,
        lastOf (Track.volumeEvents track ++ Resolver.appended s time value3 track) = Some y ->
        Keyframe.time y <= time).
Proof.
  intros N L B. unfold Resolver.appended.
  destruct (lastOf (Track.volumeEvents track)) as [lastEvent|] eqn:E.
  - specialize (L lastEvent eq_refl).
    destruct (lastOf_Some_snoc _ _ E) as [l' El]. rewrite El in N |- *.
    unfold Resolver.times in *. rewrite map_app in N. cbn [map] in N.
    destruct (gtb (time - Keyframe.time lastEvent) 0.1) eqn:G.
    + apply gtb_gt in G. split.
      * change [?a; ?b] with ([a] ++ [b]). rewrite app_assoc, !map_app. cbn [map Keyframe.time].
        apply nondecreasing_snoc; [|lra].
        apply nondecreasing_snoc; [exact N|lra].
      * intros y. change [?a; ?b] with ([a] ++ [b]). rewrite !app_assoc, lastOf_snoc.
        intros [= <-]. cbn. lra.
    + split.
      * rewrite !map_app. cbn [map Keyframe.time].
        apply nondecreasing_snoc; [exact N|lra].
      * intros y. rewrite lastOf_snoc. intros [= <-]. cbn. lra.
  - apply lastOf_nil in E. rewrite E. cbn. split; [reflexivity|].
    intros y [= <-]. cbn. lra.
Qed.

Lemma step_ordered (s : Resolver.State) (event : Event.t) (bound : Q) :
  Resolver.ordered s bound -> bound <= Resolver.eventTime v (Event.time event) ->
  Resolver.ordered (Resolver.step v s (Some event)) (Resolver.eventTime v (Event.time event)).
Proof.
  intros O B j. rewrite keyframes_step.
  destruct (O j) as [N L].
  assert (Resolver.nondecreasing (Resolver.times (Resolver.keyframes s j ++ [])) = true
          /\ (forall y, lastOf (Resolver.keyframes s j ++ []) = Some y ->
                        Keyframe.time y <= Resolver.eventTime v (Event.time event))) as Same.
  { rewrite app_nil_r. split; [exact N|]. intros y Hy. specialize (L y Hy). lra. }
  destruct event as [t0 [|i value3|bpm|]]; try exact Same.
  cbn [Event.time] in *.
  destruct (index (Resolver.tracks s) i) as [track|] eqn:K; [|exact Same].
  destruct (Z.eqb_spec i j) as [<-|Ne]; [|exact Same].
  unfold Resolver.keyframes in N, L |- *. rewrite K in N, L |- *.
  eapply appended_ordered; eauto.
Qed.

Lemma fold_ordered (log : list (option Event.t)) :
  forall (s : Resolver.State) (bound : Q),
    Resolver.ordered s bound ->
    Resolver.nondecreasing (Resolver.timestamps log) = true ->
    (forall t rest, Resolver.timestamps log = t :: rest -> bound <= Resolver.eventTime v t) ->
    exists bound', Resolver.ordered (fold_left (Resolver.step v) log s) bound'.
Proof.
  induction log as [|[event|] rest IH]; intros s bound O M B; cbn [fold_left].
  - eauto.
  - cbn [Resolver.timestamps] in M, B.
    apply (IH _ (Resolver.eventTime v (Event.time event))).
    + apply (step_ordered s event bound O). eapply B. reflexivity.
    + eapply nondecreasing_tail. exact M.
    + intros t rest' E. rewrite E in M. cbn [Resolver.nondecreasing] in M.
      apply andb_true_iff in M as [M _]. apply Qle_bool_true in M.
      now apply eventTime_mono.
  - cbn [Resolver.timestamps] in M, B. apply (IH s bound); assumption.
Qed.

End Order.

(** C5, as stated, fails: two ['channel_volume'] lines with the same
    timestamp for the same track leave two keyframes at that time, in
    either variant, so the sequence is not strictly ascending. *)
Lemma same_time_keyframes_kept :
  let log := [Resolver.control 0 0 127; Resolver.control 0 0 0] in
  Resolver.nondecreasing (Resolver.timestamps log) = true
  /\ forall v,
       ascending (Resolver.keyframes (Resolver.resolve v log) 0) = false
       /\ exists k1 k2,
            Resolver.keyframes (Resolver.resolve v log) 0 = [k1; k2]
            /\ (Keyframe.time k1 == 0)%Q /\ (Keyframe.time k2 == 0)%Q
            /\ ~ (Keyframe.value k1 == Keyframe.value k2)%Q.
Proof.
  split; [reflexivity|].
  intros [|]; (split; [reflexivity|]); do 2 eexists;
    (split; [reflexivity|]); repeat split; discriminate.
Qed.

(** C5, amended.  For a log whose timestamps do not decrease, the keyframes
    of each track are in non-decreasing order of time; a step-hold keyframe
    lies strictly after the keyframe before it (and strictly before the new
    keyframe that follows it); and nothing is coalesced: every
    ['channel_volume'] line for a known track appends a keyframe of its own
    at its time, so lines with equal timestamps leave as many keyframes at
    that time, in log order. *)
Theorem keyframes_nondecreasing (v : Resolver.Variant) (log : list (option Event.t)) (j : Z)
    (sorted : Resolver.nondecreasing (Resolver.timestamps log) = true) :
  Resolver.nondecreasing (Resolver.times (Resolver.keyframes (Resolver.resolve v log) j)) = true
  /\ (forall (s : Resolver.State) (i : Z) (track : Track.t) (lastEvent : Keyframe.t)
             (t0 value3 : Q),
        index (Resolver.tracks s) i = Some track ->
        lastOf (Track.volumeEvents track) = Some lastEvent ->
        (0.1 < Resolver.eventTime v t0 - Keyframe.time lastEvent)%Q ->
        exists hold new,
          Resolver.keyframes (Resolver.step v s (Resolver.control t0 i value3)) i
          = Track.volumeEvents track ++ [hold; new]
          /\ Keyframe.value hold = Keyframe.value lastEvent
          /\ (Keyframe.time lastEvent < Keyframe.time hold)%Q
          /\ (Keyframe.time hold < Keyframe.time new)%Q)
  /\ (forall (s : Resolver.State) (i : Z) (track : Track.t) (t0 value3 : Q),
        index (Resolver.tracks s) i = Some track ->
        exists hold new,
          Resolver.keyframes (Resolver.step v s (Resolver.control t0 i value3)) i
          = Track.volumeEvents track ++ hold ++ [new]
          /\ Keyframe.time new = Resolver.eventTime v t0
          /\ (List.length hold <= 1)%nat).
Proof.
  split; [|split].
  - unfold Resolver.resolve. rewrite keyframes_close. unfold Resolver.parse.
    assert (forall bound, Resolver.ordered (Resolver.initial v) bound) as O.
    { intros bound k. rewrite keyframes_initial. split; [reflexivity|discriminate]. }
    destruct (Resolver.timestamps log) as [|t rest] eqn:E.
    + destruct (fold_ordered v log (Resolver.initial v) 0%Q (O _)) as [bound' H].
      * now rewrite E.
      * rewrite E. discriminate.
      * apply H.
    + destruct (fold_ordered v log (Resolver.initial v) (Resolver.eventTime v t) (O _))
        as [bound' H].
      * now rewrite E.
      * rewrite E. intros t' rest' [= <- _]. apply Qle_refl.
      * apply H.
  - intros s i track lastEvent t0 value3 K L G.
    rewrite (keyframes_control v s t0 value3 i track K).
    unfold Resolver.appended. rewrite L.
    assert (gtb (Resolver.eventTime v t0 - Keyframe.time lastEvent) 0.1 = true) as ->
      by now apply gtb_gt.
    do 2 eexists. split; [reflexivity|]. cbn [Keyframe.time Keyframe.value].
    split; [reflexivity|]. split; lra.
  - intros s i track t0 value3 K.
    rewrite (keyframes_control v s t0 value3 i track K).
    unfold Resolver.appended.
    destruct (lastOf (Track.volumeEvents track)) as [lastEvent|].
    + destruct (gtb _ _).
      * eexists [_], _. split; [reflexivity|]. split; [reflexivity|]. cbn. lia.
      * exists [], (Keyframe.make (Resolver.eventTime v t0)
                      (Resolver.beat s (Resolver.eventTime v t0))
                      (value3 / 127 * (value3 / 127) * 1.618)%Q).
        split; [reflexivity|]. split; [reflexivity|]. cbn. lia.
    + exists [], (Keyframe.make (Resolver.eventTime v t0)
                    (Resolver.beat s (Resolver.eventTime v t0))
                    (value3 / 127 * (value3 / 127) * 1.618)%Q).
      split; [reflexivity|]. split; [reflexivity|]. cbn. lia.
Qed.

Lemma keyframes_nondecreasing_witness :
  Resolver.nondecreasing
    (Resolver.times
       (Resolver.keyframes
          (Resolver.resolve Resolver.Synced
             [Resolver.control 0 1 100; None; Resolver.control 0.5 1 20;
              Resolver.control 0.5 1 30]) 1)) = true.
Proof.
  exact (proj1 (keyframes_nondecreasing Resolver.Synced
                  [Resolver.control 0 1 100; None; Resolver.control 0.5 1 20;
                   Resolver.control 0.5 1 30] 1 eq_refl)).
Defined.

(** ** The resolver: the tempo map *)

Section TempoMap.

Local Open Scope Q_scope.

Variable v : Resolver.Variant.

(** One entry is pushed after the loop, at the duration and the length
    that the loop has reached. *)
Lemma closing_entry (log : list (option Event.t)) :
  Resolver.tempoEvents (Resolver.resolve v log)
  = Resolver.tempoEvents (Resolver.parse v log) ++ [Resolver.closing v (Resolver.parse v log)]
  /\ TempoEvent.time (Resolver.closing v (Resolver.parse v log))
     = Resolver.duration (Resolver.parse v log)
  /\ TempoEvent.beat (Resolver.closing v (Resolver.parse v log))
     = Resolver.length (Resolver.parse v log).
Proof. repeat split. Qed.

(** The duration and the length are those of the last ['tick'] line. *)
Lemma duration_last_tick (log rest : list (option Event.t)) (t0 : Q) :
  (forall line, In line rest ->
     match line with Some (Event.make _ Event.Tick) => False | _ => True end) ->
  let s := Resolver.parse v log in
  let s' := Resolver.parse v (log ++ Some (Event.make t0 Event.Tick) :: rest) in
  Resolver.duration s' = Resolver.eventTime v t0
  /\ Resolver.length s' = Resolver.beat s (Resolver.eventTime v t0).
Proof.
  intros N. cbv zeta. rewrite parse_app. cbn [fold_left].
  set (s1 := Resolver.step v (Resolver.parse v log) (Some (Event.make t0 Event.Tick))).
  change (Resolver.eventTime v t0) with (Resolver.duration s1) at 1.
  change (Resolver.beat (Resolver.parse v log) (Resolver.eventTime v t0))
    with (Resolver.length s1).
  clearbody s1. revert s1. induction rest as [|line rest IH]; intros s1; [now split|].
  cbn [fold_left].
  assert (Resolver.duration (Resolver.step v s1 line) = Resolver.duration s1
          /\ Resolver.length (Resolver.step v s1 line) = Resolver.length s1) as [D L].
  { specialize (N line (or_introl eq_refl)).
    destruct line as [[t [|i value3|bpm|]]|]; try (now split).
    unfold Resolver.step. cbn [Event.payload Event.time].
    destruct (index (Resolver.tracks s1) i); now split. }
  rewrite <- D, <- L. apply IH. intros l Hl. apply N. now right.
Qed.

(** Without a ['tempo'] line the tempo map stays empty, the nominal tempo
    stays [null], and every beat is counted at 120 beats per minute. *)
Lemma no_tempo_change (log : list (option Event.t)) :
  existsb Resolver.isTempoChange log = false ->
  Resolver.tempoEvents (Resolver.parse v log) = []
  /\ Resolver.tempo (Resolver.parse v log) = None
  /\ Resolver.tempo (Resolver.resolve v log) = None
  /\ (forall time, Resolver.beat (Resolver.parse v log) time == time * (120 / 60)).
Proof.
  unfold Resolver.parse.
  assert (forall s,
            existsb Resolver.isTempoChange log = false ->
            Resolver.tempoEvents (fold_left (Resolver.step v) log s) = Resolver.tempoEvents s
            /\ Resolver.tempo (fold_left (Resolver.step v) log s) = Resolver.tempo s
            /\ Resolver.timeAtLastTempoChange (fold_left (Resolver.step v) log s)
               = Resolver.timeAtLastTempoChange s
            /\ Resolver.beatAtLastTempoChange (fold_left (Resolver.step v) log s)
               = Resolver.beatAtLastTempoChange s) as F.
  { induction log as [|line rest IH]; intros s H; cbn [fold_left]; [now repeat split|].
    cbn [existsb] in H. apply orb_false_iff in H as [Hl Hr].
    destruct (IH (Resolver.step v s line) Hr) as (E1 & E2 & E3 & E4).
    rewrite E1, E2, E3, E4.
    destruct line as [[t [|i value3|bpm|]]|]; try discriminate; try (now repeat split).
    unfold Resolver.step. cbn [Event.payload Event.time].
    destruct (index (Resolver.tracks s) i); now repeat split. }
  intros H. destruct (F (Resolver.initial v) H) as (E1 & E2 & E3 & E4).
  repeat split; try assumption.
  intros time. unfold Resolver.beat, Resolver.beatDuration.
  rewrite E1, E3, E4. cbn. field.
Qed.

End TempoMap.

(** In the second variant the closing entry repeats the tempo of the last
    tempo entry. *)
Lemma plain_closing_tempo (log : list (option Event.t)) (e : TempoEvent.t) :
  lastOf (Resolver.tempoEvents (Resolver.parse Resolver.Plain log)) = Some e ->
  TempoEvent.tempo (Resolver.closing Resolver.Plain (Resolver.parse Resolver.Plain log))
  = TempoEvent.tempo e.
Proof. intros L. unfold Resolver.closing. now rewrite L. Qed.

(** In the first variant it is that tempo times [tempoMultiplier]. *)
Lemma synced_closing_tempo (log : list (option Event.t)) (e : TempoEvent.t) :
  lastOf (Resolver.tempoEvents (Resolver.parse Resolver.Synced log)) = Some e ->
  TempoEvent.tempo (Resolver.closing Resolver.Synced (Resolver.parse Resolver.Synced log))
  = Some (Resolver.toNumber (TempoEvent.tempo e) * Resolver.tempoMultiplier Resolver.Synced)%Q.
Proof. intros L. unfold Resolver.closing. now rewrite L. Qed.

(** Without a ['tempo'] line the closing entry carries [null] in the
    second variant and [null * tempoMultiplier], which is 0, in the first. *)
Lemma closing_without_tempo (v : Resolver.Variant) (log : list (option Event.t)) :
  existsb Resolver.isTempoChange log = false ->
  match TempoEvent.tempo (Resolver.closing v (Resolver.parse v log)) with
  | Some tempo => v = Resolver.Synced /\ (tempo == 0)%Q
  | None => v = Resolver.Plain
  end.
Proof.
  intros H. destruct (no_tempo_change v log H) as (E & T & _).
  unfold Resolver.closing. rewrite E, T. cbn [lastOf index JS.length List.length].
  destruct v; cbn; [split; reflexivity | reflexivity].
Qed.

(** C4 in the first variant, on the log of the single line [[0, "tempo", 120]]:
    the tempo map is the entry of that line, with tempo
    [120 * tempoMultiplier], and the closing entry, whose tempo is
    [120 * tempoMultiplier * tempoMultiplier]: neither the 120 of the line
    nor the tempo of the last entry. *)
Theorem synced_closing_tempo_scaled_twice :
  let m := Resolver.tempoMultiplier Resolver.Synced in
  exists e closing,
    Resolver.tempoEvents
      (Resolver.resolve Resolver.Synced [Some (Event.make 0 (Event.TempoChange 120))])
    = [e; closing]
    /\ TempoEvent.tempo e = Some (120 * m)%Q
    /\ TempoEvent.tempo closing = Some (120 * m * m)%Q
    /\ ~ (120 * m * m == 120 * m)%Q
    /\ ~ (120 * m * m == 120)%Q.
Proof.
  do 2 eexists. split; [reflexivity|]. repeat split; discriminate.
Qed.

(** ** The sample numbers in IEEE doubles *)

Section Doubles.

Import PrimFloat.
#[local] Set Warnings "-inexact-float".

(** The interpolation example of C1 comes out as 0.5 exactly. *)
Lemma double_interpolation :
  Double.interpolation 0 0.2 1 0.8 0.5 = 0.5%float.
Proof. reflexivity. Qed.

(** The step-hold example of C2: 0.3 s is more than 0.1 s after 0, the hold
    keyframe is at 0.25 exactly, and 0.05 s is not more than 0.1 s after 0. *)
Lemma double_step_hold :
  Double.apart 0.3 0 = true /\ Double.holdTime 0.3 = 0.25%float
  /\ Double.apart 0.05 0 = false.
Proof. repeat split. Qed.

(** The closing tempo of the first variant differs from the tempo of the
    last entry in doubles as well. *)
Lemma double_closing_tempo :
  PrimFloat.eqb (120 * Double.tempoMultiplier * Double.tempoMultiplier)
                (120 * Double.tempoMultiplier) = false.
Proof. reflexivity. Qed.

End Doubles.

(** * Further properties of the two scripts *)

(** ** The gain lookup on keyframes with equal times *)

Lemma nondecreasing_cons (a : Q) (rest : list Q) :
  Resolver.nondecreasing (a :: rest) = true ->
  Forall (fun b => (a <= b)%Q) rest /\ Resolver.nondecreasing rest = true.
Proof.
  revert a. induction rest as [|b rest IH]; intros a H.
  - split; [constructor | reflexivity].
  - cbn [Resolver.nondecreasing] in H. apply andb_true_iff in H as [Hab Hr].
    apply Qle_bool_iff in Hab. split; [|exact Hr].
    constructor; [exact Hab|].
    destruct (IH b Hr) as [Hall _].
    eapply Forall_impl; [|exact Hall]. cbn. intros c Hc. lra.
Qed.

Lemma nondecreasing_nth (l : list Q) :
  Resolver.nondecreasing l = true ->
  forall (i j : nat) (a b : Q),
    nth_error l i = Some a -> nth_error l j = Some b -> (i <= j)%nat -> (a <= b)%Q.
Proof.
  induction l as [|e rest IH]; intros H i j a b Hi Hj Hij.
  - destruct i; discriminate.
  - apply nondecreasing_cons in H as [Hall Hr].
    destruct i as [|i]; cbn in Hi.
    + injection Hi as <-. destruct j as [|j]; cbn in Hj.
      * injection Hj as <-. apply Qle_refl.
      * rewrite Forall_forall in Hall. apply Hall. eapply nth_error_In; eassumption.
    + destruct j as [|j]; [lia|]. cbn in Hj. eapply IH; eauto. lia.
Qed.

Lemma nondescending_index (events : list Keyframe.t) :
  Levels.nondescending events = true ->
  forall (i j : Z) (a b : Keyframe.t),
    index events i = Some a -> index events j = Some b -> i <= j ->
    (Keyframe.time a <= Keyframe.time b)%Q.
Proof.
  intros H i j a b Hi Hj Hij.
  pose proof (index_Some _ _ _ Hi). pose proof (index_Some _ _ _ Hj).
  rewrite <- (Z2Nat.id i) in Hi by lia. rewrite <- (Z2Nat.id j) in Hj by lia.
  rewrite index_nat in Hi, Hj.
  apply (nondecreasing_nth _ H (Z.to_nat i) (Z.to_nat j)); [| |lia];
    unfold Resolver.times; now apply map_nth_error.
Qed.

Section SearchWithTies.

Variable events : list Keyframe.t.
Variable t : Q.
Hypothesis sorted : Levels.nondescending events = true.

Lemma bs_loop_ties (fuel : nat) :
  forall low high : Z,
    0 <= low -> high < length events -> low <= high + 1 ->
    high - low + 1 <= Z.of_nat fuel ->
    (forall i a, index events i = Some a -> i < low -> (Keyframe.time a < t)%Q) ->
    (forall i a, index events i = Some a -> high < i -> (t < Keyframe.time a)%Q) ->
    exists r, bs_loop fuel events t (fun a b => Keyframe.time a - b)%Q low high = Ok r
              /\ (found events t r \/ insertion events t r).
Proof.
  assert (forall low : Z,
            0 <= low ->
            (forall i a, index events i = Some a -> i < low -> (Keyframe.time a < t)%Q) ->
            forall high : Z,
              high < length events -> high < low -> low <= high + 1 ->
              (forall i a, index events i = Some a -> high < i -> (t < Keyframe.time a)%Q) ->
              insertion events t (bitnot low)) as Done.
  { intros low Hlow Hbelow high Hhigh Hlh Hle Habove. unfold insertion, bitnot, Z.lnot.
    replace (- Z.pred (- low) - 1) with low by lia.
    repeat split; try lia.
    - intros i a Hi Hc. apply (Hbelow i a Hi). lia.
    - intros i a Hi Hc. apply (Habove i a Hi). lia. }
  induction fuel as [|fuel IH]; intros low high Hlow Hhigh Hle Hfuel Hbelow Habove;
    cbn [bs_loop]; destruct (Z.leb_spec low high) as [Hlh|Hlh]; try lia;
    try (exists (bitnot low); split; [reflexivity|]; right; eapply Done; eauto; lia).
  pose proof (ushr1_bounds (high - low) ltac:(lia)) as Hmid.
  set (mid := low + ushr1 (high - low)) in *.
  destruct (index_inside events mid ltac:(lia)) as [probe Hprobe].
  rewrite Hprobe.
  destruct (ltb (Keyframe.time probe - t) 0) eqn:Elt.
  - apply ltb_lt in Elt.
    apply IH; try lia; [|exact Habove].
    intros i a Hi Hc.
    pose proof (nondescending_index events sorted i mid a probe Hi Hprobe ltac:(lia)).
    lra.
  - apply ltb_ge in Elt.
    destruct (gtb (Keyframe.time probe - t) 0) eqn:Egt.
    + apply gtb_gt in Egt.
      apply IH; try lia; [exact Hbelow|].
      intros i a Hi Hc.
      pose proof (nondescending_index events sorted mid i probe a Hprobe Hi ltac:(lia)).
      lra.
    + apply gtb_le in Egt.
      exists mid. split; [reflexivity|]. left.
      split; [lia|]. exists probe. split; [exact Hprobe|]. lra.
Qed.

Lemma bs_ties :
  exists r, bs events t (fun a b => Keyframe.time a - b)%Q = Ok r
            /\ (found events t r \/ insertion events t r).
Proof.
  unfold bs. apply bs_loop_ties; unfold length; try lia.
  - intros i a Hi Hc. apply index_Some in Hi. lia.
  - intros i a Hi Hc. apply index_Some in Hi. unfold length in Hi. lia.
Qed.

(** The five ways in which the lookup answers. *)
Lemma getVolume_ties :
  exists g,
    getVolume t events = Ok g
    /\ ((exists e, In e events /\ (Keyframe.time e == t)%Q /\ g = Keyframe.value e)
        \/ (exists i before after,
              index events i = Some before /\ index events (i + 1) = Some after
              /\ (Keyframe.time before < t)%Q /\ (t < Keyframe.time after)%Q
              /\ g = Levels.interpolated before after t)
        \/ (exists last,
              lastOf events = Some last /\ (Keyframe.time last < t)%Q
              /\ g = Keyframe.value last)
        \/ (exists first,
              index events 0 = Some first /\ (t < Keyframe.time first)%Q
              /\ g = Keyframe.value first)
        \/ (events = [] /\ g = 1%Q)).
Proof.
  destruct bs_ties as [r [Hbs [[Hr0 [a [Ha Hat]]]|(Hr0 & Hp & Hb & Ha)]]].
  - exists (Keyframe.value a). split; [eapply getVolume_found; eauto|].
    left. exists a. split; [|now split].
    unfold index in Ha. destruct (r <? 0); [discriminate|].
    eapply nth_error_In; eassumption.
  - rewrite (getVolume_insertion events t r Hbs Hr0).
    destruct (index events (- r - 2)) as [before|] eqn:Eb;
      destruct (index events (- r - 1)) as [after|] eqn:Ea.
    + eexists. split; [reflexivity|]. right. left.
      exists (- r - 2), before, after.
      replace (- r - 2 + 1) with (- r - 1) by lia.
      repeat split; try assumption.
      * apply (Hb _ _ Eb). lia.
      * apply (Ha _ _ Ea). lia.
    + eexists. split; [reflexivity|]. right. right. left.
      exists before. split; [|split; [apply (Hb _ _ Eb); lia | reflexivity]].
      unfold lastOf. pose proof (index_Some _ _ _ Eb).
      assert (length events <= - r - 1).
      { destruct (Z.le_gt_cases (length events) (- r - 1)) as [L|G]; [exact L|].
        destruct (index_inside events (- r - 1) ltac:(lia)) as [x Hx]. congruence. }
      now replace (length events - 1) with (- r - 2) by lia.
    + eexists. split; [reflexivity|]. right. right. right. left.
      exists after. split; [|split; [apply (Ha _ _ Ea); lia | reflexivity]].
      pose proof (index_Some _ _ _ Ea).
      assert (- r - 1 <= 0).
      { destruct (Z.le_gt_cases (- r - 1) 0) as [L|G]; [exact L|].
        destruct (index_inside events (- r - 2) ltac:(lia)) as [x Hx]. congruence. }
      now replace 0 with (- r - 1) by lia.
    + eexists. split; [reflexivity|]. right. right. right. right.
      split; [|reflexivity].
      destruct events as [|e rest]; [reflexivity|]. exfalso.
      destruct (Z.eq_dec (- r - 1) 0) as [E|N].
      * rewrite E in Ea. discriminate.
      * destruct (index_inside (e :: rest) (- r - 2)) as [x Hx]; [|congruence].
        unfold length in *. cbn [List.length] in *. lia.
Qed.

End SearchWithTies.

Lemma index_In {A : Type} (arr : list A) (i : Z) (x : A) :
  index arr i = Some x -> In x arr.
Proof.
  unfold index. destruct (i <? 0); [discriminate|]. apply nth_error_In.
Qed.

Lemma interpolated_between (before after : Keyframe.t) (t lo hi : Q) :
  (Keyframe.time before < t)%Q -> (t < Keyframe.time after)%Q ->
  (lo <= Keyframe.value before)%Q -> (Keyframe.value before <= hi)%Q ->
  (lo <= Keyframe.value after)%Q -> (Keyframe.value after <= hi)%Q ->
  (lo <= Levels.interpolated before after t)%Q /\ (Levels.interpolated before after t <= hi)%Q.
Proof.
  intros Hb Ha L1 U1 L2 U2. unfold Levels.interpolated.
  set (pos := ((t - Keyframe.time before) / (Keyframe.time after - Keyframe.time before))%Q).
  assert (0 <= pos)%Q as P0.
  { apply Qlt_le_weak. apply Qlt_shift_div_l; lra. }
  assert (pos <= 1)%Q as P1.
  { apply Qle_shift_div_r; lra. }
  clearbody pos. split; nra.
Qed.

(** X1.  On keyframes in non-decreasing order of time, equal times
    allowed, [getVolume] answers in one of five ways: the gain of a
    keyframe whose time is the query time; between two neighbours, one
    strictly before and one strictly after the query time, their
    interpolation (whose divisor is then positive); the last keyframe's
    gain after it; the first keyframe's gain before it; 1 when there is no
    keyframe. *)
Theorem lookup_with_ties (events : list Keyframe.t) (t : Q)
    (sorted : Levels.nondescending events = true) :
  exists g,
    getVolume t events = Ok g
    /\ ((exists e, In e events /\ (Keyframe.time e == t)%Q /\ g = Keyframe.value e)
        \/ (exists i before after,
              index events i = Some before /\ index events (i + 1) = Some after
              /\ (Keyframe.time before < t)%Q /\ (t < Keyframe.time after)%Q
              /\ g = Levels.interpolated before after t)
        \/ (exists last,
              lastOf events = Some last /\ (Keyframe.time last < t)%Q
              /\ g = Keyframe.value last)
        \/ (exists first,
              index events 0 = Some first /\ (t < Keyframe.time first)%Q
              /\ g = Keyframe.value first)
        \/ (events = [] /\ g = 1%Q)).
Proof. exact (getVolume_ties events t sorted). Qed.

Lemma lookup_with_ties_witness :
  exists g,
    getVolume 0.5 [Keyframe.make 0 0 0.2; Keyframe.make 0 0 0.4; Keyframe.make 1 2 0.8] = Ok g.
Proof.
  destruct (lookup_with_ties
              [Keyframe.make 0 0 0.2; Keyframe.make 0 0 0.4; Keyframe.make 1 2 0.8] 0.5 eq_refl)
    as [g [G _]].
  exists g. exact G.
Defined.

Lemma getVolume_bounded (events : list Keyframe.t) (t lo hi : Q) :
  Levels.nondescending events = true -> events <> [] ->
  Forall (fun e => (lo <= Keyframe.value e)%Q /\ (Keyframe.value e <= hi)%Q) events ->
  exists g, getVolume t events = Ok g /\ (lo <= g)%Q /\ (g <= hi)%Q.
Proof.
  intros sorted some bounded. rewrite Forall_forall in bounded.
  destruct (getVolume_ties events t sorted) as [g [G C]]. exists g. split; [exact G|].
  destruct C as [(e & I & _ & ->)|[(i & before & after & Hb & Ha & Tb & Ta & ->)
                |[(last & L & _ & ->)|[(first & F & _ & ->)|[E _]]]]].
  - now apply bounded.
  - destruct (bounded before (index_In _ _ _ Hb)).
    destruct (bounded after (index_In _ _ _ Ha)).
    now apply interpolated_between.
  - apply bounded. unfold lastOf in L. eapply index_In; eassumption.
  - apply bounded. eapply index_In; eassumption.
  - contradiction.
Qed.

(** X2.  The lookup does not overshoot: on a non-empty keyframe sequence in
    non-decreasing order of time whose gains all lie between [lo] and
    [hi], the gain returned for any time lies between [lo] and [hi]. *)
Theorem lookup_within_gains (events : list Keyframe.t) (t lo hi : Q)
    (sorted : Levels.nondescending events = true)
    (some : events <> [])
    (bounded : Forall (fun e => (lo <= Keyframe.value e)%Q /\ (Keyframe.value e <= hi)%Q) events) :
  exists g, getVolume t events = Ok g /\ (lo <= g)%Q /\ (g <= hi)%Q.
Proof. exact (getVolume_bounded events t lo hi sorted some bounded). Qed.

Lemma lookup_within_gains_witness :
  exists g,
    getVolume 0.25 [Keyframe.make 0 0 0.2; Keyframe.make 1 2 0.8] = Ok g
    /\ (0.2 <= g)%Q /\ (g <= 0.8)%Q.
Proof.
  refine (lookup_within_gains [Keyframe.make 0 0 0.2; Keyframe.make 1 2 0.8] 0.25 0.2 0.8
            eq_refl _ _).
  - discriminate.
  - repeat constructor; discriminate.
Defined.

(** ** [clip], [readFormat], [writeFormat] *)

(** X3.  For [min <= max], [clip] is idempotent, keeps the order of its
    arguments, and leaves a value between [min] and [max] as it is. *)
Theorem clip_order (min max : Q) (limits : (min <= max)%Q) :
  (forall value, clip (clip value min max) min max = clip value min max)
  /\ (forall value value',
        (value <= value')%Q -> (clip value min max <= clip value' min max)%Q)
  /\ (forall value, (min <= value)%Q -> (value <= max)%Q -> clip value min max = value).
Proof.
  assert (forall value, (min <= value)%Q -> (value <= max)%Q -> clip value min max = value) as Id.
  { intros value L U. unfold clip.
    apply gtb_le in U. apply ltb_ge in L. now rewrite U, L. }
  split; [|split; [|exact Id]].
  - intros value. destruct (clip_range value min max limits). now apply Id.
  - intros value value' H.
    destruct (clip_cases value min max limits) as [[A ->]|[[A ->]|(A1 & A2 & ->)]];
      destruct (clip_cases value' min max limits) as [[B ->]|[[B ->]|(B1 & B2 & ->)]]; lra.
Qed.

Lemma clip_order_witness :
  clip (clip 7 0 5) 0 5 = clip 7%Q 0 5.
Proof.
  exact (proj1 (clip_order 0%Q 5%Q ltac:(discriminate)) 7%Q).
Defined.

Lemma readInt16LE_same (buf buf' : Buffer) (offset : Z) :
  index buf' offset = index buf offset ->
  index buf' (offset + 1) = index buf (offset + 1) ->
  readInt16LE buf' offset = readInt16LE buf offset.
Proof. unfold readInt16LE. now intros -> ->. Qed.

Lemma writeInt16LE_elsewhere (buf buf' : Buffer) (value : Q) (offset : Z) :
  writeInt16LE buf value offset = Ok buf' ->
  forall j, j <> offset -> j <> offset + 1 -> index buf' j = index buf j.
Proof.
  unfold writeInt16LE. destruct (_ || _); [discriminate|].
  destruct ((offset <? 0) || (length buf <? offset + 2)) eqn:B; [discriminate|].
  apply orb_false_iff in B as [B1 B2]. apply Z.ltb_ge in B1.
  intros [= <-] j N1 N2.
  rewrite index_store_neq by lia. now rewrite index_store_neq by lia.
Qed.

(** X4.  On a supported format [readFormat] and [writeFormat] raise a
    [RangeError] exactly when the two bytes at [offset] do not lie inside
    the buffer, whatever the value to write; a write that succeeds keeps
    the length of the buffer and every byte other than those two. *)
Theorem sample_access (format : Format) (buf : Buffer) (fmt : supported format = true) :
  (forall offset,
     readFormat buf offset format = Throw RangeError
     <-> offset < 0 \/ length buf < offset + 2)
  /\ (forall value offset,
        writeFormat buf value offset format = Throw RangeError
        <-> offset < 0 \/ length buf < offset + 2)
  /\ (forall value offset buf',
        writeFormat buf value offset format = Ok buf' ->
        List.length buf' = List.length buf
        /\ forall j, j <> offset -> j <> offset + 1 -> index buf' j = index buf j).
Proof.
  split; [|split].
  - intros offset. unfold readFormat, readInt16LE. rewrite fmt. split.
    + intros H. destruct (Z.lt_ge_cases offset 0) as [L|G]; [now left|]. right.
      destruct (Z.lt_ge_cases (length buf) (offset + 2)) as [L|G2]; [exact L|]. exfalso.
      destruct (index_inside buf offset ltac:(lia)) as [a Ha].
      destruct (index_inside buf (offset + 1) ltac:(lia)) as [b Hb].
      rewrite Ha, Hb in H. discriminate.
    + intros [L|L].
      * now rewrite (index_outside buf offset) by lia.
      * destruct (index buf offset); [|reflexivity].
        now rewrite (index_outside buf (offset + 1)) by lia.
  - intros value offset. unfold writeFormat, writeInt16LE. rewrite fmt.
    destruct (clip_range value _ _ int16_limits) as [Lo Hi].
    apply gtb_le in Hi. apply ltb_ge in Lo. rewrite Hi, Lo. cbn [orb].
    destruct (Z.ltb_spec offset 0); cbn [orb]; [intuition lia|].
    destruct (Z.ltb_spec (length buf) (offset + 2)); [intuition lia|].
    split; [discriminate|lia].
  - intros value offset buf'. unfold writeFormat. rewrite fmt. intros W. split.
    + eapply writeInt16LE_length; eassumption.
    + eapply writeInt16LE_elsewhere; eassumption.
Qed.

Lemma sample_access_witness :
  readFormat [x01; x02; x03] 2 mono16 = Throw RangeError.
Proof.
  apply (proj1 (sample_access mono16 [x01; x02; x03] eq_refl) 2).
  right. reflexivity.
Defined.

(** ** What the transform does to each sample, in doubles *)

Section TransformSamples.

Import PrimFloat.
#[local] Set Warnings "-inexact-float".

Lemma double_bs_loop_returns {A : Type} (haystack : list A) (needle : float)
    (comparator : A -> float -> float) (fuel : nat) :
  forall low high : Z,
    0 <= low -> high < length haystack -> high - low + 1 <= Z.of_nat fuel ->
    exists r, Binary64.bs_loop fuel haystack needle comparator low high = Ok r
              /\ r < length haystack.
Proof.
  induction fuel as [|fuel IH]; intros low high Hl Hh Hf; cbn [Binary64.bs_loop];
    destruct (Z.leb_spec low high) as [L|L]; try lia;
    try (exists (bitnot low); split; [reflexivity | unfold bitnot, Z.lnot, length; lia]).
  pose proof (ushr1_bounds (high - low) ltac:(lia)) as M.
  set (mid := low + ushr1 (high - low)) in *.
  destruct (index_inside haystack mid ltac:(lia)) as [probe P]. rewrite P.
  destruct (_ <? 0)%float; [apply IH; lia|].
  destruct (0 <? _)%float; [apply IH; lia|].
  exists mid. split; [reflexivity|lia].
Qed.

Lemma double_getVolume_returns (t : float) (events : list Binary64.Keyframe.t) :
  exists g, Binary64.getVolume t events = Ok g.
Proof.
  unfold Binary64.getVolume, Binary64.bs.
  destruct (double_bs_loop_returns events t
              (fun a b => Binary64.Keyframe.time a - b)%float
              (List.length events) 0 (length events - 1)) as [r [E R]];
    try (unfold length; lia).
  rewrite E. cbn [bind]. destruct (Z.leb_spec 0 r).
  - destruct (index_inside events r ltac:(lia)) as [e ->]. eauto.
  - destruct (index events _), (index events _); eauto.
Qed.

(** What [clip] returns is never refused by the range test of
    [writeInt16LE], NaN included. *)
Lemma double_clip_passes (value : float) :
  let clipped := Binary64.clip value (-32768) 32767 in
  (32767 <? clipped)%float || (clipped <? -32768)%float = false.
Proof.
  unfold Binary64.clip.
  destruct (32767 <? value)%float eqn:Above; [reflexivity|].
  destruct (value <? -32768)%float eqn:Below; [reflexivity|].
  now rewrite Above, Below.
Qed.

Lemma double_writeFormat_inside (format : Format) (buf : Buffer) (value : float)
    (offset : Z) :
  supported format = true -> 0 <= offset -> offset + 2 <= length buf ->
  exists buf',
    Binary64.writeFormat buf value offset format = Ok buf'
    /\ List.length buf' = List.length buf
    /\ readInt16LE buf' offset = Ok (Binary64.stored value)
    /\ (forall j, j <> offset -> j <> offset + 1 -> index buf' j = index buf j).
Proof.
  intros fmt O B. unfold Binary64.writeFormat, Binary64.writeInt16LE. rewrite fmt.
  rewrite double_clip_passes.
  destruct (Z.ltb_spec offset 0); [lia|].
  destruct (Z.ltb_spec (length buf) (offset + 2)); [lia|]. cbn [orb].
  eexists. split; [reflexivity|]. split; [now rewrite !store_length|]. split.
  - unfold readInt16LE, Binary64.stored.
    rewrite index_store_neq by lia. rewrite index_store_eq by lia.
    rewrite index_store_eq by (unfold length in *; rewrite store_length; lia).
    reflexivity.
  - intros j N1 N2. rewrite index_store_neq by lia. now rewrite index_store_neq by lia.
Qed.

Variable format : Format.
Variable levels : list Binary64.Keyframe.t.
Hypothesis fmt : supported format = true.
Hypothesis pcm : blockAlign format = channels format * 2 /\ 0 < channels format.

Lemma double_sample_effect (processed i channel : Z) (chunk : Buffer) (g : float) :
  Binary64.getVolume (Binary64.frameTime format processed i) levels = Ok g ->
  0 <= i + 2 * channel -> i + 2 * channel + 2 <= length chunk ->
  exists s chunk',
    readInt16LE chunk (i + 2 * channel) = Ok s
    /\ Binary64.sample format levels processed i channel chunk = Ok chunk'
    /\ List.length chunk' = List.length chunk
    /\ readInt16LE chunk' (i + 2 * channel) = Ok (Binary64.stored (Binary64.ofZ s * g))
    /\ (forall j, j <> i + 2 * channel -> j <> i + 2 * channel + 1 ->
                  index chunk' j = index chunk j).
Proof.
  intros G L U. unfold Binary64.sample, readFormat. rewrite fmt.
  rewrite (channelBytes_pcm format pcm), G.
  destruct (index_inside chunk (i + 2 * channel) ltac:(lia)) as [first F].
  destruct (index_inside chunk (i + 2 * channel + 1) ltac:(lia)) as [last La].
  assert (readInt16LE chunk (i + 2 * channel) = Ok (int16 first last)) as R
    by (unfold readInt16LE; now rewrite F, La).
  rewrite R. cbn [bind].
  destruct (double_writeFormat_inside format chunk (Binary64.ofZ (int16 first last) * g)
              (i + 2 * channel) fmt L U) as (chunk' & W & Len & R' & O).
  exists (int16 first last), chunk'. repeat split; assumption.
Qed.

Lemma double_channelLoop_effect (processed i : Z) (g : float) (fuel : nat) :
  Binary64.getVolume (Binary64.frameTime format processed i) levels = Ok g ->
  0 <= i ->
  forall (channel : Z) (chunk : Buffer),
    i + blockAlign format <= length chunk ->
    0 <= channel -> channels format - channel <= Z.of_nat fuel ->
    exists chunk',
      Binary64.channelLoop format levels fuel processed i channel chunk = Ok chunk'
      /\ List.length chunk' = List.length chunk
      /\ (forall c, channel <= c < channels format ->
            exists s, readInt16LE chunk (i + 2 * c) = Ok s
                      /\ readInt16LE chunk' (i + 2 * c)
                         = Ok (Binary64.stored (Binary64.ofZ s * g)))
      /\ (forall j, j < i + 2 * channel \/ i + blockAlign format <= j ->
                    index chunk' j = index chunk j).
Proof.
  intros G Hi. destruct pcm as [B P].
  induction fuel as [|fuel IH]; intros channel chunk Hb Hc Hf; cbn [Binary64.channelLoop];
    destruct (Z.ltb_spec channel (channels format)) as [L|L]; try lia;
    try (exists chunk; split; [reflexivity|]; split; [reflexivity|];
         split; [intros c Hcc; lia | reflexivity]).
  destruct (double_sample_effect processed i channel chunk g G)
    as (s & c1 & R & E & Len & R1 & O1); try lia.
  rewrite E. cbn [bind].
  assert (length c1 = length chunk) as El by (unfold length; now rewrite Len).
  destruct (IH (channel + 1) c1) as (chunk' & E' & Len' & S' & O'); try lia.
  exists chunk'. split; [exact E'|]. split; [congruence|]. split.
  - intros c Hcc. destruct (Z.eq_dec c channel) as [->|N].
    + exists s. split; [exact R|]. rewrite <- R1.
      apply readInt16LE_same; apply O'; lia.
    + destruct (S' c ltac:(lia)) as (s' & Rs & Rs'). exists s'. split; [|exact Rs'].
      rewrite <- Rs. symmetry. apply readInt16LE_same; apply O1; lia.
  - intros j Hj. rewrite O' by lia. apply O1; lia.
Qed.

Lemma double_frameLoop_effect (processed : Z) (fuel : nat) :
  forall (i : Z) (chunk : Buffer),
    0 <= i -> (length chunk - i) mod blockAlign format = 0 ->
    length chunk - i <= Z.of_nat fuel ->
    exists chunk',
      Binary64.frameLoop format levels fuel processed i chunk = Ok chunk'
      /\ List.length chunk' = List.length chunk
      /\ (forall i' c,
            i <= i' < length chunk -> (i' - i) mod blockAlign format = 0 ->
            0 <= c < channels format ->
            exists s g,
              readInt16LE chunk (i' + 2 * c) = Ok s
              /\ Binary64.getVolume (Binary64.frameTime format processed i') levels = Ok g
              /\ readInt16LE chunk' (i' + 2 * c)
                 = Ok (Binary64.stored (Binary64.ofZ s * g)))
      /\ (forall j, j < i -> index chunk' j = index chunk j).
Proof.
  destruct pcm as [B P].
  induction fuel as [|fuel IH]; intros i chunk Hi Hm Hf; cbn [Binary64.frameLoop];
    destruct (Z.ltb_spec i (length chunk)) as [L|L]; try lia;
    try (exists chunk; split; [reflexivity|]; split; [reflexivity|];
         split; [intros; lia | reflexivity]).
  assert (blockAlign format <= length chunk - i) as Hroom.
  { apply Z.mod_divide in Hm; [|lia]. destruct Hm as [k Hk].
    assert (0 < k) by nia. nia. }
  destruct (double_getVolume_returns (Binary64.frameTime format processed i) levels)
    as [g G].
  destruct (double_channelLoop_effect processed i g (Z.to_nat (channels format)) G Hi
              0 chunk) as (c1 & E & Len & S1 & O1); try lia.
  rewrite E. cbn [bind].
  assert (length c1 = length chunk) as El by (unfold length; now rewrite Len).
  destruct (IH (i + blockAlign format) c1) as (chunk' & E' & Len' & S' & O');
    rewrite ?El; try lia.
  { replace (length chunk - (i + blockAlign format))
      with (length chunk - i + (-1) * blockAlign format) by lia.
    rewrite Z.mod_add by lia. exact Hm. }
  exists chunk'. split; [exact E'|]. split; [congruence|]. split.
  - intros i' c Hi' Hmi Hc. destruct (Z.eq_dec i' i) as [->|N].
    + destruct (S1 c ltac:(lia)) as (s & Rs & Rs1). exists s, g.
      split; [exact Rs|]. split; [exact G|]. rewrite <- Rs1.
      apply readInt16LE_same; apply O'; lia.
    + assert (i + blockAlign format <= i') as Far.
      { apply Z.mod_divide in Hmi; [|lia]. destruct Hmi as [k Hk].
        assert (0 < k) by nia. nia. }
      destruct (S' i' c) as (s & g' & Rs & G' & Rs'); try lia.
      { replace (i' - (i + blockAlign format)) with (i' - i + (-1) * blockAlign format) by lia.
        rewrite Z.mod_add by lia. exact Hmi. }
      exists s, g'. split; [|split; [exact G'|exact Rs']].
      rewrite <- Rs. symmetry. apply readInt16LE_same; apply O1; lia.
  - intros j Hj. rewrite O' by lia. apply O1; lia.
Qed.

Lemma double_transform_effect (processed : Z) (chunk : Buffer) :
  length chunk mod blockAlign format = 0 ->
  exists chunk',
    Binary64.transform format levels processed chunk = Ok chunk'
    /\ List.length chunk' = List.length chunk
    /\ forall f c,
         0 <= f -> f * blockAlign format < length chunk -> 0 <= c < channels format ->
         exists s g,
           readInt16LE chunk (f * blockAlign format + 2 * c) = Ok s
           /\ Binary64.getVolume
                (Binary64.frameTime format processed (f * blockAlign format)) levels = Ok g
           /\ readInt16LE chunk' (f * blockAlign format + 2 * c)
              = Ok (Binary64.stored (Binary64.ofZ s * g)).
Proof.
  intros W. destruct pcm as [B P].
  destruct (double_frameLoop_effect processed (List.length chunk) 0 chunk)
    as (chunk' & E & Len & S' & _); try lia.
  { now rewrite Z.sub_0_r. }
  { unfold length. lia. }
  exists chunk'. split; [exact E|]. split; [exact Len|].
  intros f c Hf Hl Hc. apply (S' (f * blockAlign format) c); try lia.
  rewrite Z.sub_0_r. apply Z.mod_mul. lia.
Qed.

End TransformSamples.

Section SamplesInDoubles.

Import PrimFloat.
#[local] Set Warnings "-inexact-float".

(** The product is rounded before it is truncated: with [byteRate] 2 and
    the keyframes (0, 0) and (49, 1), the second frame is looked up at 1 s,
    its gain is the double nearest 1/49, and the sample 49 times that gain
    is 0.9999999999999999, stored as 0, where the exact product is 1. *)
Remark double_rounded_product :
  let format := {| endianness := LE; channels := 1; sampleRate := 1;
                   byteRate := 2; blockAlign := 2; bitDepth := 16 |} in
  Binary64.transform format
    [Binary64.Keyframe.make 0 0 0; Binary64.Keyframe.make 49 0 1] 0 [x31; x00; x31; x00]
  = Ok [x00; x00; x00; x00]
  /\ Binary64.stored (Binary64.ofZ 49 * (1 / 49))%float = 0
  /\ truncate (clip (inject_Z 49 * (1 / 49)) (inject_Z (-0x8000)) (inject_Z 0x7FFF)) = 1.
Proof. repeat split. Qed.

(** X5.  For 16-bit little-endian PCM ([blockAlign = 2 * channels]) and a
    chunk of whole frames, [transform], with its arithmetic in doubles,
    returns a chunk of the same length in which the sample of every frame
    [f] and channel [c] is what [writeFormat] stores for the rounded
    product of the input sample and the gain looked up at the frame's time
    [(processed + f * blockAlign) / byteRate]: one gain per frame, the
    same for all its channels.  The byte counts are within the integers
    that doubles hold exactly. *)
Theorem transform_samples (format : Format) (levels : list Binary64.Keyframe.t)
    (processed : Z) (chunk : Buffer)
    (fmt : supported format = true)
    (pcm : blockAlign format = channels format * 2 /\ 0 < channels format)
    (whole : length chunk mod blockAlign format = 0)
    (exact : 0 <= processed /\ processed + length chunk <= 2 ^ 53
             /\ 0 <= byteRate format <= 2 ^ 53) :
  exists chunk',
    Binary64.transform format levels processed chunk = Ok chunk'
    /\ List.length chunk' = List.length chunk
    /\ forall f c,
         0 <= f -> f * blockAlign format < length chunk -> 0 <= c < channels format ->
         exists s g,
           readInt16LE chunk (f * blockAlign format + 2 * c) = Ok s
           /\ Binary64.getVolume
                (Binary64.frameTime format processed (f * blockAlign format)) levels = Ok g
           /\ readInt16LE chunk' (f * blockAlign format + 2 * c)
              = Ok (Binary64.stored (Binary64.ofZ s * g)%float).
Proof. exact (double_transform_effect format levels fmt pcm processed chunk whole). Qed.

Lemma transform_samples_witness :
  exists chunk',
    Binary64.transform mono16 [Binary64.Keyframe.make 0 0 0.5] 0 [x04; x00; xfa; xff]
    = Ok chunk'
    /\ List.length chunk' = 4%nat.
Proof.
  destruct (transform_samples mono16 [Binary64.Keyframe.make 0 0 0.5] 0
              [x04; x00; xfa; xff] eq_refl (conj eq_refl eq_refl) eq_refl
              ltac:(unfold length; cbn; lia)) as (chunk' & E & L & _).
  exists chunk'. split; [exact E | exact L].
Defined.

End SamplesInDoubles.

(** ** The cut into chunks does not show in the output *)

Lemma index_app_left {A : Type} (l r : list A) (i : Z) :
  i < length l -> index (l ++ r) i = index l i.
Proof.
  unfold index, length. intros L. destruct (Z.ltb_spec i 0); [reflexivity|].
  apply nth_error_app1. lia.
Qed.

Lemma index_app_right {A : Type} (l r : list A) (i : Z) :
  0 <= i -> index (l ++ r) (length l + i) = index r i.
Proof.
  unfold index, length. intros P.
  destruct (Z.ltb_spec (Z.of_nat (List.length l) + i) 0); [lia|].
  destruct (Z.ltb_spec i 0); [lia|].
  rewrite nth_error_app2 by lia. f_equal. lia.
Qed.

Lemma store_app_left (l r : Buffer) (i : nat) (b : byte) :
  (i < List.length l)%nat -> store (l ++ r) i b = store l i b ++ r.
Proof.
  revert i. induction l as [|a l IH]; intros [|i] L; cbn in *; try lia; auto.
  f_equal. apply IH. lia.
Qed.

Lemma store_app_right (l r : Buffer) (i : nat) (b : byte) :
  store (l ++ r) (List.length l + i) b = l ++ store r i b.
Proof. induction l as [|a l IH]; cbn; [reflexivity|]. now rewrite IH. Qed.

Lemma length_app_Z {A : Type} (l r : list A) : length (l ++ r) = length l + length r.
Proof. unfold length. rewrite length_app. lia. Qed.

Lemma readInt16LE_app_left (l r : Buffer) (offset s : Z) :
  readInt16LE l offset = Ok s -> readInt16LE (l ++ r) offset = Ok s.
Proof.
  unfold readInt16LE.
  destruct (index l offset) as [a|] eqn:Ea; [|discriminate].
  destruct (index l (offset + 1)) as [b|] eqn:Eb; [|discriminate].
  pose proof (index_Some _ _ _ Ea). pose proof (index_Some _ _ _ Eb).
  rewrite !index_app_left by lia. now rewrite Ea, Eb.
Qed.

Lemma readInt16LE_app_right (l r : Buffer) (offset : Z) :
  0 <= offset -> readInt16LE (l ++ r) (length l + offset) = readInt16LE r offset.
Proof.
  intros P. unfold readInt16LE.
  rewrite <- Z.add_assoc, !index_app_right by lia. reflexivity.
Qed.

Lemma writeInt16LE_offset (buf buf' : Buffer) (value : Q) (offset : Z) :
  writeInt16LE buf value offset = Ok buf' -> 0 <= offset /\ offset + 2 <= length buf.
Proof.
  unfold writeInt16LE. destruct (_ || _); [discriminate|].
  destruct (Z.ltb_spec offset 0); [discriminate|].
  destruct (Z.ltb_spec (length buf) (offset + 2)); [discriminate|]. lia.
Qed.

Lemma writeInt16LE_app_left (l l' r : Buffer) (value : Q) (offset : Z) :
  writeInt16LE l value offset = Ok l' ->
  writeInt16LE (l ++ r) value offset = Ok (l' ++ r).
Proof.
  intros W. destruct (writeInt16LE_offset _ _ _ _ W) as [P B].
  revert W. unfold writeInt16LE. destruct (_ || _); [discriminate|].
  destruct (Z.ltb_spec offset 0); [lia|].
  destruct (Z.ltb_spec (length l) (offset + 2)); [lia|].
  destruct (Z.ltb_spec (length (l ++ r)) (offset + 2)) as [X|_];
    [rewrite length_app_Z in X; unfold length in *; lia|].
  cbn [orb]. intros [= <-]. f_equal. unfold length in *.
  rewrite store_app_left by lia. apply store_app_left. rewrite store_length. lia.
Qed.

Lemma writeInt16LE_app_right (l r r' : Buffer) (value : Q) (offset : Z) :
  writeInt16LE r value offset = Ok r' ->
  writeInt16LE (l ++ r) value (length l + offset) = Ok (l ++ r').
Proof.
  intros W. destruct (writeInt16LE_offset _ _ _ _ W) as [P B].
  revert W. unfold writeInt16LE. destruct (_ || _); [discriminate|].
  destruct (Z.ltb_spec offset 0); [lia|].
  destruct (Z.ltb_spec (length r) (offset + 2)); [lia|].
  destruct (Z.ltb_spec (length l + offset) 0); [unfold length in *; lia|].
  destruct (Z.ltb_spec (length (l ++ r)) (length l + offset + 2)) as [X|_];
    [rewrite length_app_Z in X; lia|].
  cbn [orb]. intros [= <-]. f_equal. unfold length.
  replace (Z.to_nat (Z.of_nat (List.length l) + offset))
    with (List.length l + Z.to_nat offset)%nat by lia.
  replace (Z.to_nat (Z.of_nat (List.length l) + offset + 1))
    with (List.length l + Z.to_nat (offset + 1))%nat by lia.
  now rewrite !store_app_right.
Qed.

Section Chunking.

Variable format : Format.
Variable levels : list Keyframe.t.

Lemma sample_app_left (processed i channel : Z) (l l' r : Buffer) :
  sample format levels processed i channel l = Ok l' ->
  sample format levels processed i channel (l ++ r) = Ok (l' ++ r).
Proof.
  unfold sample, readFormat, writeFormat. destruct (supported format); [|discriminate].
  destruct (readInt16LE l _) as [s|] eqn:R; cbn [bind]; [|discriminate].
  rewrite (readInt16LE_app_left _ r _ _ R). cbn [bind].
  destruct (getVolume _ levels) as [g|]; cbn [bind]; [|discriminate].
  apply writeInt16LE_app_left.
Qed.

Lemma sample_app_right (processed i channel : Z) (l r r' : Buffer) :
  0 <= i + channelBytes format * channel ->
  sample format levels (processed + length l) i channel r = Ok r' ->
  sample format levels processed (length l + i) channel (l ++ r) = Ok (l ++ r').
Proof.
  intros P. unfold sample, readFormat, writeFormat. destruct (supported format); [|discriminate].
  replace (length l + i + channelBytes format * channel)
    with (length l + (i + channelBytes format * channel)) by lia.
  rewrite readInt16LE_app_right by exact P.
  destruct (readInt16LE r _) as [s|] eqn:R; cbn [bind]; [|discriminate].
  replace (processed + (length l + i)) with (processed + length l + i) by lia.
  destruct (getVolume _ levels) as [g|]; cbn [bind]; [|discriminate].
  apply writeInt16LE_app_right.
Qed.

Lemma sample_offset (processed i channel : Z) (chunk chunk' : Buffer) :
  sample format levels processed i channel chunk = Ok chunk' ->
  0 <= i + channelBytes format * channel.
Proof.
  unfold sample, readFormat, writeFormat. destruct (supported format); [|discriminate].
  destruct (readInt16LE chunk _) as [s|] eqn:R; cbn [bind]; [|discriminate].
  destruct (getVolume _ levels) as [g|]; cbn [bind]; [|discriminate].
  intros W. now apply writeInt16LE_offset in W.
Qed.

Lemma channelLoop_app_left (processed i : Z) (r : Buffer) (fuel : nat) :
  forall (channel : Z) (l l' : Buffer),
    channelLoop format levels fuel processed i channel l = Ok l' ->
    channelLoop format levels fuel processed i channel (l ++ r) = Ok (l' ++ r).
Proof.
  induction fuel as [|fuel IH]; intros channel l l'; cbn [channelLoop];
    destruct (channel <? channels format); try discriminate; try (now intros [= ->]).
  destruct (sample format levels processed i channel l) as [l1|] eqn:E; cbn [bind];
    [|discriminate].
  rewrite (sample_app_left _ _ _ _ _ r E). cbn [bind]. apply IH.
Qed.

Lemma channelLoop_app_right (processed i : Z) (l : Buffer) (fuel : nat) :
  forall (channel : Z) (r r' : Buffer),
    channelLoop format levels fuel (processed + length l) i channel r = Ok r' ->
    channelLoop format levels fuel processed (length l + i) channel (l ++ r) = Ok (l ++ r').
Proof.
  induction fuel as [|fuel IH]; intros channel r r'; cbn [channelLoop];
    destruct (channel <? channels format); try discriminate; try (now intros [= ->]).
  destruct (sample format levels (processed + length l) i channel r) as [r1|] eqn:E;
    cbn [bind]; [|discriminate].
  rewrite (sample_app_right _ _ _ l _ _ (sample_offset _ _ _ _ _ E) E). cbn [bind]. apply IH.
Qed.

Lemma frameLoop_more_fuel (processed : Z) (fuel : nat) :
  forall (fuel' : nat) (i : Z) (chunk chunk' : Buffer),
    frameLoop format levels fuel processed i chunk = Ok chunk' ->
    (fuel <= fuel')%nat ->
    frameLoop format levels fuel' processed i chunk = Ok chunk'.
Proof.
  induction fuel as [|fuel IH]; intros fuel' i chunk chunk'; cbn [frameLoop].
  - destruct (i <? length chunk) eqn:E; [discriminate|]. intros [= <-] _.
    destruct fuel'; cbn [frameLoop]; now rewrite E.
  - destruct (i <? length chunk) eqn:E.
    + destruct (channelLoop format levels _ processed i 0 chunk) as [c1|] eqn:C;
        cbn [bind]; [|discriminate].
      intros H L. destruct fuel' as [|fuel']; [lia|]. cbn [frameLoop].
      rewrite E, C. cbn [bind]. apply IH; [exact H|lia].
    + intros [= <-] _. destruct fuel'; cbn [frameLoop]; now rewrite E.
Qed.

Hypothesis positive : 0 < blockAlign format.

Lemma frameLoop_app_right (processed : Z) (l : Buffer) (fuel : nat) :
  forall (i : Z) (r r' : Buffer),
    0 <= i ->
    frameLoop format levels fuel (processed + length l) i r = Ok r' ->
    frameLoop format levels fuel processed (length l + i) (l ++ r) = Ok (l ++ r').
Proof.
  induction fuel as [|fuel IH]; intros i r r' P; cbn [frameLoop]; rewrite length_app_Z;
    destruct (Z.ltb_spec i (length r)) as [Hi|Hi];
    destruct (Z.ltb_spec (length l + i) (length l + length r)) as [Hj|Hj]; try lia;
    try discriminate; try (now intros [= ->]).
  destruct (channelLoop format levels _ (processed + length l) i 0 r) as [r1|] eqn:C;
    cbn [bind]; [|discriminate].
  rewrite (channelLoop_app_right _ _ l _ _ _ _ C). cbn [bind].
  intros F. rewrite <- Z.add_assoc. apply IH; [lia|exact F].
Qed.

Lemma frameLoop_app (processed : Z) (fuelL : nat) :
  forall (i : Z) (l l' : Buffer),
    0 <= i <= length l -> (length l - i) mod blockAlign format = 0 ->
    frameLoop format levels fuelL processed i l = Ok l' ->
    forall (fuelR : nat) (r r' : Buffer),
      frameLoop format levels fuelR (processed + length l) 0 r = Ok r' ->
      frameLoop format levels (fuelL + fuelR) processed i (l ++ r) = Ok (l' ++ r').
Proof.
  assert (forall (fuel fuelR : nat) (l r r' : Buffer),
            (fuelR <= fuel)%nat ->
            frameLoop format levels fuelR (processed + length l) 0 r = Ok r' ->
            frameLoop format levels fuel processed (length l) (l ++ r) = Ok (l ++ r')) as Right.
  { intros fuel fuelR l r r' Le F.
    apply (frameLoop_more_fuel _ fuelR); [|exact Le].
    replace (length l) with (length l + 0) at 1 by lia.
    now apply frameLoop_app_right. }
  induction fuelL as [|fuelL IH]; intros i l l' Hi Hm; cbn [frameLoop];
    destruct (Z.ltb_spec i (length l)) as [Lt|Ge]; try discriminate.
  - intros [= <-] fuelR r r' F. replace i with (length l) by lia.
    apply (Right _ fuelR); [lia|exact F].
  - destruct (channelLoop format levels _ processed i 0 l) as [l1|] eqn:C;
      cbn [bind]; [|discriminate].
    intros F fuelR r r' Fr.
    assert (blockAlign format <= length l - i) as Hroom.
    { apply Z.mod_divide in Hm; [|lia]. destruct Hm as [k Hk].
      assert (0 < k) by nia. nia. }
    assert (length l1 = length l) as El
      by (apply channelLoop_length in C; unfold length; now rewrite C).
    cbn [Nat.add frameLoop]. rewrite length_app_Z.
    destruct (Z.ltb_spec i (length l + length r)) as [_|X];
      [|unfold length in *; lia].
    rewrite (channelLoop_app_left _ _ r _ _ _ _ C). cbn [bind].
    apply IH; rewrite ?El; try lia; try assumption.
    replace (length l - (i + blockAlign format))
      with (length l - i + (-1) * blockAlign format) by lia.
    rewrite Z.mod_add by lia. exact Hm.
  - intros [= <-] fuelR r r' F. replace i with (length l) by lia.
    apply (Right _ fuelR); [lia|exact F].
Qed.

Lemma transform_app (processed : Z) (l l' r r' : Buffer) :
  length l mod blockAlign format = 0 ->
  transform format levels processed l = Ok l' ->
  transform format levels (processed + length l) r = Ok r' ->
  transform format levels processed (l ++ r) = Ok (l' ++ r').
Proof.
  intros W Tl Tr. unfold transform in *. rewrite length_app.
  apply frameLoop_app; try assumption.
  - unfold length. lia.
  - now rewrite Z.sub_0_r.
Qed.

Lemma transformStream_concat (chunks : list Buffer) :
  Forall (fun chunk => length chunk mod blockAlign format = 0) chunks ->
  forall (processed : Z) (out : list Buffer),
    transformStream format levels processed chunks = Ok out ->
    transform format levels processed (concat chunks) = Ok (concat out).
Proof.
  intros W. induction W as [|chunk rest Hc Hr IH]; intros processed out;
    cbn [transformStream concat].
  - intros [= <-]. reflexivity.
  - destruct (transform format levels processed chunk) as [c1|] eqn:E; cbn [bind];
      [|discriminate].
    destruct (transformStream format levels _ rest) as [r1|] eqn:Er; cbn [bind];
      [|discriminate].
    intros [= <-]. cbn [concat]. apply transform_app; auto.
Qed.

End Chunking.

(** X6.  The cut into chunks does not show in the output: for 16-bit
    little-endian PCM and chunks of whole frames, the transform stream
    returns, and what it pushes on, chunk after chunk with [processed]
    counting the bytes before, is what one transform of the whole sequence
    of bytes returns. *)
Theorem chunking_invisible (format : Format) (levels : list Keyframe.t)
    (processed : Z) (chunks : list Buffer)
    (fmt : supported format = true)
    (pcm : blockAlign format = channels format * 2 /\ 0 < channels format)
    (whole : Forall (fun chunk => length chunk mod blockAlign format = 0) chunks) :
  exists out,
    transformStream format levels processed chunks = Ok out
    /\ transform format levels processed (concat chunks) = Ok (concat out).
Proof.
  destruct (transformStream_returns format levels fmt pcm chunks whole processed) as [out E].
  exists out. split; [exact E|].
  eapply transformStream_concat; eauto. lia.
Qed.

Lemma chunking_invisible_witness :
  exists out,
    transformStream mono16 [Keyframe.make 0 0 (1 # 2)] 0 [[x04; x00]; [xfa; xff; x10; x00]]
    = Ok out
    /\ transform mono16 [Keyframe.make 0 0 (1 # 2)] 0 [x04; x00; xfa; xff; x10; x00]
       = Ok (concat out).
Proof.
  exact (chunking_invisible mono16 [Keyframe.make 0 0 (1 # 2)] 0
           [[x04; x00]; [xfa; xff; x10; x00]] eq_refl (conj eq_refl eq_refl)
           ltac:(repeat constructor)).
Defined.

(** X7.  For 16-bit little-endian PCM the pipeline returns for every body
    and every keyframe sequence: the writer gets the format of the input,
    and the bytes it gets are one transform of the body cut down to its
    full chunks of [blockAlign * 1024] bytes; the rest, less than a chunk,
    does not reach the writer. *)
Theorem pipeline_full_chunks (format : Format) (levels : list Keyframe.t) (body : Buffer)
    (fmt : supported format = true)
    (pcm : blockAlign format = channels format * 2 /\ 0 < channels format) :
  exists kept rest out,
    body = kept ++ rest
    /\ length kept = blockAlign format * 1024 * (length body / (blockAlign format * 1024))
    /\ length rest < blockAlign format * 1024
    /\ pipeline format levels body = Ok (format, out)
    /\ transform format levels 0 kept = Ok out
    /\ List.length out = List.length kept.
Proof.
  assert (0 < blockAlign format * 1024) as P by (destruct pcm; lia).
  destruct (Chunker_prefix (blockAlign format * 1024) body) as [rest E].
  set (chunks := Chunker (blockAlign format * 1024) false body) in *.
  assert (Forall (fun chunk => length chunk mod blockAlign format = 0) chunks) as W.
  { subst chunks. unfold Chunker. destruct (Z.leb_spec (blockAlign format * 1024) 0); [lia|].
    eapply Forall_impl; [|apply chunksOf_sizes].
    cbn. intros chunk El. unfold length. rewrite El, Z2Nat.id by lia.
    rewrite Z.mul_comm. apply Z.mod_mul. lia. }
  destruct (transformStream_returns format levels fmt pcm chunks W 0) as [outs S].
  assert (length (concat chunks)
          = blockAlign format * 1024 * (length body / (blockAlign format * 1024))) as L
    by (subst chunks; now rewrite Chunker_length by lia).
  exists (concat chunks), rest, (concat outs).
  split; [exact E|]. split; [exact L|]. split.
  - assert (length body = length (concat chunks) + length rest) as Lb
      by (rewrite E at 1; apply length_app_Z).
    pose proof (Z.mul_div_le (length body) _ P).
    pose proof (Z.mod_pos_bound (length body) _ P).
    pose proof (Z.div_mod (length body) (blockAlign format * 1024) ltac:(lia)). lia.
  - split; [unfold pipeline; fold chunks; now rewrite S|]. split.
    + eapply transformStream_concat; eauto. destruct pcm; lia.
    + eapply transformStream_length; eassumption.
Qed.

Lemma pipeline_full_chunks_witness :
  exists kept rest out,
    [x01; x02; x03; x04] = kept ++ rest
    /\ pipeline mono16 [] [x01; x02; x03; x04] = Ok (mono16, out)
    /\ List.length out = List.length kept.
Proof.
  destruct (pipeline_full_chunks mono16 [] [x01; x02; x03; x04] eq_refl (conj eq_refl eq_refl))
    as (kept & rest & out & E & _ & _ & P & _ & L).
  exists kept, rest, out. repeat split; assumption.
Defined.

(** ** The resolver: what the loop leaves alone *)

Section Frame.

Variable v : Resolver.Variant.

Lemma parse_snoc (log : list (option Event.t)) (line : option Event.t) :
  Resolver.parse v (log ++ [line]) = Resolver.step v (Resolver.parse v log) line.
Proof. now rewrite parse_app. Qed.

Lemma replace_heading (tracks : list Track.t) (i : nat) (old new : Track.t) :
  nth_error tracks i = Some old -> Log.heading new = Log.heading old ->
  map Log.heading (Resolver.replace tracks i new) = map Log.heading tracks.
Proof.
  revert i. induction tracks as [|a rest IH]; intros [|i]; cbn; try discriminate.
  - intros [= ->] ->. reflexivity.
  - intros E H. now rewrite (IH i E H).
Qed.

Lemma pushControl_heading (s : Resolver.State) (time value3 : Q) (track : Track.t) :
  Log.heading (Resolver.pushControl s time value3 track) = Log.heading track.
Proof.
  unfold Resolver.pushControl.
  destruct (lastOf (Track.volumeEvents track)); [destruct (gtb _ _)|]; reflexivity.
Qed.

Lemma step_heading (s : Resolver.State) (line : option Event.t) :
  map Log.heading (Resolver.tracks (Resolver.step v s line))
  = map Log.heading (Resolver.tracks s).
Proof.
  destruct line as [[t [|i value3|bpm|]]|]; try reflexivity.
  unfold Resolver.step. cbn [Event.payload Event.time].
  destruct (index (Resolver.tracks s) i) as [track|] eqn:K; [|reflexivity].
  cbn [Resolver.tracks]. unfold index in K. destruct (i <? 0); [discriminate|].
  eapply replace_heading; [exact K|]. apply pushControl_heading.
Qed.

Lemma parse_heading (log : list (option Event.t)) :
  map Log.heading (Resolver.tracks (Resolver.parse v log))
  = map Log.heading (Resolver.initialTracks v).
Proof.
  induction log as [|line log IH] using rev_ind; [reflexivity|].
  now rewrite parse_snoc, step_heading.
Qed.

Lemma parse_tracks_length (log : list (option Event.t)) :
  List.length (Resolver.tracks (Resolver.parse v log))
  = List.length (Resolver.initialTracks v).
Proof.
  rewrite <- (length_map Log.heading), parse_heading. apply length_map.
Qed.

Lemma index_known {A B : Type} (l : list A) (l' : list B) (i : Z) :
  List.length l = List.length l' ->
  (index l i = None <-> index l' i = None).
Proof.
  intros E. unfold index. destruct (i <? 0); [tauto|].
  rewrite !nth_error_None. lia.
Qed.

End Frame.

(** X8.  The loop leaves the tracks as they are but for their keyframes:
    after any log the resolver has the tracks of its variant, as many and
    in the same order, each with its id, its name, its channels and its
    tempo-master mark. *)
Theorem tracks_kept (v : Resolver.Variant) (log : list (option Event.t)) :
  map Log.heading (Resolver.tracks (Resolver.resolve v log))
  = map Log.heading (Resolver.initialTracks v)
  /\ List.length (Resolver.tracks (Resolver.resolve v log))
     = match v with Resolver.Synced => 5%nat | Resolver.Plain => 6%nat end.
Proof.
  split.
  - apply parse_heading.
  - unfold Resolver.resolve. cbn [Resolver.close Resolver.tracks].
    rewrite parse_tracks_length. now destruct v.
Qed.

Section Ignored.

Variable v : Resolver.Variant.

Lemma step_tracks_length (s : Resolver.State) (line : option Event.t) :
  List.length (Resolver.tracks (Resolver.step v s line))
  = List.length (Resolver.tracks s).
Proof.
  rewrite <- (length_map Log.heading), step_heading. apply length_map.
Qed.

Lemma step_ignored (s : Resolver.State) (line : option Event.t) :
  List.length (Resolver.tracks s) = List.length (Resolver.initialTracks v) ->
  Log.ignored v line = true -> Resolver.step v s line = s.
Proof.
  intros L I. destruct line as [[t [|i value3|bpm|]]|]; try discriminate; try reflexivity.
  cbn [Log.ignored] in I.
  destruct (index (Resolver.initialTracks v) i) eqn:K; [discriminate|].
  apply (index_known _ _ i L) in K.
  unfold Resolver.step. cbn [Event.payload Event.time]. now rewrite K.
Qed.

Lemma fold_ignored (log : list (option Event.t)) :
  forall s : Resolver.State,
    List.length (Resolver.tracks s) = List.length (Resolver.initialTracks v) ->
    fold_left (Resolver.step v) (filter (fun line => negb (Log.ignored v line)) log) s
    = fold_left (Resolver.step v) log s.
Proof.
  induction log as [|line rest IH]; intros s L; [reflexivity|].
  cbn [filter fold_left]. destruct (Log.ignored v line) eqn:I; cbn [negb].
  - rewrite (step_ignored s line L I). now apply IH.
  - cbn [fold_left]. apply IH. now rewrite step_tracks_length.
Qed.

End Ignored.

(** X9.  Lines that do not parse, lines of a type other than ['tick'],
    ['tempo'] and ['channel_volume'], and ['channel_volume'] lines for an
    index outside the tracks can be struck from a log: the resolver ends
    in the same state, with every variable as with the full log. *)
Theorem ignored_lines (v : Resolver.Variant) (log : list (option Event.t)) :
  Resolver.resolve v (filter (fun line => negb (Log.ignored v line)) log)
  = Resolver.resolve v log.
Proof.
  unfold Resolver.resolve, Resolver.parse. f_equal. now apply fold_ignored.
Qed.

(** ** The resolver: the tracks do not interfere *)

Section Independence.

Local Open Scope Q_scope.

Variable v : Resolver.Variant.
Variable j : Z.

Lemma alike_beat (s s' : Resolver.State) (time : Q) :
  Log.alike j s s' ->
  Resolver.beat s time = Resolver.beat s' time
  /\ Resolver.beatDuration s = Resolver.beatDuration s'.
Proof.
  intros (E1 & E2 & E3 & _). unfold Resolver.beat, Resolver.beatDuration.
  now rewrite E1, E2, E3.
Qed.

Lemma appended_alike (s s' : Resolver.State) (time value3 : Q) (track track' : Track.t) :
  Log.alike j s s' -> Track.volumeEvents track = Track.volumeEvents track' ->
  Resolver.appended s time value3 track = Resolver.appended s' time value3 track'.
Proof.
  intros A E. destruct (alike_beat s s' time A) as [B D].
  unfold Resolver.appended. now rewrite E, B, D.
Qed.

Lemma step_known (s : Resolver.State) (line : option Event.t) (i : Z) :
  index (Resolver.tracks (Resolver.step v s line)) i = None
  <-> index (Resolver.tracks s) i = None.
Proof. apply index_known. apply step_tracks_length. Qed.

(** A line that is no ['tempo'] line leaves the tempo map and its anchor. *)
Lemma step_keeps_tempo (s : Resolver.State) (line : option Event.t) :
  Resolver.isTempoChange line = false ->
  Resolver.tempoEvents (Resolver.step v s line) = Resolver.tempoEvents s
  /\ Resolver.timeAtLastTempoChange (Resolver.step v s line)
     = Resolver.timeAtLastTempoChange s
  /\ Resolver.beatAtLastTempoChange (Resolver.step v s line)
     = Resolver.beatAtLastTempoChange s.
Proof.
  destruct line as [[t [|i value3|bpm|]]|]; try discriminate; try (now repeat split).
  intros _. unfold Resolver.step. cbn [Event.payload Event.time].
  destruct (index (Resolver.tracks s) i); now repeat split.
Qed.

Lemma step_alike (s s' : Resolver.State) (line : option Event.t) :
  Log.alike j s s' ->
  Log.alike j (Resolver.step v s line)
            (if Log.concerns j line then Resolver.step v s' line else s').
Proof.
  intros A. assert (A' := A). destruct A' as (E1 & E2 & E3 & E4 & E5).
  destruct (Resolver.isTempoChange line) eqn:T.
  - (* a tempo line *)
    destruct line as [[t [|i value3|bpm|]]|]; try discriminate.
    destruct (alike_beat s s' (Resolver.eventTime v t) A) as [B D].
    cbn [Log.concerns]. unfold Log.alike, Resolver.step. cbn [Event.payload Event.time].
    cbn [Resolver.tempoEvents Resolver.timeAtLastTempoChange
         Resolver.beatAtLastTempoChange Resolver.tracks].
    unfold Resolver.keyframes in *. cbn [Resolver.tracks].
    rewrite E1, B. repeat split; try assumption; apply E5.
  - destruct (step_keeps_tempo s line T) as (S1 & S2 & S3).
    destruct (step_keeps_tempo s' line T) as (S1' & S2' & S3').
    pose proof (keyframes_step v s line j) as Ks.
    pose proof (keyframes_step v s' line j) as Ks'.
    destruct (Log.concerns j line) eqn:C.
    + (* a channel_volume line for track j *)
      destruct line as [[t [|i value3|bpm|]]|]; try discriminate.
      cbn [Log.concerns] in C. apply Z.eqb_eq in C. subst i.
      unfold Log.alike. rewrite S1, S2, S3, S1', S2', S3', !step_known.
      repeat split; try assumption; try apply E5.
      rewrite Ks, Ks', Z.eqb_refl.
      destruct (index (Resolver.tracks s) j) as [track|] eqn:K;
        destruct (index (Resolver.tracks s') j) as [track'|] eqn:K'.
      * unfold Resolver.keyframes in E4. rewrite K, K' in E4.
        unfold Resolver.keyframes. rewrite K, K', E4. f_equal.
        now apply appended_alike.
      * destruct E5 as [_ E5]. specialize (E5 eq_refl). discriminate.
      * destruct E5 as [E5 _]. specialize (E5 eq_refl). discriminate.
      * now rewrite E4.
    + (* a line that does not concern track j *)
      unfold Log.alike. rewrite S1, S2, S3, step_known.
      repeat split; try assumption; try apply E5.
      rewrite Ks, <- E4.
      destruct line as [[t [|i value3|bpm|]]|]; try (now rewrite app_nil_r).
      cbn [Log.concerns] in C. rewrite C.
      destruct (index (Resolver.tracks s) i); now rewrite app_nil_r.
Qed.

Lemma fold_alike (log : list (option Event.t)) :
  forall s s' : Resolver.State,
    Log.alike j s s' ->
    Log.alike j (fold_left (Resolver.step v) log s)
              (fold_left (Resolver.step v) (filter (Log.concerns j) log) s').
Proof.
  induction log as [|line rest IH]; intros s s' A; [exact A|].
  cbn [filter fold_left]. pose proof (step_alike s s' line A) as A1.
  destruct (Log.concerns j line); cbn [fold_left]; now apply IH.
Qed.

End Independence.

(** X10.  The keyframes of a track depend on the ['tempo'] lines and on
    the ['channel_volume'] lines of that track alone: with every other
    line struck from the log (ticks, lines for other tracks, lines that
    are ignored) the track ends with the same keyframes, times, beats and
    gains. *)
Theorem track_independent (v : Resolver.Variant) (log : list (option Event.t)) (j : Z) :
  Resolver.keyframes (Resolver.resolve v (filter (Log.concerns j) log)) j
  = Resolver.keyframes (Resolver.resolve v log) j.
Proof.
  unfold Resolver.resolve. rewrite !keyframes_close. unfold Resolver.parse.
  symmetry. apply (fold_alike v j log (Resolver.initial v) (Resolver.initial v)).
  repeat split; auto.
Qed.

(** ** The resolver: the tempo map and the ticks *)

Section Lines.

Local Open Scope Q_scope.

Lemma tempoLines_app (l r : list (option Event.t)) :
  Log.tempoLines (l ++ r) = Log.tempoLines l ++ Log.tempoLines r.
Proof.
  induction l as [|[[t [|i value3|bpm|]]|] l IH]; cbn [app Log.tempoLines]; try assumption.
  - reflexivity.
  - now rewrite IH.
Qed.

Lemma tickTimes_app (l r : list (option Event.t)) :
  Log.tickTimes (l ++ r) = Log.tickTimes l ++ Log.tickTimes r.
Proof.
  induction l as [|[[t [|i value3|bpm|]]|] l IH]; cbn [app Log.tickTimes]; try assumption.
  - reflexivity.
  - now rewrite IH.
Qed.

Lemma timestamps_app (l r : list (option Event.t)) :
  Resolver.timestamps (l ++ r) = Resolver.timestamps l ++ Resolver.timestamps r.
Proof.
  induction l as [|[e|] l IH]; cbn [app Resolver.timestamps]; try assumption.
  - reflexivity.
  - now rewrite IH.
Qed.

Lemma lastOf_map {A B : Type} (f : A -> B) (l : list A) :
  lastOf (map f l) = option_map f (lastOf l).
Proof.
  destruct l as [|a l] using rev_ind; [reflexivity|].
  rewrite map_app. cbn [map]. now rewrite !lastOf_snoc.
Qed.

Lemma lastOf_cons {A : Type} (a : A) (l : list A) :
  l <> [] -> lastOf (a :: l) = lastOf l.
Proof.
  destruct l as [|c l] using rev_ind; [congruence|]. intros _.
  now rewrite app_comm_cons, !lastOf_snoc.
Qed.

Lemma differences_snoc (l : list Q) (x : Q) :
  Log.differences (l ++ [x])
  = Log.differences l ++ match lastOf l with Some y => [x - y] | None => [] end.
Proof.
  induction l as [|a l IH]; [reflexivity|].
  destruct l as [|b l]; [now rewrite lastOf_single|].
  change (Log.differences ((a :: b :: l) ++ [x]))
    with ((b - a) :: Log.differences ((b :: l) ++ [x])).
  rewrite IH.
  change (Log.differences (a :: b :: l)) with ((b - a) :: Log.differences (b :: l)).
  now rewrite (lastOf_cons a (b :: l)) by discriminate.
Qed.

Variable v : Resolver.Variant.

(** The tempo map after the loop: one entry per ['tempo'] line, in log
    order, with the anchor at the last of them. *)
Lemma tempo_entries (log : list (option Event.t)) :
  map TempoEvent.time (Resolver.tempoEvents (Resolver.parse v log))
  = map (fun line => Resolver.eventTime v (fst line)) (Log.tempoLines log)
  /\ map TempoEvent.tempo (Resolver.tempoEvents (Resolver.parse v log))
     = map (fun line => Some (snd line * Resolver.tempoMultiplier v)) (Log.tempoLines log)
  /\ match lastOf (Resolver.tempoEvents (Resolver.parse v log)) with
     | Some e =>
         Resolver.timeAtLastTempoChange (Resolver.parse v log) = TempoEvent.time e
         /\ Resolver.beatAtLastTempoChange (Resolver.parse v log) = TempoEvent.beat e
     | None =>
         Resolver.timeAtLastTempoChange (Resolver.parse v log) = 0
         /\ Resolver.beatAtLastTempoChange (Resolver.parse v log) = 0
     end.
Proof.
  induction log as [|line log IH] using rev_ind; [now repeat split|].
  destruct IH as (T & M & A). rewrite parse_snoc, tempoLines_app.
  destruct (Resolver.isTempoChange line) eqn:I.
  - destruct line as [[t [|i value3|bpm|]]|]; try discriminate.
    unfold Resolver.step. cbn [Event.payload Event.time Log.tempoLines].
    cbn [Resolver.tempoEvents Resolver.timeAtLastTempoChange Resolver.beatAtLastTempoChange].
    rewrite !map_app, T, M, lastOf_snoc. now repeat split.
  - destruct (step_keeps_tempo v (Resolver.parse v log) line I) as (-> & -> & ->).
    assert (Log.tempoLines [line] = []) as ->
      by (destruct line as [[t [|i value3|bpm|]]|]; try discriminate; reflexivity).
    rewrite app_nil_r. now repeat split.
Qed.

(** The ticks after the loop. *)
Lemma tick_entries (log : list (option Event.t)) :
  Resolver.ticks (Resolver.parse v log) = map (Resolver.eventTime v) (Log.tickTimes log)
  /\ Resolver.tickDurations (Resolver.parse v log)
     = Log.differences (Resolver.ticks (Resolver.parse v log))
  /\ Resolver.duration (Resolver.parse v log)
     = List.last (Resolver.ticks (Resolver.parse v log)) 0.
Proof.
  induction log as [|line log IH] using rev_ind; [now repeat split|].
  destruct IH as (T & D & L). rewrite parse_snoc, tickTimes_app.
  destruct line as [[t [|i value3|bpm|]]|]; cbn [Log.tickTimes];
    rewrite ?app_nil_r; try (now repeat split).
  - unfold Resolver.step. cbn [Event.payload Event.time].
    cbn [Resolver.ticks Resolver.tickDurations Resolver.duration].
    rewrite map_app, differences_snoc, last_last, <- T. cbn [map].
    split; [reflexivity|]. split; [|reflexivity].
    destruct (lastOf (Resolver.ticks (Resolver.parse v log)));
      rewrite D, ?app_nil_r; reflexivity.
  - unfold Resolver.step. cbn [Event.payload Event.time].
    destruct (index (Resolver.tracks (Resolver.parse v log)) i); now repeat split.
Qed.

End Lines.

(** X11.  The tempo map that the loop builds has one entry per ['tempo']
    line, in log order, at the resolved time of the line and with its bpm
    times [tempoMultiplier]; the anchor from which beats are counted is the
    last of these entries (time 0, beat 0 before the first), and the
    resolver adds one closing entry to them. *)
Theorem tempo_map_entries (v : Resolver.Variant) (log : list (option Event.t)) :
  map TempoEvent.time (Resolver.tempoEvents (Resolver.parse v log))
  = map (fun line => Resolver.eventTime v (fst line)) (Log.tempoLines log)
  /\ map TempoEvent.tempo (Resolver.tempoEvents (Resolver.parse v log))
     = map (fun line => Some (snd line * Resolver.tempoMultiplier v)%Q) (Log.tempoLines log)
  /\ match lastOf (Resolver.tempoEvents (Resolver.parse v log)) with
     | Some e =>
         Resolver.timeAtLastTempoChange (Resolver.parse v log) = TempoEvent.time e
         /\ Resolver.beatAtLastTempoChange (Resolver.parse v log) = TempoEvent.beat e
     | None =>
         Resolver.timeAtLastTempoChange (Resolver.parse v log) = 0%Q
         /\ Resolver.beatAtLastTempoChange (Resolver.parse v log) = 0%Q
     end
  /\ List.length (Resolver.tempoEvents (Resolver.resolve v log))
     = S (List.length (Log.tempoLines log)).
Proof.
  destruct (tempo_entries v log) as (T & M & A).
  split; [exact T|]. split; [exact M|]. split; [exact A|].
  unfold Resolver.resolve. cbn [Resolver.close Resolver.tempoEvents].
  rewrite length_app, <- (length_map TempoEvent.time), T, length_map. cbn. lia.
Qed.

(** X12.  The ticks that the loop records are the resolved times of the
    ['tick'] lines, in log order; the tick durations are the differences
    of consecutive ticks, one less than there are ticks; and the duration
    is the last tick, or 0 without a tick. *)
Theorem ticks_recorded (v : Resolver.Variant) (log : list (option Event.t)) :
  Resolver.ticks (Resolver.resolve v log) = map (Resolver.eventTime v) (Log.tickTimes log)
  /\ Resolver.tickDurations (Resolver.resolve v log)
     = Log.differences (Resolver.ticks (Resolver.resolve v log))
  /\ List.length (Resolver.tickDurations (Resolver.resolve v log))
     = Nat.pred (List.length (Log.tickTimes log))
  /\ Resolver.duration (Resolver.resolve v log)
     = List.last (Resolver.ticks (Resolver.resolve v log)) 0%Q.
Proof.
  unfold Resolver.resolve.
  cbn [Resolver.close Resolver.ticks Resolver.tickDurations Resolver.duration].
  destruct (tick_entries v log) as (T & D & L).
  split; [exact T|]. split; [exact D|]. split; [|exact L].
  rewrite D, T.
  replace (List.length (Log.tickTimes log))
    with (List.length (map (Resolver.eventTime v) (Log.tickTimes log)))
    by apply length_map.
  generalize (map (Resolver.eventTime v) (Log.tickTimes log)). clear.
  induction l as [|a l IH]; [reflexivity|].
  destruct l as [|b l]; [reflexivity|].
  change (Log.differences (a :: b :: l)) with ((b - a)%Q :: Log.differences (b :: l)).
  cbn [List.length Nat.pred] in *. now rewrite IH.
Qed.

(** ** The resolver: time and beat only go forward in the tempo map *)

Section TempoOrder.

Local Open Scope Q_scope.

Lemma nondecreasing_snoc_last (l : list Q) (x : Q) :
  Resolver.nondecreasing l = true ->
  (forall y, lastOf l = Some y -> y <= x) ->
  Resolver.nondecreasing (l ++ [x]) = true.
Proof.
  destruct l as [|y l _] using rev_ind; [reflexivity|].
  intros N L. apply nondecreasing_snoc; [exact N|]. apply L. apply lastOf_snoc.
Qed.

Lemma nondecreasing_app_inv (l : list Q) (x : Q) :
  Resolver.nondecreasing (l ++ [x]) = true ->
  Resolver.nondecreasing l = true /\ Forall (fun y => y <= x) l.
Proof.
  induction l as [|a l IH]; [split; [reflexivity|constructor]|].
  cbn [app]. intros N. destruct (nondecreasing_cons _ _ N) as [F Nr].
  destruct (IH Nr) as [Nl Fl]. split.
  - destruct l as [|b l]; [reflexivity|].
    change (Resolver.nondecreasing (a :: b :: l))
      with (Qle_bool a b && Resolver.nondecreasing (b :: l)).
    rewrite Nl. inversion F as [|? ? Hab _]; subst.
    apply Qle_bool_iff in Hab. now rewrite Hab.
  - constructor; [|exact Fl]. rewrite Forall_forall in F. apply F.
    apply in_or_app. right. now left.
Qed.

Lemma beats_go_on (x tempo : Q) : 0 <= x -> 0 <= tempo -> 0 <= x / (60 / tempo).
Proof.
  intros X T. unfold Qdiv. apply Qmult_le_0_compat; [exact X|].
  apply Qinv_le_0_compat. apply Qmult_le_0_compat; [discriminate|].
  now apply Qinv_le_0_compat.
Qed.

Variable v : Resolver.Variant.

Lemma tempoMultiplier_nonneg : 0 <= Resolver.tempoMultiplier v.
Proof. destruct v; discriminate. Qed.

Lemma beat_after_anchor (s : Resolver.State) (e : TempoEvent.t) (time : Q) :
  lastOf (Resolver.tempoEvents s) = Some e ->
  Resolver.timeAtLastTempoChange s = TempoEvent.time e ->
  Resolver.beatAtLastTempoChange s = TempoEvent.beat e ->
  0 <= Resolver.toNumber (TempoEvent.tempo e) ->
  TempoEvent.time e <= time ->
  TempoEvent.beat e <= Resolver.beat s time.
Proof.
  intros L A B T H. unfold Resolver.beat, Resolver.beatDuration. rewrite L, A, B.
  pose proof (beats_go_on (time - TempoEvent.time e)
                (Resolver.toNumber (TempoEvent.tempo e)) ltac:(lra) T).
  lra.
Qed.

Lemma forwards_app (l r : list (option Event.t)) :
  Log.forwards (l ++ r) = Log.forwards l && Log.forwards r.
Proof. unfold Log.forwards. now rewrite tempoLines_app, forallb_app. Qed.

Lemma tempo_invariant (log : list (option Event.t)) :
  Resolver.nondecreasing (Resolver.timestamps log) = true ->
  Log.forwards log = true ->
  Resolver.nondecreasing
    (map TempoEvent.time (Resolver.tempoEvents (Resolver.parse v log))) = true
  /\ Resolver.nondecreasing
       (map TempoEvent.beat (Resolver.tempoEvents (Resolver.parse v log))) = true
  /\ (forall e,
        lastOf (Resolver.tempoEvents (Resolver.parse v log)) = Some e ->
        0 <= Resolver.toNumber (TempoEvent.tempo e)
        /\ forall T, Forall (fun t => t <= T) (Resolver.timestamps log) ->
                     TempoEvent.time e <= Resolver.eventTime v T).
Proof.
  induction log as [|line log IH] using rev_ind; [now repeat split|].
  rewrite timestamps_app, forwards_app. intros Sorted Fw.
  apply andb_true_iff in Fw as [Fw Fl].
  assert (Resolver.nondecreasing (Resolver.timestamps log) = true
          /\ forall t, Resolver.timestamps [line] = [t] ->
                       Forall (fun y => y <= t) (Resolver.timestamps log)) as [Sl Before].
  { destruct line as [e|]; cbn [Resolver.timestamps] in *.
    - destruct (nondecreasing_app_inv _ _ Sorted) as [N F].
      split; [exact N|]. now intros t [= <-].
    - rewrite app_nil_r in Sorted. split; [exact Sorted|discriminate]. }
  destruct (IH Sl Fw) as (Times & Beats & Last). clear IH.
  destruct (tempo_entries v log) as (_ & _ & Anchor).
  rewrite parse_snoc.
  destruct (Resolver.isTempoChange line) eqn:I.
  - destruct line as [[t [|i value3|bpm|]]|]; try discriminate.
    specialize (Before t eq_refl).
    unfold Resolver.step. cbn [Event.payload Event.time Resolver.tempoEvents].
    rewrite !map_app. cbn [map TempoEvent.time TempoEvent.beat].
    split; [|split].
    + apply nondecreasing_snoc_last; [exact Times|].
      intros y. rewrite lastOf_map.
      destruct (lastOf (Resolver.tempoEvents (Resolver.parse v log))) as [e|];
        [|discriminate].
      intros [= <-]. now apply (Last e eq_refl).
    + apply nondecreasing_snoc_last; [exact Beats|].
      intros y. rewrite lastOf_map.
      destruct (lastOf (Resolver.tempoEvents (Resolver.parse v log))) as [e|] eqn:L;
        [|discriminate].
      intros [= <-]. destruct Anchor as [A B]. destruct (Last e eq_refl) as [T0 T1].
      apply beat_after_anchor; auto.
    + intros e. rewrite lastOf_snoc. intros [= <-]. cbn [TempoEvent.tempo TempoEvent.time].
      split.
      * cbn [Resolver.toNumber]. apply Qmult_le_0_compat; [|apply tempoMultiplier_nonneg].
        cbn [Log.forwards Log.tempoLines forallb snd] in Fl.
        apply andb_true_iff in Fl as [Fl _]. now apply Qle_bool_iff.
      * intros T F. apply eventTime_mono. cbn [Resolver.timestamps Event.time] in F.
        apply Forall_app in F as [_ F]. now inversion F.
  - destruct (step_keeps_tempo v (Resolver.parse v log) line I) as (-> & _ & _).
    split; [exact Times|]. split; [exact Beats|].
    intros e L. destruct (Last e L) as [T0 T1]. split; [exact T0|].
    intros T F. apply T1. now apply Forall_app in F as [F _].
Qed.

End TempoOrder.

(** X13.  For a log whose timestamps do not decrease and whose bpm are
    not negative, the tempo map that the loop builds goes forward: its
    times and its beats are in non-decreasing order.  When the last line of
    the log is a ['tick'], this holds of the closed map as well, the
    closing entry coming last in time and in beat. *)
Theorem tempo_map_forward (v : Resolver.Variant) (log : list (option Event.t))
    (sorted : Resolver.nondecreasing (Resolver.timestamps log) = true)
    (forwards : Log.forwards log = true) :
  Resolver.nondecreasing
    (map TempoEvent.time (Resolver.tempoEvents (Resolver.parse v log))) = true
  /\ Resolver.nondecreasing
       (map TempoEvent.beat (Resolver.tempoEvents (Resolver.parse v log))) = true
  /\ (forall pre t,
        log = pre ++ [Some (Event.make t Event.Tick)] ->
        Resolver.nondecreasing
          (map TempoEvent.time (Resolver.tempoEvents (Resolver.resolve v log))) = true
        /\ Resolver.nondecreasing
             (map TempoEvent.beat (Resolver.tempoEvents (Resolver.resolve v log))) = true).
Proof.
  destruct (tempo_invariant v log sorted forwards) as (Times & Beats & _).
  split; [exact Times|]. split; [exact Beats|].
  intros pre t E. subst log.
  rewrite timestamps_app in sorted. cbn [Resolver.timestamps Event.time] in sorted.
  destruct (nondecreasing_app_inv _ _ sorted) as [Sp Fp].
  rewrite forwards_app in forwards. apply andb_true_iff in forwards as [Fw _].
  destruct (tempo_invariant v pre Sp Fw) as (_ & _ & Last).
  destruct (tempo_entries v pre) as (_ & _ & Anchor).
  unfold Resolver.resolve. cbn [Resolver.close Resolver.tempoEvents].
  rewrite !map_app. cbn [map]. unfold Resolver.closing.
  cbn [TempoEvent.time TempoEvent.beat].
  rewrite parse_snoc in *.
  assert (Resolver.tempoEvents
            (Resolver.step v (Resolver.parse v pre) (Some (Event.make t Event.Tick)))
          = Resolver.tempoEvents (Resolver.parse v pre)) as Same by reflexivity.
  cbn [Resolver.step Event.payload Event.time Resolver.duration Resolver.length
       Resolver.tempoEvents] in *.
  split.
  - apply nondecreasing_snoc_last; [exact Times|].
    intros y. rewrite lastOf_map.
    destruct (lastOf (Resolver.tempoEvents (Resolver.parse v pre))) as [e|]; [|discriminate].
    intros [= <-]. now apply (Last e eq_refl).
  - apply nondecreasing_snoc_last; [exact Beats|].
    intros y. rewrite lastOf_map.
    destruct (lastOf (Resolver.tempoEvents (Resolver.parse v pre))) as [e|] eqn:L;
      [|discriminate].
    intros [= <-]. destruct Anchor as [A B]. destruct (Last e eq_refl) as [T0 T1].
    apply beat_after_anchor; auto.
Qed.

Lemma tempo_map_forward_witness :
  Resolver.nondecreasing
    (map TempoEvent.beat
       (Resolver.tempoEvents
          (Resolver.resolve Resolver.Synced
             [Some (Event.make 0 (Event.TempoChange 120)); Resolver.control 1 0 64;
              Some (Event.make 2 (Event.TempoChange 90));
              Some (Event.make 3 Event.Tick)]))) = true.
Proof.
  exact (proj2 (proj2 (proj2 (tempo_map_forward Resolver.Synced
                  [Some (Event.make 0 (Event.TempoChange 120)); Resolver.control 1 0 64;
                   Some (Event.make 2 (Event.TempoChange 90));
                   Some (Event.make 3 Event.Tick)] eq_refl eq_refl))
                  [Some (Event.make 0 (Event.TempoChange 120)); Resolver.control 1 0 64;
                   Some (Event.make 2 (Event.TempoChange 90))] 3%Q eq_refl)).
Defined.

(** ** The resolver: the nominal tempo *)

Section Nominal.

Variable v : Resolver.Variant.

Lemma find_snoc {A : Type} (f : A -> bool) (l : list A) (b : A) :
  find f (l ++ [b])
  = match find f l with
    | Some x => Some x
    | None => if f b then Some b else None
    end.
Proof.
  induction l as [|a l IH]; cbn [app find]; [reflexivity|].
  destruct (f a); [reflexivity|exact IH].
Qed.

Lemma last_falsy (bpms : list Q) :
  find (fun bpm => negb (Qeq_bool bpm 0)) bpms = None ->
  Resolver.falsy (List.last (map Some bpms) None) = true.
Proof.
  intros F. destruct bpms as [|b bpms _] using rev_ind; [reflexivity|].
  rewrite map_app. cbn [map]. rewrite last_last. cbn [Resolver.falsy].
  assert (In b (bpms ++ [b])) as I by (apply in_or_app; right; now left).
  pose proof (find_none _ _ F b I) as N.
  cbn beta in N. now apply negb_false_iff in N.
Qed.

Lemma step_keeps_nominal (s : Resolver.State) (line : option Event.t) :
  Resolver.isTempoChange line = false ->
  Resolver.tempo (Resolver.step v s line) = Resolver.tempo s.
Proof.
  destruct line as [[t [|i value3|bpm|]]|]; try discriminate; try reflexivity.
  intros _. unfold Resolver.step. cbn [Event.payload Event.time].
  now destruct (index (Resolver.tracks s) i).
Qed.

Lemma parse_nominal (log : list (option Event.t)) :
  Resolver.tempo (Resolver.parse v log) = Log.nominal (map snd (Log.tempoLines log)).
Proof.
  induction log as [|line log IH] using rev_ind; [reflexivity|].
  rewrite parse_snoc, tempoLines_app, map_app.
  destruct (Resolver.isTempoChange line) eqn:I.
  - destruct line as [[t [|i value3|bpm|]]|]; try discriminate.
    unfold Resolver.step. cbn [Event.payload Event.time Resolver.tempo Log.tempoLines map snd].
    rewrite IH. unfold Log.nominal. rewrite find_snoc.
    destruct (find _ (map snd (Log.tempoLines log))) as [q|] eqn:F.
    + apply find_some in F as [_ F]. cbn [Resolver.falsy].
      apply negb_true_iff in F. now rewrite F.
    + rewrite (last_falsy _ F), map_app. cbn [map]. rewrite last_last.
      now destruct (negb (Qeq_bool bpm 0)).
  - rewrite (step_keeps_nominal _ _ I), IH.
    assert (Log.tempoLines [line] = []) as ->
      by (destruct line as [[t [|i value3|bpm|]]|]; try discriminate; reflexivity).
    cbn [map]. now rewrite app_nil_r.
Qed.

End Nominal.

(** X14.  The nominal tempo that the resolver reports is the bpm of the
    first ['tempo'] line whose bpm is not 0; when every ['tempo'] line has
    bpm 0 it is the bpm of the last of them, and without a ['tempo'] line
    it is [null].  (A first bpm of 0 is falsy for the test [!tempo], so a
    later line replaces it.) *)
Theorem nominal_tempo (v : Resolver.Variant) (log : list (option Event.t)) :
  Resolver.tempo (Resolver.resolve v log) = Log.nominal (map snd (Log.tempoLines log)).
Proof. exact (parse_nominal v log). Qed.

(** ** The resolver: the gains *)

Section Gains.

Local Open Scope Q_scope.

Lemma gain_nonneg (value3 : Q) : 0 <= value3 / 127 * (value3 / 127) * 1.618.
Proof. set (y := value3 / 127). nra. Qed.

Lemma gain_at_most (value3 : Q) :
  0 <= value3 -> value3 <= 127 -> value3 / 127 * (value3 / 127) * 1.618 <= 1.618.
Proof.
  intros L U. assert (value3 / 127 == value3 * (1 # 127)) as E by field.
  rewrite E. nra.
Qed.


Variable v : Resolver.Variant.
Variable P : Q -> Prop.

Lemma appended_values (s : Resolver.State) (time value3 : Q) (track : Track.t) :
  Forall (fun k => P (Keyframe.value k)) (Track.volumeEvents track) ->
  P (value3 / 127 * (value3 / 127) * 1.618) ->
  Forall (fun k => P (Keyframe.value k)) (Resolver.appended s time value3 track).
Proof.
  intros F N. unfold Resolver.appended.
  destruct (lastOf (Track.volumeEvents track)) as [lastEvent|] eqn:L.
  - destruct (gtb _ _); repeat constructor; try exact N.
    cbn [Keyframe.value]. rewrite Forall_forall in F. apply F.
    unfold lastOf in L. eapply index_In; eassumption.
  - repeat constructor. exact N.
Qed.

Lemma parse_values (log : list (option Event.t)) (j : Z) :
  Forall (fun line =>
            match line with
            | Some (Event.make _ (Event.ControlChange _ value3)) =>
                P (value3 / 127 * (value3 / 127) * 1.618)
            | _ => True
            end) log ->
  Forall (fun k => P (Keyframe.value k)) (Resolver.keyframes (Resolver.parse v log) j).
Proof.
  induction log as [|line log IH] using rev_ind.
  - intros _. change (Resolver.parse v []) with (Resolver.initial v).
    rewrite keyframes_initial. constructor.
  - intros F. apply Forall_app in F as [Fl Fn]. specialize (IH Fl).
    rewrite parse_snoc, keyframes_step. apply Forall_app. split; [exact IH|].
    destruct line as [[t [|i value3|bpm|]]|]; try constructor.
    destruct (index (Resolver.tracks (Resolver.parse v log)) i) as [track|] eqn:K;
      [|constructor].
    destruct (Z.eqb_spec i j) as [->|N]; [|constructor].
    apply appended_values.
    + unfold Resolver.keyframes in IH. now rewrite K in IH.
    + now inversion Fn.
Qed.

End Gains.

Lemma gains_bounded_parse (v : Resolver.Variant) (log : list (option Event.t)) (j : Z) :
  Forall (fun k => (0 <= Keyframe.value k)%Q) (Resolver.keyframes (Resolver.parse v log) j)
  /\ (Log.midi log = true ->
      Forall (fun k => (Keyframe.value k <= 1.618)%Q)
             (Resolver.keyframes (Resolver.parse v log) j)).
Proof.
  split.
  - apply (parse_values v (fun g => (0 <= g)%Q)).
    apply Forall_forall. intros [[t [|i value3|bpm|]]|] _; try exact I.
    apply gain_nonneg.
  - intros M. apply (parse_values v (fun g => (g <= 1.618)%Q)).
    unfold Log.midi in M. rewrite forallb_forall in M.
    apply Forall_forall. intros [[t [|i value3|bpm|]]|] H; try exact I.
    specialize (M _ H). cbn beta iota in M. apply andb_true_iff in M as [L U].
    apply Qle_bool_iff in L, U. now apply gain_at_most.
Qed.

(** X15.  No keyframe of the resolver has a negative gain, whatever the
    values of the log; and when every ['channel_volume'] value lies in
    0 .. 127, no gain exceeds the boost 1.618. *)
Theorem gains_bounded (v : Resolver.Variant) (log : list (option Event.t)) (j : Z) :
  Forall (fun k => (0 <= Keyframe.value k)%Q) (Resolver.keyframes (Resolver.resolve v log) j)
  /\ (Log.midi log = true ->
      Forall (fun k => (Keyframe.value k <= 1.618)%Q)
             (Resolver.keyframes (Resolver.resolve v log) j)).
Proof. exact (gains_bounded_parse v log j). Qed.



(** ** From the resolver to the gain lookup *)

Section Resolved.

Local Open Scope Q_scope.

Variable v : Resolver.Variant.

Lemma parse_nondescending (log : list (option Event.t)) (j : Z) :
  Resolver.nondecreasing (Resolver.timestamps log) = true ->
  Levels.nondescending (Resolver.keyframes (Resolver.parse v log) j) = true.
Proof.
  intros sorted. unfold Levels.nondescending, Resolver.parse.
  assert (forall bound, Resolver.ordered (Resolver.initial v) bound) as O.
  { intros bound k. rewrite keyframes_initial. split; [reflexivity|discriminate]. }
  destruct (Resolver.timestamps log) as [|t rest] eqn:E.
  - destruct (fold_ordered v log (Resolver.initial v) 0 (O _)) as [bound' H].
    + now rewrite E.
    + rewrite E. discriminate.
    + apply H.
  - destruct (fold_ordered v log (Resolver.initial v) (Resolver.eventTime v t) (O _))
      as [bound' H].
    + now rewrite E.
    + rewrite E. intros t' rest' [= <- _]. apply Qle_refl.
    + apply H.
Qed.

Lemma getVolume_closed (P : Q -> Prop) (events : list Keyframe.t) (t : Q) :
  (forall before after,
     Keyframe.time before < t -> t < Keyframe.time after ->
     P (Keyframe.value before) -> P (Keyframe.value after) ->
     P (Levels.interpolated before after t)) ->
  P 1 ->
  Levels.nondescending events = true ->
  Forall (fun e => P (Keyframe.value e)) events ->
  exists g, getVolume t events = Ok g /\ P g.
Proof.
  intros Convex One sorted All. rewrite Forall_forall in All.
  destruct (getVolume_ties events t sorted) as [g [G C]]. exists g. split; [exact G|].
  destruct C as [(e & I & _ & ->)|[(i & before & after & Hb & Ha & Tb & Ta & ->)
                |[(last & L & _ & ->)|[(first & F & _ & ->)|[_ ->]]]]].
  - now apply All.
  - apply Convex; try assumption; apply All; eapply index_In; eassumption.
  - apply All. unfold lastOf in L. eapply index_In; eassumption.
  - apply All. eapply index_In; eassumption.
  - exact One.
Qed.

Lemma interpolated_position (before after : Keyframe.t) (t : Q) :
  Keyframe.time before < t -> t < Keyframe.time after ->
  exists pos,
    0 <= pos /\ pos <= 1
    /\ Levels.interpolated before after t
       = Keyframe.value before + (Keyframe.value after - Keyframe.value before) * pos.
Proof.
  intros Hb Ha.
  exists ((t - Keyframe.time before) / (Keyframe.time after - Keyframe.time before)).
  split; [|split; [|reflexivity]].
  - apply Qlt_le_weak. apply Qlt_shift_div_l; lra.
  - apply Qle_shift_div_r; lra.
Qed.

End Resolved.

(** X17.  What the resolver hands on can be looked up: for a log whose
    timestamps do not decrease, [getVolume] returns a gain for every track
    and every time on the keyframes of the resolver (which may hold equal
    times), and that gain is not negative; it is at most 1.618 when every
    ['channel_volume'] value lies in 0 .. 127. *)
Theorem resolved_lookup (v : Resolver.Variant) (log : list (option Event.t)) (j : Z) (t : Q)
    (sorted : Resolver.nondecreasing (Resolver.timestamps log) = true) :
  exists g,
    getVolume t (Resolver.keyframes (Resolver.resolve v log) j) = Ok g
    /\ (0 <= g)%Q
    /\ (Log.midi log = true -> (g <= 1.618)%Q).
Proof.
  destruct (gains_bounded_parse v log j) as [Low High].
  unfold Resolver.resolve. rewrite keyframes_close.
  pose proof (parse_nondescending v log j sorted) as Sd.
  destruct (getVolume_closed (fun g => (0 <= g)%Q)
              (Resolver.keyframes (Resolver.parse v log) j) t) as [g [G L]];
    try assumption; try discriminate.
  { intros before after Tb Ta Pb Pa.
    destruct (interpolated_position before after t Tb Ta) as (pos & P0 & P1 & ->). nra. }
  exists g. split; [exact G|]. split; [exact L|].
  intros M.
  destruct (getVolume_closed (fun g => (g <= 1.618)%Q)
              (Resolver.keyframes (Resolver.parse v log) j) t) as [g' [G' U]];
    try assumption; try discriminate.
  { intros before after Tb Ta Pb Pa.
    destruct (interpolated_position before after t Tb Ta) as (pos & P0 & P1 & ->). nra. }
  { now apply High. }
  congruence.
Qed.

Lemma resolved_lookup_witness :
  exists g,
    getVolume 0.1
      (Resolver.keyframes
         (Resolver.resolve Resolver.Plain
            [Resolver.control 0 1 100; Resolver.control 0 1 20; Resolver.control 0.5 1 30]) 1)
    = Ok g
    /\ (0 <= g)%Q.
Proof.
  destruct (resolved_lookup Resolver.Plain
              [Resolver.control 0 1 100; Resolver.control 0 1 20; Resolver.control 0.5 1 30]
              1 0.1 eq_refl) as (g & G & L & _).
  exists g. split; assumption.
Defined.

(** ** The hold keyframe, seen from the gain lookup *)

Section Hold.

Local Open Scope Q_scope.

Lemma index_exists {A : Type} (arr : list A) (x : A) :
  In x arr -> exists i, index arr i = Some x.
Proof.
  intros H. apply In_nth_error in H as [n N].
  exists (Z.of_nat n). now rewrite index_nat.
Qed.

Lemma hold_lookup (before : list Keyframe.t) (lastEvent hold new : Keyframe.t) (t : Q) :
  Levels.nondescending (before ++ [lastEvent; hold; new]) = true ->
  Keyframe.value hold == Keyframe.value lastEvent ->
  Keyframe.time lastEvent < t -> t <= Keyframe.time hold ->
  Keyframe.time hold < Keyframe.time new ->
  yields (getVolume t (before ++ [lastEvent; hold; new])) (Keyframe.value lastEvent).
Proof.
  intros sorted Same After Before Ramp.
  set (events := before ++ [lastEvent; hold; new]) in *.
  assert (forall k, (0 <= k)%Z ->
            index events (length before + k) = index [lastEvent; hold; new] k) as At.
  { intros k K. unfold events. now apply index_app_right. }
  assert (length events = (length before + 3)%Z) as Len.
  { unfold events. rewrite length_app_Z. reflexivity. }
  assert (0 <= length before)%Z as Pos by (unfold length; lia).
  assert (index events (length before) = Some lastEvent) as I0.
  { replace (length before) with (length before + 0)%Z by lia. now rewrite At. }
  assert (index events (length before + 1) = Some hold) as I1 by now rewrite At.
  assert (index events (length before + 2) = Some new) as I2 by now rewrite At.
  assert (forall i e, index events i = Some e -> (i <= length before)%Z ->
            Keyframe.time e <= Keyframe.time lastEvent) as Early.
  { intros i e E L. exact (nondescending_index events sorted i _ e lastEvent E I0 L). }
  assert (forall i e, index events i = Some e -> (length before + 1 <= i)%Z ->
            Keyframe.time hold <= Keyframe.time e) as Late.
  { intros i e E L. exact (nondescending_index events sorted _ i hold e I1 E L). }
  assert (forall i e, index events i = Some e -> (length before + 2 <= i)%Z ->
            Keyframe.time new <= Keyframe.time e) as Later.
  { intros i e E L. exact (nondescending_index events sorted _ i new e I2 E L). }
  destruct (getVolume_ties events t sorted) as [g [G C]]. exists g. split; [exact G|].
  destruct C as [(e & I & T & ->)|[(i & b & a & Hb & Ha & Tb & Ta & ->)
                |[(last & L & T & ->)|[(first & F & T & ->)|[N _]]]]].
  - apply index_exists in I as [i I].
    destruct (Z_le_gt_dec i (length before)) as [L|L].
    + pose proof (Early i e I L). lra.
    + destruct (Z.eq_dec i (length before + 1)) as [->|D].
      * rewrite I1 in I. injection I as <-. exact Same.
      * pose proof (Later i e I ltac:(lia)). lra.
  - destruct (Z_le_gt_dec (i + 1) (length before)) as [L|L].
    + pose proof (Early _ a Ha L). lra.
    + destruct (Z.eq_dec i (length before)) as [->|D].
      * rewrite I0 in Hb. rewrite I1 in Ha. injection Hb as <-. injection Ha as <-.
        unfold Levels.interpolated. rewrite Same. field. lra.
      * pose proof (Late i b Hb ltac:(lia)). lra.
  - unfold lastOf in L. rewrite Len in L.
    replace (length before + 3 - 1)%Z with (length before + 2)%Z in L by lia.
    rewrite I2 in L. injection L as <-. lra.
  - pose proof (Early 0%Z first F ltac:(lia)). lra.
  - unfold events in N. now destruct before.
Qed.

Variable v : Resolver.Variant.

Lemma keyframes_known (s : Resolver.State) (j : Z) (e : Keyframe.t) :
  lastOf (Resolver.keyframes s j) = Some e ->
  exists track,
    index (Resolver.tracks s) j = Some track
    /\ Track.volumeEvents track = Resolver.keyframes s j.
Proof.
  unfold Resolver.keyframes.
  destruct (index (Resolver.tracks s) j) as [track|]; [eauto|discriminate].
Qed.

Lemma keyframes_held (log : list (option Event.t)) (j : Z) (t0 value3 : Q)
    (lastEvent : Keyframe.t) :
  lastOf (Resolver.keyframes (Resolver.parse v log) j) = Some lastEvent ->
  0.1 < Resolver.eventTime v t0 - Keyframe.time lastEvent ->
  exists before hold new,
    Resolver.keyframes (Resolver.resolve v (log ++ [Resolver.control t0 j value3])) j
    = before ++ [lastEvent; hold; new]
    /\ Keyframe.time hold = Resolver.eventTime v t0 - 0.05
    /\ Keyframe.value hold = Keyframe.value lastEvent
    /\ Keyframe.time new = Resolver.eventTime v t0.
Proof.
  intros L Gap.
  destruct (keyframes_known _ _ _ L) as (track & K & V).
  destruct (lastOf_Some_snoc _ _ L) as [before B].
  unfold Resolver.resolve. rewrite keyframes_close, parse_snoc.
  unfold Resolver.control. rewrite keyframes_step, K, Z.eqb_refl.
  unfold Resolver.appended. rewrite V, L.
  apply gtb_gt in Gap. rewrite Gap, B, <- app_assoc.
  eexists before, _, _. split; [reflexivity|]. repeat split.
Qed.

End Hold.

(** X18.  What the hold keyframe is for.  When a ['channel_volume'] line
    comes more than 0.1 s after the last keyframe of its track, the gain
    looked up on the resolved keyframes stays at that keyframe's value for
    every time after it up to 0.05 s before the new event, whatever the new
    value. *)
Theorem hold_until_ramp (v : Resolver.Variant) (log : list (option Event.t)) (j : Z)
    (t0 value3 : Q) (lastEvent : Keyframe.t) (t : Q)
    (sorted : Resolver.nondecreasing
                (Resolver.timestamps (log ++ [Resolver.control t0 j value3])) = true)
    (last : lastOf (Resolver.keyframes (Resolver.parse v log) j) = Some lastEvent)
    (gap : (0.1 < Resolver.eventTime v t0 - Keyframe.time lastEvent)%Q)
    (after : (Keyframe.time lastEvent < t)%Q)
    (before : (t <= Resolver.eventTime v t0 - 0.05)%Q) :
  yields
    (getVolume t
       (Resolver.keyframes (Resolver.resolve v (log ++ [Resolver.control t0 j value3])) j))
    (Keyframe.value lastEvent).
Proof.
  pose proof (parse_nondescending v _ j sorted) as Sd.
  destruct (keyframes_held v log j t0 value3 lastEvent last gap)
    as (prefix & hold & new & E & Th & Vh & Tn).
  unfold Resolver.resolve in *. rewrite keyframes_close in E. rewrite keyframes_close.
  rewrite E in *. apply hold_lookup; try assumption.
  - rewrite Vh. reflexivity.
  - rewrite Th. exact before.
  - rewrite Th, Tn. lra.
Qed.

Lemma hold_until_ramp_witness :
  exists lastEvent,
    lastOf (Resolver.keyframes
              (Resolver.parse Resolver.Plain [Resolver.control 0 1 100]) 1)
    = Some lastEvent
    /\ yields
         (getVolume 0.9
            (Resolver.keyframes
               (Resolver.resolve Resolver.Plain
                  [Resolver.control 0 1 100; Resolver.control 1 1 20]) 1))
         (Keyframe.value lastEvent).
Proof.
  eexists. split; [vm_compute; reflexivity|].
  apply (hold_until_ramp Resolver.Plain [Resolver.control 0 1 100] 1 1 20 _ 0.9 eq_refl).
  - vm_compute. reflexivity.
  - reflexivity.
  - reflexivity.
  - discriminate.
Defined.

(** ** A chunk that ends inside a frame *)

Section PartialFrame.

Variable format : Format.
Variable levels : list Keyframe.t.
Hypothesis fmt : supported format = true.
Hypothesis pcm : blockAlign format = channels format * 2 /\ 0 < channels format.

Lemma sample_outside (processed i channel : Z) (chunk : Buffer) :
  length chunk < i + 2 * channel + 2 ->
  sample format levels processed i channel chunk = Throw RangeError.
Proof.
  intros O. unfold sample, readFormat, readInt16LE. rewrite fmt.
  rewrite (channelBytes_pcm format pcm).
  destruct (index chunk (i + 2 * channel)); [|reflexivity].
  now rewrite (index_outside chunk (i + 2 * channel + 1)) by lia.
Qed.

Lemma channelLoop_partial (processed i : Z) (fuel : nat) :
  0 <= i ->
  forall (channel : Z) (chunk : Buffer),
    length chunk < i + blockAlign format ->
    0 <= channel -> i + 2 * channel <= length chunk ->
    channels format - channel <= Z.of_nat fuel ->
    channelLoop format levels fuel processed i channel chunk = Throw RangeError.
Proof.
  intros Hi. destruct pcm as [B P].
  induction fuel as [|fuel IH]; intros channel chunk Hb Hc Hin Hf; cbn [channelLoop];
    destruct (Z.ltb_spec channel (channels format)) as [L|L]; try lia.
  destruct (Z_le_gt_dec (i + 2 * channel + 2) (length chunk)) as [In|Out].
  - destruct (sample_returns format levels fmt processed i channel chunk) as [c1 E];
      try (rewrite (channelBytes_pcm format pcm); lia).
    rewrite E. cbn [bind]. apply sample_length in E.
    apply IH; unfold length in *; lia.
  - rewrite sample_outside by lia. reflexivity.
Qed.

Lemma frameLoop_partial (processed : Z) (fuel : nat) :
  forall (i : Z) (chunk : Buffer),
    0 <= i <= length chunk -> (length chunk - i) mod blockAlign format <> 0 ->
    length chunk - i <= Z.of_nat fuel ->
    frameLoop format levels fuel processed i chunk = Throw RangeError.
Proof.
  destruct pcm as [B P].
  induction fuel as [|fuel IH]; intros i chunk Hi Hm Hf; cbn [frameLoop];
    destruct (Z.ltb_spec i (length chunk)) as [L|L]; try lia;
    try (exfalso; apply Hm; replace (length chunk - i) with 0 by lia;
         apply Z.mod_0_l; lia).
  destruct (Z_le_gt_dec (i + blockAlign format) (length chunk)) as [In|Out].
  - destruct (channelLoop_returns format levels fmt pcm processed i
                (Z.to_nat (channels format)) ltac:(lia) 0 chunk) as [c1 E]; try lia.
    rewrite E. cbn [bind]. apply channelLoop_length in E.
    assert (length c1 = length chunk) as El by (unfold length; now rewrite E).
    apply IH; rewrite ?El; try lia.
    replace (length chunk - (i + blockAlign format))
      with (length chunk - i + (-1) * blockAlign format) by lia.
    rewrite Z.mod_add by lia. exact Hm.
  - rewrite (channelLoop_partial processed i _ ltac:(lia)); try lia. reflexivity.
Qed.

End PartialFrame.

(** X19.  The transform needs whole frames.  For a 16-bit PCM format, a
    chunk made of whole frames is transformed and pushed on, and a chunk
    whose length is not a multiple of [blockAlign] makes the transform throw
    a RangeError, at the sample that lies across the end of the chunk. *)
Theorem transform_whole_frames (format : Format) (levels : list Keyframe.t)
    (processed : Z) (chunk : Buffer)
    (fmt : supported format = true)
    (pcm : blockAlign format = channels format * 2 /\ 0 < channels format) :
  (length chunk mod blockAlign format = 0 ->
   exists chunk', transform format levels processed chunk = Ok chunk')
  /\ (length chunk mod blockAlign format <> 0 ->
      transform format levels processed chunk = Throw RangeError).
Proof.
  split.
  - now apply transform_returns.
  - intros Partial. unfold transform. apply frameLoop_partial; try assumption.
    + unfold length. lia.
    + now rewrite Z.sub_0_r.
    + unfold length. lia.
Qed.

Lemma transform_whole_frames_witness :
  transform mono16 [] 0 [x01; x02; x03] = Throw RangeError.
Proof.
  apply (proj2 (transform_whole_frames mono16 [] 0 [x01; x02; x03] eq_refl
                  (conj eq_refl eq_refl))).
  discriminate.
Defined.
